(** * Receipts, log queries, precompiles and custom opcodes

    A shallow embedding of the receipt store of the client
    ([packages/client/lib/execution/receipt.ts]), of the SHA-256 and
    RIPEMD-160 precompiles of the EVM package, and of the opcode table and
    interpreter loop exercised by [packages/evm/tests/customOpcodes.spec.ts],
    together with the properties the specification states about them; and
    of three helpers of the VM tests ([packages/vm/tests/util.ts]), with
    further properties read off the code. *)

From Stdlib Require Import ZArith List Lia Bool.
From Stdlib Require Import Strings.Byte.
From stdpp Require Import gmap strings list sorting.

Local Open Scope Z_scope.

(** ** Buffers *)

(** A Node [Buffer] is a sequence of octets. *)
Abbreviation byte := Byte.byte.
Abbreviation Buffer := (list byte).

#[global] Instance byte_eq_dec : EqDecision byte := Byte.byte_eq_dec.

#[global] Instance byte_inhabited : Inhabited byte := populate Byte.x00.

#[global] Program Instance byte_countable : Countable byte :=
  inj_countable Byte.to_N Byte.of_N _.
Next Obligation. intros b. apply Byte.of_to_N. Qed.

(** The numeric value of an octet, and the octet of a number below 256
    (larger numbers are reduced modulo 256, as a typed array store does). *)
Definition byteVal (b : byte) : Z := Z.of_N (Byte.to_N b).

Definition byteOf (z : Z) : byte :=
  match Byte.of_N (Z.to_N (z mod 256)) with
  | Some b => b
  | None => Byte.x00
  end.

(** [a.equals(b)] on two buffers. *)
Definition Buffer_equals (a b : Buffer) : bool := bool_decide (a = b).

(** ** Exceptions and results *)

(** The JavaScript exceptions the modelled code can raise. *)
Inductive exn : Type :=
| TypeError
| RangeError
| Error (msg : string).

(** The outcome of a call that may throw. *)
Inductive result (A : Type) : Type :=
| Ok (a : A)
| Throw (e : exn).
Arguments Ok {A} a.
Arguments Throw {A} e.

Definition rbind {A B} (r : result A) (k : A → result B) : result B :=
  match r with
  | Ok a => k a
  | Throw e => Throw e
  end.

Declare Scope result_scope.
Delimit Scope result_scope with result.
Notation "'let*' x ':=' r 'in' k" :=
  (rbind r (fun x => k))
  (at level 10, x pattern, r at level 100, k at level 200) : result_scope.
Local Open Scope result_scope.

(** [Array.prototype.map] with a callback that may throw. *)
Section MapM.
Context {A B : Type} (f : A → result B).

Fixpoint mapM (l : list A) : result (list B) :=
  match l with
  | [] => Ok []
  | a :: l' =>
      let* b := f a in
      let* bs := mapM l' in
      Ok (b :: bs)
  end.
End MapM.

(** [Array.prototype.filter] with a callback that may throw. *)
Section FilterM.
Context {A : Type} (f : A → result bool).

Fixpoint filterM (l : list A) : result (list A) :=
  match l with
  | [] => Ok []
  | a :: l' =>
      let* keep := f a in
      let* rest := filterM l' in
      Ok (if keep then a :: rest else rest)
  end.
End FilterM.

(** ** Integer conversions of [@ethereumjs/util] *)

(** The largest integer a JavaScript number represents exactly. *)
Definition MAX_SAFE_INTEGER : Z := 2 ^ 53 - 1.

Definition isSafeInteger (i : Z) : bool :=
  (- MAX_SAFE_INTEGER <=? i) && (i <=? MAX_SAFE_INTEGER).

(** Big-endian octets of a non-negative integer, most significant first;
    [fuel] bounds the number of octets produced. *)
Fixpoint bigEndian_aux (fuel : nat) (n : Z) (acc : Buffer) : Buffer :=
  match fuel with
  | O => acc
  | S fuel' =>
      if n <=? 0 then acc
      else bigEndian_aux fuel' (n / 256) (byteOf (n mod 256) :: acc)
  end.

Definition bigEndian (n : Z) : Buffer :=
  bigEndian_aux (S (Z.to_nat (Z.log2 n))) n [].

(** Modelled from the spec: [bigIntToBuffer] of [@ethereumjs/util], which is
    not among the sources; the minimal big-endian octets of a non-negative
    integer (an even number of hexadecimal digits, so zero is the single
    octet [00]), and an exception on a negative one. *)
Definition bigIntToBuffer (num : Z) : result Buffer :=
  if num <? 0 then Throw (Error "Cannot convert string to buffer")
  else if num =? 0 then Ok [Byte.x00]
  else Ok (bigEndian num).

(** Modelled from the spec: [intToBuffer] of [@ethereumjs/util]; as
    [bigIntToBuffer] on a JavaScript number, which must be a non-negative
    safe integer. *)
Definition intToBuffer (i : Z) : result Buffer :=
  if negb (isSafeInteger i) || (i <? 0)
  then Throw (Error "Received an invalid integer type")
  else if i =? 0 then Ok [Byte.x00]
  else Ok (bigEndian i).

(** Modelled from the spec: [bufferToBigInt] of [@ethereumjs/util]; the
    integer a buffer denotes in big-endian, zero for the empty buffer. *)
Definition bufferToBigInt (buf : Buffer) : Z :=
  fold_left (fun acc b => acc * 256 + byteVal b) buf 0.

(** Modelled from the spec: [bufferToInt] of [@ethereumjs/util]; as
    [bufferToBigInt], refusing what a JavaScript number cannot hold. *)
Definition bufferToInt (buf : Buffer) : result Z :=
  let res := bufferToBigInt buf in
  if isSafeInteger res then Ok res
  else Throw (Error "Number exceeds 53 bits").

(** ** The RLP interface *)

(** What [RLP.encode] accepts and [RLP.decode] yields: a byte string or a
    list of such items. [bufArrToArr] and [arrToBufArr] only change the
    JavaScript class of the byte strings and are the identity here. *)
#[local] Unset Elimination Schemes.
Inductive RlpInput : Type :=
| RlpBytes (b : Buffer)
| RlpList (l : list RlpInput).
#[local] Set Elimination Schemes.

(** ** Data model *)

(** [Log = [address, topics, data]]. *)
Definition Log : Type := Buffer * list Buffer * Buffer.

Definition log_address (l : Log) : Buffer := l.1.1.
Definition log_topics (l : Log) : list Buffer := l.1.2.
Definition log_data (l : Log) : Buffer := l.2.

(** The first field of a stored receipt: the state root before Byzantium,
    the status code from Byzantium on. *)
Inductive PostStateOrStatus : Type :=
| stateRoot (root : Buffer)
| status (code : Z).

(** [TxReceipt]: the two receipt shapes share the cumulative gas and the
    logs; [bitvector] (the logs bloom, a 2048-bit vector) and [txType] are
    annotations attached on retrieval. *)
Record TxReceipt : Type := mkTxReceipt {
  postStateOrStatus : PostStateOrStatus;
  cumulativeBlockGasUsed : Z;
  logs : list Log;
  bitvector : option Z;
  txType : option Z;
}.

Record TypedTransaction : Type := mkTx {
  tx_hash : Buffer;
  tx_type : Z;
}.

Record Block : Type := mkBlock {
  header_number : Z;
  block_hash : Buffer;
  transactions : list TypedTransaction;
}.

(** [TxHashIndex = [blockHash, txIndex]]. *)
Definition TxHashIndex : Type := Buffer * Z.

Inductive IndexType : Type := IndexType_TxHash.
Inductive IndexOperation : Type := Save | Delete.
Inductive RlpConvert : Type := Encode | Decode.
Inductive RlpType : Type := RlpType_Receipts | RlpType_Logs | RlpType_TxHash.

(** The values the overloaded [rlp] method takes and returns. *)
Inductive RlpValue : Type :=
| VBuffer (b : Buffer)
| VReceipts (rs : list TxReceipt)
| VLogs (ls : list Log)
| VTxHash (ix : TxHashIndex).

(** One element of the answer of [getLogs]. *)
Record GetLogsEntry : Type := mkEntry {
  entry_log : Log;
  entry_block : Block;
  entry_tx : option TypedTransaction;
  entry_txIndex : nat;
  entry_logIndex : nat;
}.

(** A position of the [topics] filter of [getLogs]. *)
Inductive TopicFilter : Type :=
| TopicNull
| TopicOne (t : Buffer)
| TopicAny (ts : list Buffer).

(** ** The meta database *)

(** The key spaces of the meta database used by the receipt store. *)
Inductive DBKey : Type := DBKey_Receipts | DBKey_TxHash.

#[global] Instance DBKey_eq_dec : EqDecision DBKey.
Proof. solve_decision. Defined.

#[global] Program Instance DBKey_countable : Countable DBKey :=
  inj_countable' (fun k => match k with DBKey_Receipts => false | DBKey_TxHash => true end)
                 (fun b : bool => if b then DBKey_TxHash else DBKey_Receipts) _.
Next Obligation. by intros []. Qed.

(** Modelled from the spec: the key-value store behind [MetaDBManager]
    ([../util/metaDBManager], not among the sources), a finite map from
    [(key space, key)] to the stored bytes. *)
Abbreviation MetaDB := (gmap (DBKey * Buffer) Buffer).

(** A method of the manager: it reads and writes the database and may
    throw; what was written before an exception stays written. *)
Definition M (A : Type) : Type := MetaDB → MetaDB * result A.

Definition ret {A} (a : A) : M A := fun db => (db, Ok a).
Definition throw {A} (e : exn) : M A := fun db => (db, Throw e).
Definition lift {A} (r : result A) : M A := fun db => (db, r).

Definition bind {A B} (m : M A) (k : A → M B) : M B :=
  fun db =>
    match m db with
    | (db', Ok a) => k a db'
    | (db', Throw e) => (db', Throw e)
    end.

Declare Scope db_scope.
Delimit Scope db_scope with db.
Notation "'await' x ':=' m 'in' k" := (bind m (fun x => k))
  (at level 10, x pattern, m at level 100, k at level 200) : db_scope.
Notation "m ;;; k" := (bind m (fun _ => k))
  (at level 100, k at level 200, right associativity) : db_scope.

(** Modelled from the spec: [MetaDBManager.put], [get] (null when the key
    is absent) and [delete]. *)
Definition put (type : DBKey) (key value : Buffer) : M unit :=
  fun db => (<[(type, key) := value]> db, Ok tt).

Definition get (type : DBKey) (key : Buffer) : M (option Buffer) :=
  fun db => (db, Ok (db !! (type, key))).

Definition delete (type : DBKey) (key : Buffer) : M unit :=
  fun db => (base.delete (type, key) db, Ok tt).

(** [for (const x of xs) await body(x)]. *)
Fixpoint forM_ {A} (xs : list A) (body : A → M unit) : M unit :=
  match xs with
  | [] => ret tt
  | x :: xs' => (body x ;;; forM_ xs' body)%db
  end.

(** ** External collaborators of the receipt store *)

(** How [chain.getBlock] is asked for a block. *)
Inductive BlockId : Type :=
| ByNumber (n : Z)
| ByHash (h : Buffer).

(** The part of [Chain] the receipt store consults: the block lookup, which
    throws when the block is unknown, and the height of the header chain. *)
Record Chain : Type := mkChain {
  chain_getBlock : BlockId → result Block;
  headers_height : Z;
}.

(** The libraries the receipt store calls and whose code is outside the
    repository's core: the RLP codec (encoding may fail, as when the output
    would exceed the largest buffer), Keccak-256, and the byte length of the
    JSON text of a list of log entries
    ([Buffer.byteLength(JSON.stringify(logs))]). *)
Class Externals : Type := mkExternals {
  RLP_encode : RlpInput → result Buffer;
  RLP_decode : Buffer → result RlpInput;
  keccak256 : Buffer → Buffer;
  jsonByteLength : list GetLogsEntry → Z;
}.

(** The fields of a [ReceiptsManager]: the three limits of [getLogs], the
    configured [txLookupLimit] and the chain. *)
Record ReceiptsManager : Type := mkReceiptsManager {
  GET_LOGS_LIMIT : Z;
  GET_LOGS_LIMIT_MEGABYTES : Z;
  GET_LOGS_BLOCK_RANGE_LIMIT : Z;
  config_txLookupLimit : Z;
  chain : Chain;
}.

(** The field initialisers of the class. *)
Definition defaultReceiptsManager (txLookupLimit : Z) (c : Chain) : ReceiptsManager :=
  {| GET_LOGS_LIMIT := 10000;
     GET_LOGS_LIMIT_MEGABYTES := 150;
     GET_LOGS_BLOCK_RANGE_LIMIT := 2500;
     config_txLookupLimit := txLookupLimit;
     chain := c |}.

(** ** Bloom filter *)

Section Bloom.
Context `{!Externals}.

(** Modelled from the spec: [Bloom.add] of [@ethereumjs/vm] (not among the
    sources). The filter is a 2048-bit vector; an item sets the three bits
    whose indexes are the low 11 bits of the byte pairs 0-1, 2-3 and 4-5
    of its Keccak-256 hash (which has 32 bytes; a missing byte reads as
    zero here). *)
Definition readUInt16BE (e : Buffer) (offset : nat) : Z :=
  byteVal (e !!! offset) * 256 + byteVal (e !!! S offset).

Definition Bloom_add (bloom : Z) (e : Buffer) : Z :=
  let h := keccak256 e in
  fold_left
    (fun bv i => Z.lor bv (Z.shiftl 1 (Z.land 2047 (readUInt16BE h (i * 2)))))
    [0%nat; 1%nat; 2%nat] bloom.

(** [logsBloom]: the address and every topic of every log are added to a
    fresh filter. *)
Definition logsBloom (ls : list Log) : Z :=
  fold_left
    (fun bloom log => fold_left Bloom_add (log_topics log) (Bloom_add bloom (log_address log)))
    ls 0.
End Bloom.

(** ** The receipt store *)

Section ReceiptsManager.
Context `{!Externals}.
Variable this : ReceiptsManager.

(** *** Storage encodings *)

Definition rlpOfLog (l : Log) : RlpInput :=
  RlpList [RlpBytes (log_address l);
           RlpList (map RlpBytes (log_topics l));
           RlpBytes (log_data l)].

(** The casts [as Log[]], [as rlpReceipt[]] and [as rlpTxHash] of a
    decoded item. TypeScript does not check them: the code reads the
    first items of the decoded array ([r[0]], [r[1]], [r[2]], the
    destructuring [[blockHash, txIndex]], [log[0]], [log[1]]) and never
    looks at what follows them, so the items after the ones that are read
    are ignored here too. An item that lacks one of the fields that are
    read, or holds a list where [Buffer] operations are applied to the
    field, makes the later access fail; that is a [TypeError] here, raised
    at the cast. A log is kept as the triple of its type, so its data,
    which the code hands on unread, have to be there as well. *)
Definition asBuffer (x : RlpInput) : result Buffer :=
  match x with
  | RlpBytes b => Ok b
  | RlpList _ => Throw TypeError
  end.

Definition asLog (x : RlpInput) : result Log :=
  match x with
  | RlpList (RlpBytes address :: RlpList topics :: RlpBytes data :: _) =>
      let* ts := mapM asBuffer topics in
      Ok (address, ts, data)
  | _ => Throw TypeError
  end.

Definition asLogs (x : RlpInput) : result (list Log) :=
  match x with
  | RlpList l => mapM asLog l
  | RlpBytes _ => Throw TypeError
  end.

Definition asRlpReceipt (x : RlpInput) : result (Buffer * Buffer * Buffer) :=
  match x with
  | RlpList (RlpBytes r0 :: RlpBytes r1 :: RlpBytes r2 :: _) => Ok (r0, r1, r2)
  | _ => Throw TypeError
  end.

Definition asRlpReceipts (x : RlpInput) : result (list (Buffer * Buffer * Buffer)) :=
  match x with
  | RlpList l => mapM asRlpReceipt l
  | RlpBytes _ => Throw TypeError
  end.

Definition asRlpTxHash (x : RlpInput) : result (Buffer * Buffer) :=
  match x with
  | RlpList (RlpBytes blockHash :: RlpBytes txIndex :: _) => Ok (blockHash, txIndex)
  | _ => Throw TypeError
  end.

(** [rlp(conversion, RlpType.Logs, value)]. *)
Definition rlp_Logs_encode (value : list Log) : result Buffer :=
  RLP_encode (RlpList (map rlpOfLog value)).

Definition rlp_Logs_decode (value : Buffer) : result (list Log) :=
  let* decoded := RLP_decode value in
  asLogs decoded.

(** The callback of [value.map] in the [Encode] branch of
    [RlpType.Receipts]. *)
Definition rlpOfReceipt (r : TxReceipt) : result RlpInput :=
  let* first :=
    match postStateOrStatus r with
    | stateRoot root => Ok root
    | status code => intToBuffer code
    end in
  let* gasUsed := bigIntToBuffer (cumulativeBlockGasUsed r) in
  let* encodedLogs := rlp_Logs_encode (logs r) in
  Ok (RlpList [RlpBytes first; RlpBytes gasUsed; RlpBytes encodedLogs]).

(** The callback of [decoded.map] in the [Decode] branch. *)
Definition receiptOfRlp (r : Buffer * Buffer * Buffer) : result TxReceipt :=
  let '(r0, gasUsed, r2) := r in
  let* logs := rlp_Logs_decode r2 in
  if (length r0 =? 32)%nat then
    (* Pre-Byzantium Receipt *)
    Ok {| postStateOrStatus := stateRoot r0;
          cumulativeBlockGasUsed := bufferToBigInt gasUsed;
          logs := logs; bitvector := None; txType := None |}
  else
    (* Post-Byzantium Receipt *)
    let* code := bufferToInt r0 in
    Ok {| postStateOrStatus := status code;
          cumulativeBlockGasUsed := bufferToBigInt gasUsed;
          logs := logs; bitvector := None; txType := None |}.

(** [rlp]: encodes or decodes the given data type for storage in, or
    retrieval from, the meta database. The overloads fix which value goes
    with which conversion and type; any other combination is a type
    error. *)
Definition rlp (conversion : RlpConvert) (type : RlpType) (value : RlpValue)
  : result RlpValue :=
  match type, conversion, value with
  | RlpType_Receipts, Encode, VReceipts value =>
      let* items := mapM rlpOfReceipt value in
      let* encoded := RLP_encode (RlpList items) in
      Ok (VBuffer encoded)
  | RlpType_Receipts, Decode, VBuffer value =>
      let* item := RLP_decode value in
      let* decoded := asRlpReceipts item in
      let* receipts := mapM receiptOfRlp decoded in
      Ok (VReceipts receipts)
  | RlpType_Logs, Encode, VLogs value =>
      let* encoded := rlp_Logs_encode value in
      Ok (VBuffer encoded)
  | RlpType_Logs, Decode, VBuffer value =>
      let* ls := rlp_Logs_decode value in
      Ok (VLogs ls)
  | RlpType_TxHash, Encode, VTxHash (blockHash, txIndex) =>
      let* ix := intToBuffer txIndex in
      let* encoded := RLP_encode (RlpList [RlpBytes blockHash; RlpBytes ix]) in
      Ok (VBuffer encoded)
  | RlpType_TxHash, Decode, VBuffer value =>
      let* item := RLP_decode value in
      let* decoded := asRlpTxHash item in
      let* ix := bufferToInt decoded.2 in
      Ok (VTxHash (decoded.1, ix))
  | _, _, _ => Throw TypeError
  end.

(** The typed faces of [rlp] its callers use. *)
Definition rlpEncode (type : RlpType) (value : RlpValue) : result Buffer :=
  let* out := rlp Encode type value in
  match out with
  | VBuffer b => Ok b
  | _ => Throw TypeError
  end.

Definition rlpDecodeReceipts (value : Buffer) : result (list TxReceipt) :=
  let* out := rlp Decode RlpType_Receipts (VBuffer value) in
  match out with
  | VReceipts rs => Ok rs
  | _ => Throw TypeError
  end.

Definition rlpDecodeTxHash (value : Buffer) : result TxHashIndex :=
  let* out := rlp Decode RlpType_TxHash (VBuffer value) in
  match out with
  | VTxHash ix => Ok ix
  | _ => Throw TypeError
  end.

Local Open Scope db_scope.

(** *** Indexes *)

(** [updateIndex(IndexOperation.Delete, IndexType.TxHash, block)]. *)
Definition updateIndex_Delete (block : Block) : M unit :=
  forM_ (transactions block) (fun tx => delete DBKey_TxHash (tx_hash tx)).

(** The body of the loop over [block.transactions.entries()] in the
    [Save] branch. *)
Definition saveTxHashIndex (block : Block) (entry : nat * TypedTransaction) : M unit :=
  let '(i, tx) := entry in
  let index : TxHashIndex := (block_hash block, Z.of_nat i) in
  await encoded := lift (rlpEncode RlpType_TxHash (VTxHash index)) in
  put DBKey_TxHash (tx_hash tx) encoded.

(** A call whose promise is discarded with [void]: its effects on the
    database take place, its failure is not reported to the caller. The
    model runs the detached call to completion on the spot. *)
Definition void {A} (m : M A) : M unit :=
  fun db => ((m db).1, Ok tt).

(** [updateIndex]: saves or deletes the tx-hash indexes of a block. *)
Definition updateIndex (operation : IndexOperation) (type : IndexType)
    (value : Block) : M unit :=
  match type with
  | IndexType_TxHash =>
      let block := value in
      match operation with
      | Save =>
          let withinTxLookupLimit :=
            (config_txLookupLimit this =? 0)
            || (headers_height (chain this) - config_txLookupLimit this
                  <? header_number block) in
          (if withinTxLookupLimit
           then forM_ (imap pair (transactions block)) (saveTxHashIndex block)
           else ret tt) ;;;
          if 0 <? config_txLookupLimit this then
            (* Remove tx hashes for one block past txLookupLimit *)
            let limit := headers_height (chain this) - config_txLookupLimit this in
            if limit <? 0 then ret tt
            else
              await blockDelIndexes := lift (chain_getBlock (chain this) (ByNumber limit)) in
              void (updateIndex_Delete blockDelIndexes)
          else ret tt
      | Delete => updateIndex_Delete block
      end
  end.

(** [getIndex]: the value of an index, or null when there is none. *)
Definition getIndex (type : IndexType) (value : Buffer) : M (option TxHashIndex) :=
  match type with
  | IndexType_TxHash =>
      await encoded := get DBKey_TxHash value in
      match encoded with
      | None => ret None
      | Some encoded =>
          await ix := lift (rlpDecodeTxHash encoded) in
          ret (Some ix)
      end
  end.

(** *** Saving and reading receipts *)

(** [saveReceipts]: stores the receipts of a block under its hash and
    starts the update of the tx-hash indexes. *)
Definition saveReceipts (block : Block) (receipts : list TxReceipt) : M unit :=
  await encoded := lift (rlpEncode RlpType_Receipts (VReceipts receipts)) in
  put DBKey_Receipts (block_hash block) encoded ;;;
  void (updateIndex Save IndexType_TxHash block).

Definition setBitvector (r : TxReceipt) : TxReceipt :=
  {| postStateOrStatus := postStateOrStatus r;
     cumulativeBlockGasUsed := cumulativeBlockGasUsed r;
     logs := logs r;
     bitvector := Some (logsBloom (logs r));
     txType := txType r |}.

Definition setTxType (block : Block) (ir : nat * TxReceipt) : result TxReceipt :=
  let '(i, r) := ir in
  match transactions block !! i with
  | None => Throw TypeError
  | Some tx =>
      Ok {| postStateOrStatus := postStateOrStatus r;
            cumulativeBlockGasUsed := cumulativeBlockGasUsed r;
            logs := logs r;
            bitvector := bitvector r;
            txType := Some (tx_type tx) |}
  end.

(** [getReceipts]: the receipts stored for a block hash, the empty list
    when there are none. *)
Definition getReceipts (blockHash : Buffer) (calcBloom includeTxType : bool)
  : M (list TxReceipt) :=
  await encoded := get DBKey_Receipts blockHash in
  match encoded with
  | None => ret []
  | Some encoded =>
      await receipts := lift (rlpDecodeReceipts encoded) in
      let receipts := if calcBloom then map setBitvector receipts else receipts in
      if includeTxType then
        await block := lift (chain_getBlock (chain this) (ByHash blockHash)) in
        lift (mapM (setTxType block) (imap pair receipts))
      else ret receipts
  end.

(** [getReceiptByTxHash]: the receipt of a transaction with the block
    hash, the index of the transaction in its block and the index of its
    first log in the block; null when it is not found. *)
Definition getReceiptByTxHash (txHash : Buffer)
  : M (option (TxReceipt * Buffer * Z * Z)) :=
  await txHashIndex := getIndex IndexType_TxHash txHash in
  match txHashIndex with
  | None => ret None
  | Some (blockHash, txIndex) =>
      await receipts := getReceipts blockHash false false in
      if (length receipts =? 0)%nat then ret None
      else
        let logIndex :=
          fold_left (fun logIndex r => logIndex + Z.of_nat (length (logs r)))
                    (take (Z.to_nat txIndex) receipts) 0 in
        match receipts !! Z.to_nat txIndex with
        | None => throw TypeError
        | Some receipt =>
            ret (Some (setBitvector receipt, blockHash, txIndex, logIndex))
        end
  end.

(** *** Log queries *)

(** The entries of one receipt: [receipt.logs.map] with the running
    [logIndex++]. *)
Definition receiptEntries (block : Block) (receiptIndex logIndex : nat)
    (receipt : TxReceipt) : list GetLogsEntry :=
  imap (fun k log =>
          {| entry_log := log;
             entry_block := block;
             entry_tx := transactions block !! receiptIndex;
             entry_txIndex := receiptIndex;
             entry_logIndex := logIndex + k |})
       (logs receipt).

(** The loop over [receipts.entries()] that flattens the logs of a block,
    started at receipt [receiptIndex] with [logIndex] logs already seen. *)
Fixpoint blockEntries (block : Block) (receiptIndex logIndex : nat)
    (receipts : list TxReceipt) : list GetLogsEntry :=
  match receipts with
  | [] => []
  | receipt :: rest =>
      receiptEntries block receiptIndex logIndex receipt
      ++ blockEntries block (S receiptIndex) (logIndex + length (logs receipt)) rest
  end.

(** [addresses.some((a) => a.equals(l.log[0]))]. *)
Definition addressMatches (addresses : list Buffer) (l : GetLogsEntry) : bool :=
  existsb (fun a => Buffer_equals a (log_address (entry_log l))) addresses.

(** [t.equals(other)] where [other] may be [undefined]: [Buffer.equals]
    throws a [TypeError] on an argument that is not a buffer. *)
Definition equalsArg (t : Buffer) (other : option Buffer) : result bool :=
  match other with
  | Some o => Ok (Buffer_equals t o)
  | None => Throw TypeError
  end.

(** [topic.find((t) => t.equals(other))]. *)
Fixpoint findEquals (topic : list Buffer) (other : option Buffer)
  : result (option Buffer) :=
  match topic with
  | [] => Ok None
  | t :: rest =>
      let* eq := equalsArg t other in
      if eq then Ok (Some t) else findEquals rest other
  end.

(** What one iteration of the loop over [topics.entries()] does. Every
    path through the body ends in a [return]: [false] from a failed
    comparison, and otherwise the [return true] that closes the body. *)
Definition topicIteration (l : GetLogsEntry) (i : nat) (topic : TopicFilter)
  : result bool :=
  match topic with
  | TopicAny topic =>
      (* Can match any items in this array *)
      let* found := findEquals topic (log_topics (entry_log l) !! i) in
      if negb (bool_decide (is_Some found)) then Ok false else Ok true
  | TopicNull =>
      (* If null then can match any *)
      Ok true
  | TopicOne topic =>
      (* If a value is specified then it must match *)
      let* eq := equalsArg topic (log_topics (entry_log l) !! i) in
      if negb eq then Ok false else Ok true
  end.

(** The callback of the topics filter: [for (const [i, topic] of
    topics.entries()) { ...; return true }]. Since the first iteration
    returns, the following entries are never looked at; with no entry at
    all the callback returns [undefined], which [filter] reads as false. *)
Definition topicsCallback (topics : list TopicFilter) (l : GetLogsEntry)
  : result bool :=
  match imap pair topics with
  | [] => Ok false
  | (i, topic) :: _ => topicIteration l i topic
  end.

(** The filters applied to the entries of one block. *)
Definition filterLogs (addresses : option (list Buffer))
    (topics : list TopicFilter) (logs : list GetLogsEntry)
  : result (list GetLogsEntry) :=
  let logs :=
    match addresses with
    | Some addresses =>
        if (0 <? length addresses)%nat
        then List.filter (addressMatches addresses) logs
        else logs
    | None => logs
    end in
  if (0 <? length topics)%nat
  then filterM (topicsCallback topics) logs
  else Ok logs.

(** The body of the loop of [getLogs] for block number [i], up to the
    filters: the filtered entries of the block, or nothing when the block
    has no receipts and the loop goes on to the next number
    ([continue]). *)
Definition blockLogs (addresses : option (list Buffer))
    (topics : list TopicFilter) (i : Z) : M (option (list GetLogsEntry)) :=
  await block := lift (chain_getBlock (chain this) (ByNumber i)) in
  await receipts := getReceipts (block_hash block) false false in
  if (length receipts =? 0)%nat then ret None
  else
    let logs := blockEntries block 0 0 receipts in
    await logs := lift (filterLogs addresses topics logs) in
    ret (Some logs).

(** The loop [for (let i = ...; i <= to.header.number; i++)] of [getLogs]
    with [n] block numbers left, standing at block number [i]. *)
Fixpoint getLogs_loop (addresses : option (list Buffer))
    (topics : list TopicFilter) (n : nat) (i : Z)
    (returnedLogs : list GetLogsEntry) (returnedLogsSize : Z)
  : M (list GetLogsEntry) :=
  match n with
  | O => ret returnedLogs
  | S n' =>
      await found := blockLogs addresses topics i in
      match found with
      | None =>
          getLogs_loop addresses topics n' (i + 1) returnedLogs returnedLogsSize
      | Some logs =>
          let returnedLogs := returnedLogs ++ logs in
          let returnedLogsSize := returnedLogsSize + jsonByteLength logs in
          if (Z.of_nat (length returnedLogs) >=? GET_LOGS_LIMIT this)
             || (returnedLogsSize >=? GET_LOGS_LIMIT_MEGABYTES this * 1048576)
          then ret returnedLogs
          else getLogs_loop addresses topics n' (i + 1) returnedLogs returnedLogsSize
      end
  end.

(** [getLogs]: the logs of the blocks [from] to [to] that pass the address
    and topic filters of an [eth_getLogs] query. *)
Definition getLogs (from to : Block) (addresses : option (list Buffer))
    (topics : list TopicFilter) : M (list GetLogsEntry) :=
  getLogs_loop addresses topics
    (Z.to_nat (header_number to - header_number from + 1))
    (header_number from) [] 0.
End ReceiptsManager.

(** ** EVM exceptions ([packages/evm/src/exceptions.ts]) *)

Inductive ERROR : Type :=
| OUT_OF_GAS
| CODESTORE_OUT_OF_GAS
| STACK_UNDERFLOW
| STACK_OVERFLOW
| INVALID_JUMP
| INVALID_OPCODE
| OUT_OF_RANGE
| REVERT
| STATIC_STATE_CHANGE
| INTERNAL_ERROR
| CREATE_COLLISION
| STOP
| REFUND_EXHAUSTED
| VALUE_OVERFLOW
| INSUFFICIENT_BALANCE
| INVALID_BEGINSUB
| INVALID_RETURNSUB
| INVALID_JUMPSUB
| INVALID_BYTECODE_RESULT
| INVALID_EOF_FORMAT
| INITCODE_SIZE_VIOLATION
| AUTHCALL_UNSET
| AUTHCALL_NONZERO_VALUEEXT
| AUTH_INVALID_S
| BLS_12_381_INVALID_INPUT_LENGTH
| BLS_12_381_POINT_NOT_ON_CURVE
| BLS_12_381_INPUT_EMPTY
| BLS_12_381_FP_NOT_IN_FIELD.

(** The string value of each member of the enum. *)
Definition ERROR_value (e : ERROR) : string :=
  match e with
  | OUT_OF_GAS => "out of gas"
  | CODESTORE_OUT_OF_GAS => "code store out of gas"
  | STACK_UNDERFLOW => "stack underflow"
  | STACK_OVERFLOW => "stack overflow"
  | INVALID_JUMP => "invalid JUMP"
  | INVALID_OPCODE => "invalid opcode"
  | OUT_OF_RANGE => "value out of range"
  | REVERT => "revert"
  | STATIC_STATE_CHANGE => "static state change"
  | INTERNAL_ERROR => "internal error"
  | CREATE_COLLISION => "create collision"
  | STOP => "stop"
  | REFUND_EXHAUSTED => "refund exhausted"
  | VALUE_OVERFLOW => "value overflow"
  | INSUFFICIENT_BALANCE => "insufficient balance"
  | INVALID_BEGINSUB => "invalid BEGINSUB"
  | INVALID_RETURNSUB => "invalid RETURNSUB"
  | INVALID_JUMPSUB => "invalid JUMPSUB"
  | INVALID_BYTECODE_RESULT => "invalid bytecode deployed"
  | INVALID_EOF_FORMAT => "invalid EOF format"
  | INITCODE_SIZE_VIOLATION => "initcode exceeds max initcode size"
  | AUTHCALL_UNSET => "attempting to AUTHCALL without AUTH set"
  | AUTHCALL_NONZERO_VALUEEXT =>
      "attempting to execute AUTHCALL with nonzero external value"
  | AUTH_INVALID_S =>
      "invalid Signature: s-values greater than secp256k1n/2 are considered invalid"
  | BLS_12_381_INVALID_INPUT_LENGTH => "invalid input length"
  | BLS_12_381_POINT_NOT_ON_CURVE => "point not on curve"
  | BLS_12_381_INPUT_EMPTY => "input is empty"
  | BLS_12_381_FP_NOT_IN_FIELD => "fp point not in field"
  end.

Record EvmError : Type := mkEvmError {
  error : ERROR;
  errorType : string;
}.

(** The constructor of [EvmError]. *)
Definition new_EvmError (e : ERROR) : EvmError :=
  {| error := e; errorType := "EvmError" |}.

(** ** Precompiles 02 (SHA-256) and 03 (RIPEMD-160) *)

(** The chain rules a precompile or an opcode consults: [param(topic, name)]
    of [Common]. *)
Record Common : Type := mkCommon {
  param : string → string → Z;
}.

(** The fields of [ExecResult] the precompiles set. *)
Record ExecResult : Type := mkExecResult {
  executionGasUsed : Z;
  returnValue : Buffer;
  exceptionError : option EvmError;
}.

(** [opts.data] may be missing, which the precompiles check first. *)
Record PrecompileInput : Type := mkPrecompileInput {
  data : option Buffer;
  gasLimit : Z;
  _common : Common;
}.

(** The hash functions of [ethereum-cryptography]. *)
Class Hashes : Type := mkHashes {
  sha256 : Buffer → Buffer;
  ripemd160 : Buffer → Buffer;
}.

(** Modelled from the spec: [OOGResult] of [../evm] (not among the sources):
    an out-of-gas failure that consumes all provided gas and returns
    nothing. *)
Definition OOGResult (gasLimit : Z) : ExecResult :=
  {| executionGasUsed := gasLimit;
     returnValue := [];
     exceptionError := Some (new_EvmError OUT_OF_GAS) |}.

(** Modelled from the spec: [setLengthLeft] of [@ethereumjs/util] (not among
    the sources, and not described by the specification): the buffer padded
    on the left with zero bytes to the given length; a longer buffer keeps
    its last [length] bytes. *)
Definition setLengthLeft (msg : Buffer) (length : nat) : Buffer :=
  if (List.length msg <? length)%nat
  then replicate (length - List.length msg) Byte.x00 ++ msg
  else drop (List.length msg - length) msg.

(** [Math.ceil(n / 32)] for a buffer length [n]: the division by a power of
    two is exact in floating point, so this is the integer ceiling. *)
Definition ceil32 (n : Z) : Z := (n + 31) / 32.

Section Precompiles.
Context `{!Hashes}.

Definition precompile02 (opts : PrecompileInput) : result ExecResult :=
  match data opts with
  | None => Throw (Error "opts.data missing but required")
  | Some data =>
      let gasUsed := param (_common opts) "gasPrices" "sha256" in
      let gasUsed :=
        gasUsed + param (_common opts) "gasPrices" "sha256Word"
                  * ceil32 (Z.of_nat (length data)) in
      if gasLimit opts <? gasUsed then Ok (OOGResult (gasLimit opts))
      else Ok {| executionGasUsed := gasUsed;
                 returnValue := sha256 data;
                 exceptionError := None |}
  end.

Definition precompile03 (opts : PrecompileInput) : result ExecResult :=
  match data opts with
  | None => Throw (Error "opts.data missing but required")
  | Some data =>
      let gasUsed := param (_common opts) "gasPrices" "ripemd160" in
      let gasUsed :=
        gasUsed + param (_common opts) "gasPrices" "ripemd160Word"
                  * ceil32 (Z.of_nat (length data)) in
      if gasLimit opts <? gasUsed then Ok (OOGResult (gasLimit opts))
      else Ok {| executionGasUsed := gasUsed;
                 returnValue := setLengthLeft (ripemd160 data) 32;
                 exceptionError := None |}
  end.
End Precompiles.

(** ** The EVM core: run state, opcode table and interpreter *)

(** The interpreter, the stack, the memory and the opcode table live in
    [packages/evm/src], which is not among the sources; only their test
    [customOpcodes.spec.ts] is. They are modelled from the specification. *)

(** Modelled from the spec: a Word is an unsigned 256-bit integer and all
    arithmetic is modulo [2^256]. *)
Definition wrap256 (z : Z) : Z := z mod 2 ^ 256.

(** Modelled from the spec: the terminal halt reasons of a call frame. *)
Inductive HaltReason : Type :=
| Stop
| Return (out : Buffer)
| Revert (out : Buffer)
| OutOfGas
| InvalidOpcode
| InvalidJump
| StackUnderflow
| StackOverflow
| StaticStateChange
| CreateCollision
| RefundExhausted
| InsufficientBalance
| InvalidBytecodeResult
| InitcodeSizeViolation
| InternalError.

(** Modelled from the spec: the per-call execution context [RunState]. The
    stack is kept with its top first. *)
Record RunState : Type := mkRunState {
  pc : nat;
  gasLeft : Z;
  stack : list Z;
  memory : Buffer;
  returnData : Buffer;
  code : Buffer;
  caller : Buffer;
  address : Buffer;
  value : Z;
  callData : Buffer;
  isStatic : bool;
  depth : nat;
  runLogs : list Log;
  refund : Z;
  haltReason : option HaltReason;
}.

Definition set_pc (n : nat) (rs : RunState) : RunState :=
  let 'mkRunState _ g s m rd c ca ad v cd st d l rf h := rs in
  mkRunState n g s m rd c ca ad v cd st d l rf h.

Definition set_gasLeft (g : Z) (rs : RunState) : RunState :=
  let 'mkRunState p _ s m rd c ca ad v cd st d l rf h := rs in
  mkRunState p g s m rd c ca ad v cd st d l rf h.

Definition set_stack (s : list Z) (rs : RunState) : RunState :=
  let 'mkRunState p g _ m rd c ca ad v cd st d l rf h := rs in
  mkRunState p g s m rd c ca ad v cd st d l rf h.

Definition set_memory (m : Buffer) (rs : RunState) : RunState :=
  let 'mkRunState p g s _ rd c ca ad v cd st d l rf h := rs in
  mkRunState p g s m rd c ca ad v cd st d l rf h.

Definition set_halt (r : HaltReason) (rs : RunState) : RunState :=
  let 'mkRunState p g s m rd c ca ad v cd st d l rf _ := rs in
  mkRunState p g s m rd c ca ad v cd st d l rf (Some r).

(** *** Stack *)

Definition STACK_LIMIT : nat := 1024.

(** Modelled from the spec: [push] fails with [StackOverflow] if pushing
    would exceed 1024 entries. *)
Definition Stack_push (v : Z) (rs : RunState) : RunState :=
  if (STACK_LIMIT <=? length (stack rs))%nat then set_halt StackOverflow rs
  else set_stack (v :: stack rs) rs.

(** Modelled from the spec: [pop] fails with [StackUnderflow] if there are
    fewer operands than required; [k] continues with the popped word. *)
Definition Stack_pop (rs : RunState) (k : Z → RunState → RunState) : RunState :=
  match stack rs with
  | [] => set_halt StackUnderflow rs
  | v :: s => k v (set_stack s rs)
  end.

(** *** Memory *)

(** Modelled from the spec: [resize(offset, length)] extends the memory to
    [ceil((offset+length)/32)*32] bytes; it never shrinks. *)
Definition Memory_newSize (size offset len : Z) : Z :=
  Z.max size ((offset + len + 31) / 32 * 32).

Definition Memory_resize (offset len : Z) (m : Buffer) : Buffer :=
  m ++ replicate (Z.to_nat (Memory_newSize (Z.of_nat (length m)) offset len)
                  - length m) Byte.x00.

(** Modelled from the spec: the cost of being at [w] words is
    [3·w + floor(w²/512)]; the expansion charge is the positive difference
    between the new and the old cost. *)
Definition Memory_cost (w : Z) : Z := 3 * w + w * w / 512.

Definition Memory_expansionCharge (size offset len : Z) : Z :=
  Z.max 0 (Memory_cost (Memory_newSize size offset len / 32) - Memory_cost (size / 32)).

(** Modelled from the spec: reads return zero for out-of-range bytes. *)
Definition Memory_read (m : Buffer) (offset len : Z) : Buffer :=
  map (fun k => m !!! (Z.to_nat offset + k)%nat) (seq 0 (Z.to_nat len)).

Definition Memory_write (m : Buffer) (offset : Z) (bytes : Buffer) : Buffer :=
  take (Z.to_nat offset) m ++ bytes
  ++ drop (Z.to_nat offset + length bytes) m.

(** The 32 big-endian bytes of a word. *)
Definition word32 (v : Z) : Buffer :=
  map (fun k => byteOf (v / 256 ^ Z.of_nat (31 - k))) (seq 0 32).

(** *** Opcode descriptors and the opcode table *)

(** Modelled from the spec: [OpcodeDescriptor]. [gasFn] returns the total
    gas charged for the step, the base fee included; [logicFn] may halt by
    setting an exit reason on the run state. *)
Record OpcodeDescriptor : Type := mkOpcode {
  op_code : byte;
  name : string;
  baseFee : Z;
  minStack : nat;
  maxStack : nat;
  isAsync : bool;
  gasFn : RunState → Z → Z;
  logicFn : RunState → RunState;
}.

(** Modelled from the spec: an entry of [customOpcodes]. An entry with only
    [opcode] deletes the slot; an entry with [name], [baseFee], [gasFn] and
    [logicFn] overrides it, and its stack bounds, when missing, are
    [(0, 0)]. *)
Inductive CustomOpcode : Type :=
| DeleteOpcode (opcode : byte)
| AddOpcode (opcode : byte) (opcodeName : string) (baseFee : Z)
    (gasFunction : RunState → Z → Z) (logicFunction : RunState → RunState)
    (bounds : option (nat * nat)).

Abbreviation OpcodeMap := (gmap byte OpcodeDescriptor).

(** Modelled from the spec: the working table of an EVM, a handle to the
    shared defaults and the overlay of that EVM; a slot of the overlay
    marked deleted holds no descriptor. *)
Record OpcodeTable : Type := mkOpcodeTable {
  defaults : OpcodeMap;
  overlay : gmap byte (option OpcodeDescriptor);
}.

(** Modelled from the spec: step 2 of the construction, one entry of the
    custom list applied to the overlay. *)
Definition applyCustom (ov : gmap byte (option OpcodeDescriptor))
    (e : CustomOpcode) : gmap byte (option OpcodeDescriptor) :=
  match e with
  | DeleteOpcode opcode => <[opcode := None]> ov
  | AddOpcode opcode opcodeName fee gasFunction logicFunction bounds =>
      let '(lo, hi) := default (0%nat, 0%nat) bounds in
      <[opcode := Some (mkOpcode opcode opcodeName fee lo hi false
                                 gasFunction logicFunction)]> ov
  end.

Definition buildOverlay (customs : list CustomOpcode)
  : gmap byte (option OpcodeDescriptor) :=
  fold_left applyCustom customs ∅.

(** Modelled from the spec: the effective lookup,
    [overlay.get(op) ?? defaults.get(op)], where a deleted slot is
    undefined. *)
Definition lookupOpcode (t : OpcodeTable) (op : byte) : option OpcodeDescriptor :=
  match overlay t !! op with
  | Some slot => slot
  | None => defaults t !! op
  end.

(** Modelled from the spec: what all EVM instances share, the immutable
    default table of each hardfork. *)
Record Shared : Type := mkShared {
  DEFAULTS : string → OpcodeMap;
}.

(** The construction options the opcode table depends on. *)
Record EVMOpts : Type := mkEVMOpts {
  opts_hardfork : string;
  opts_customOpcodes : list CustomOpcode;
}.

Record EVM : Type := mkEVM {
  _customOpcodes : list CustomOpcode;
  _opcodes : OpcodeTable;
}.

(** Modelled from the spec: the construction of an EVM (section 4.3). It
    reads the shared defaults and leaves them as they are. *)
Definition EVM_create (opts : EVMOpts) (shared : Shared) : EVM * Shared :=
  let table :=
    {| defaults := DEFAULTS shared (opts_hardfork opts);
       overlay := buildOverlay (opts_customOpcodes opts) |} in
  ({| _customOpcodes := opts_customOpcodes opts; _opcodes := table |}, shared).

(** *** Interpreter *)

(** Modelled from the spec: the step event handed to the observers. *)
Record InterpreterStep : Type := mkStep {
  step_pc : nat;
  step_op : byte;
  step_name : string;
  step_gasLeft : Z;
  step_depth : nat;
  step_stackSnapshot : list Z;
}.

(** Modelled from the spec: every halt other than [Stop], [Return] and
    [Revert] is exceptional and consumes all remaining gas. *)
Definition isExceptional (r : HaltReason) : bool :=
  match r with
  | Stop | Return _ | Revert _ => false
  | _ => true
  end.

Definition exceptionalHalt (r : HaltReason) (rs : RunState) : RunState :=
  set_halt r (set_gasLeft 0 rs).

Definition settle (rs : RunState) : RunState :=
  match haltReason rs with
  | Some r => if isExceptional r then set_gasLeft 0 rs else rs
  | None => rs
  end.

(** Modelled from the spec: the state-mutating opcodes a static frame
    refuses: SSTORE, LOG*, CREATE*, SELFDESTRUCT and CALL with a value (the
    third operand of CALL). *)
Definition isStateMutating (d : OpcodeDescriptor) (rs : RunState) : bool :=
  String.eqb (name d) "SSTORE"
  || String.prefix "LOG" (name d)
  || String.prefix "CREATE" (name d)
  || String.eqb (name d) "SELFDESTRUCT"
  || (String.eqb (name d) "CALL"
      && match stack rs !! 2%nat with
         | Some v => negb (v =? 0)
         | None => false
         end).

(** Modelled from the spec: one turn of the main loop (section 4.4, steps 1
    to 8), with the step event it emits, if any. The stack bounds of an
    opcode are read as the number of operands it takes ([minStack]) and the
    number of words it leaves ([maxStack]): the stack must hold the former,
    and must not exceed 1024 entries once the latter have replaced them.
    The interpreter moves [pc] past the opcode before the logic runs; a
    PUSH moves it further past its immediate bytes and a jump sets it. *)
Definition interpreterStep (t : OpcodeTable) (rs : RunState)
  : RunState * list InterpreterStep :=
  match code rs !! pc rs with
  | None => (set_halt Stop rs, [])
  | Some op =>
      match lookupOpcode t op with
      | None => (exceptionalHalt InvalidOpcode rs, [])
      | Some d =>
          if (length (stack rs) <? minStack d)%nat
          then (exceptionalHalt StackUnderflow rs, [])
          else if (STACK_LIMIT <? length (stack rs) - minStack d + maxStack d)%nat
          then (exceptionalHalt StackOverflow rs, [])
          else if isStatic rs && isStateMutating d rs
          then (exceptionalHalt StaticStateChange rs, [])
          else
            let charge := gasFn d rs (baseFee d) in
            if gasLeft rs <? charge
            then (exceptionalHalt OutOfGas rs, [])
            else
              let rs := set_gasLeft (gasLeft rs - charge) rs in
              let event :=
                {| step_pc := pc rs; step_op := op; step_name := name d;
                   step_gasLeft := gasLeft rs; step_depth := depth rs;
                   step_stackSnapshot := stack rs |} in
              (settle (logicFn d (set_pc (S (pc rs)) rs)), [event])
      end
  end.

(** The main loop: turns are taken until a halt reason is set. [fuel]
    bounds the number of turns; [None] means it ran out. *)
Fixpoint interpreterRun (fuel : nat) (t : OpcodeTable) (rs : RunState)
    (events : list InterpreterStep) : option (RunState * list InterpreterStep) :=
  match fuel with
  | O => None
  | S fuel' =>
      let '(rs', ev) := interpreterStep t rs in
      match haltReason rs' with
      | Some _ => Some (rs', events ++ ev)
      | None => interpreterRun fuel' t rs' (events ++ ev)
      end
  end.

(** Modelled from the spec: the stable error of a halt reason, none for a
    successful halt. *)
Definition haltError (r : HaltReason) : option ERROR :=
  match r with
  | Stop | Return _ => None
  | Revert _ => Some REVERT
  | OutOfGas => Some OUT_OF_GAS
  | InvalidOpcode => Some INVALID_OPCODE
  | InvalidJump => Some INVALID_JUMP
  | StackUnderflow => Some STACK_UNDERFLOW
  | StackOverflow => Some STACK_OVERFLOW
  | StaticStateChange => Some STATIC_STATE_CHANGE
  | CreateCollision => Some CREATE_COLLISION
  | RefundExhausted => Some REFUND_EXHAUSTED
  | InsufficientBalance => Some INSUFFICIENT_BALANCE
  | InvalidBytecodeResult => Some INVALID_BYTECODE_RESULT
  | InitcodeSizeViolation => Some INITCODE_SIZE_VIOLATION
  | InternalError => Some INTERNAL_ERROR
  end.

Definition haltOutput (r : HaltReason) : Buffer :=
  match r with
  | Return out | Revert out => out
  | _ => []
  end.

(** The options of [runCode] and its result; [res_steps] are the step
    events the observers received, in order. *)
Record RunCodeOpts : Type := mkRunCodeOpts {
  rc_code : Buffer;
  rc_data : Buffer;
  rc_gasLimit : Z;
  rc_caller : Buffer;
  rc_address : Buffer;
  rc_value : Z;
  rc_depth : nat;
  rc_isStatic : bool;
}.

Record RunCodeResult : Type := mkRunCodeResult {
  res_executionGasUsed : Z;
  res_returnValue : Buffer;
  res_exceptionError : option EvmError;
  res_runState : RunState;
  res_steps : list InterpreterStep;
}.

Definition initialRunState (opts : RunCodeOpts) : RunState :=
  {| pc := 0; gasLeft := rc_gasLimit opts; stack := []; memory := [];
     returnData := []; code := rc_code opts; caller := rc_caller opts;
     address := rc_address opts; value := rc_value opts;
     callData := rc_data opts; isStatic := rc_isStatic opts;
     depth := rc_depth opts; runLogs := []; refund := 0;
     haltReason := None |}.

(** Modelled from the spec: the execution entry [runCode]. *)
Definition runCode (fuel : nat) (evm : EVM) (opts : RunCodeOpts)
  : option RunCodeResult :=
  match interpreterRun fuel (_opcodes evm) (initialRunState opts) [] with
  | None => None
  | Some (rs, events) =>
      let reason := default InternalError (haltReason rs) in
      Some {| res_executionGasUsed := rc_gasLimit opts - gasLeft rs;
              res_returnValue := haltOutput reason;
              res_exceptionError := new_EvmError <$> haltError reason;
              res_runState := rs;
              res_steps := events |}
  end.

(** *** The default opcodes the tests execute *)

Section DefaultOpcodes.
Variable common : Common.

(** Modelled from the spec: ADD adds two words modulo [2^256]. *)
Definition op_ADD : OpcodeDescriptor :=
  mkOpcode Byte.x01 "ADD" (param common "gasPrices" "add") 2 1 false
    (fun _ fee => fee)
    (fun rs =>
       Stack_pop rs (fun a rs =>
       Stack_pop rs (fun b rs =>
       Stack_push (wrap256 (a + b)) rs))).

(** Modelled from the spec: PUSH1 pushes the byte that follows it and
    advances [pc] by two in all. *)
Definition op_PUSH1 : OpcodeDescriptor :=
  mkOpcode Byte.x60 "PUSH1" (param common "gasPrices" "push") 0 1 false
    (fun _ fee => fee)
    (fun rs =>
       let v := byteVal (code rs !!! pc rs) in
       Stack_push v (set_pc (S (pc rs)) rs)).

(** Modelled from the spec: MSTORE stores a word as 32 big-endian bytes at
    the offset on top of the stack, and pays for the memory it extends. *)
Definition op_MSTORE : OpcodeDescriptor :=
  mkOpcode Byte.x52 "MSTORE" (param common "gasPrices" "mstore") 2 0 false
    (fun rs fee =>
       match stack rs with
       | offset :: _ =>
           fee + Memory_expansionCharge (Z.of_nat (length (memory rs))) offset 32
       | [] => fee
       end)
    (fun rs =>
       Stack_pop rs (fun offset rs =>
       Stack_pop rs (fun word rs =>
       set_memory
         (Memory_write (Memory_resize offset 32 (memory rs)) offset (word32 word))
         rs))).

(** Modelled from the spec: RETURN halts with [Return(mem[o..o+l])], the
    offset on top of the stack and the length below it. *)
Definition op_RETURN : OpcodeDescriptor :=
  mkOpcode Byte.xf3 "RETURN" (param common "gasPrices" "return") 2 0 false
    (fun rs fee =>
       match stack rs with
       | offset :: len :: _ =>
           fee + Memory_expansionCharge (Z.of_nat (length (memory rs))) offset len
       | _ => fee
       end)
    (fun rs =>
       Stack_pop rs (fun offset rs =>
       Stack_pop rs (fun len rs =>
       let m := Memory_resize offset len (memory rs) in
       set_halt (Return (Memory_read m offset len)) (set_memory m rs)))).
End DefaultOpcodes.

(** *** The custom opcode of the tests *)

(** [testOpcode] of [customOpcodes.spec.ts]: base fee 333, a gas function
    that adds 33 to it, and a logic function that pushes 1. *)
Definition fee : Z := 333.
Definition logicFee : Z := 33.
Definition totalFee : Z := fee + logicFee.
Definition stackPush : Z := 1.

Definition testOpcode (opcode : byte) : CustomOpcode :=
  AddOpcode opcode "TEST" fee
    (fun runState gas => gas + logicFee)
    (fun runState => Stack_push stackPush runState)
    None.

(** ** Helpers of the VM tests ([packages/vm/tests/util.ts]) *)

(** A string stands for a JavaScript string whose characters are all below
    256, one character each: its length is the number of its characters,
    as [a.length] is. *)





(** [buf.toString('hex')]: two lower-case hexadecimal digits for each
    octet. *)
Definition hexDigit (n : Z) : Ascii.ascii :=
  Ascii.ascii_of_nat (Z.to_nat (if n <? 10 then 48 + n else 87 + n)).

Definition toHex (buf : Buffer) : string :=
  fold_right (fun b s => String (hexDigit (byteVal b / 16))
                           (String (hexDigit (byteVal b mod 16)) s))
             EmptyString buf.

(** Modelled from the spec: [bufferToHex] of [@ethereumjs/util] (not among
    the sources): the hexadecimal digits after the prefix [0x]. *)
Definition bufferToHex (buf : Buffer) : string := "0x" +:+ toHex buf.

(** The value of a hexadecimal digit, none for another character. *)
Definition unhex (c : Ascii.ascii) : option Z :=
  let n := Z.of_nat (Ascii.nat_of_ascii c) in
  if (48 <=? n) && (n <=? 57) then Some (n - 48)
  else if (65 <=? n) && (n <=? 70) then Some (n - 55)
  else if (97 <=? n) && (n <=? 102) then Some (n - 87)
  else None.

(** [Buffer.from(s, 'hex')]: one octet for every pair of hexadecimal
    digits, up to the first pair that is not one; a last character without
    a partner is left out. *)
Fixpoint fromHex (s : string) : Buffer :=
  match s with
  | String c1 (String c2 s') =>
      match unhex c1, unhex c2 with
      | Some hi, Some lo => byteOf (hi * 16 + lo) :: fromHex s'
      | _, _ => []
      end
  | _ => []
  end.

(** Modelled from the spec: [isHexPrefixed] of [@ethereumjs/util]. *)
Definition isHexPrefixed (str : string) : bool := String.prefix "0x" str.

(** [a.slice(2)]. *)
Definition slice2 (a : string) : string :=
  String.substring 2 (String.length a - 2) a.

(** [if (a.length % 2) a = '0' + a]. *)
Definition padToEven (a : string) : string :=
  if Nat.odd (String.length a) then "0" +:+ a else a.

(** What the callers of [format] hand to it, a string or a bigint, and what
    it returns: a buffer, or its argument when that could not be
    converted. *)
Inductive FormatArg : Type :=
| FString (s : string)
| FBigInt (n : Z).

Inductive FormatOut : Type :=
| OutBuffer (b : Buffer)
| OutString (s : string)
| OutBigInt (n : Z).

Section Format.
(** [BigInt(s)] for a string: the integer the string denotes, or nothing
    when it denotes none and a [SyntaxError] is thrown. *)
Variable BigInt_ofString : string → option Z.

(** [format]: the buffer a value of the test data stands for. The first
    [match] is the early return on the empty string; the three branches
    that follow are those of the code, where a failed conversion to
    [BigInt] or to a buffer is caught and leaves the argument as it is, and
    [Buffer.from] refuses a bigint; at the end [a.toString('hex')] is the
    string itself for a string and a [RangeError] for a bigint, whose
    [toString] takes a radix. *)
Definition format (a : FormatArg) (toZero isHex : bool) : result FormatOut :=
  match a with
  | FString "" => Ok (OutBuffer [])
  | _ =>
      let* a :=
        match a with
        | FString s =>
            if isHexPrefixed s then
              Ok (OutBuffer (fromHex (padToEven (slice2 s))))
            else if negb isHex then
              match BigInt_ofString s with
              | Some n =>
                  match bigIntToBuffer n with
                  | Ok b => Ok (OutBuffer b)
                  | Throw _ => Ok (OutString s)
                  end
              | None => Ok (OutString s)
              end
            else Ok (OutBuffer (fromHex (padToEven s)))
        | FBigInt n =>
            if negb isHex then
              match bigIntToBuffer n with
              | Ok b => Ok (OutBuffer b)
              | Throw _ => Ok (OutBigInt n)
              end
            else Throw TypeError
        end in
      if toZero then
        match a with
        | OutBuffer b =>
            if bool_decide (toHex b = "") then Ok (OutBuffer [Byte.x00]) else Ok a
        | OutString s =>
            if bool_decide (s = "") then Ok (OutBuffer [Byte.x00]) else Ok a
        | OutBigInt _ => Throw RangeError
        end
      else Ok a
  end.
End Format.

(** An assertion [t.equal(actual, expected, msg)] made on the test object;
    it passes when the two are the same string. *)
Record Assertion : Type := mkAssertion {
  assert_actual : string;
  assert_expected : string;
  assert_msg : string;
}.

Definition passes (a : Assertion) : Prop := assert_actual a = assert_expected a.

(** A log as the test data describe it. *)
Record ExpectedLog : Type := mkExpectedLog {
  exp_address : string;
  exp_data : string;
  exp_topics : list string;
}.

(** [xs.forEach(body)] for a body that makes assertions and may throw: the
    assertions made until then, and how it ended. *)
Fixpoint forEachT {A} (xs : list A) (body : A → list Assertion * result unit)
  : list Assertion * result unit :=
  match xs with
  | [] => ([], Ok tt)
  | x :: xs' =>
      match body x with
      | (made, Ok _) =>
          let '(made', r) := forEachT xs' body in (made ++ made', r)
      | (made, Throw e) => (made, Throw e)
      end
  end.

(** The callback of [log.topics.forEach] in [verifyLogs]; a topic the log
    of the run does not have is [undefined], and its [toString] a
    [TypeError]. *)
Definition verifyTopic (rlog : Log) (entry : nat * string)
  : list Assertion * result unit :=
  let '(i, topic) := entry in
  match log_topics rlog !! i with
  | None => ([], Throw TypeError)
  | Some t => ([mkAssertion (toHex t) topic "log: invalid topic"], Ok tt)
  end.

(** The callback of [testData.logs.forEach]. *)
Definition verifyLog (logs : list Log) (entry : nat * ExpectedLog)
  : list Assertion * result unit :=
  let '(i, log) := entry in
  match logs !! i with
  | None => ([], Throw TypeError)
  | Some rlog =>
      let '(made, r) := forEachT (imap pair (exp_topics log)) (verifyTopic rlog) in
      (mkAssertion (toHex (log_address rlog)) (exp_address log) "log: valid address"
       :: mkAssertion (bufferToHex (log_data rlog)) (exp_data log) "log: valid data"
       :: made, r)
  end.

(** [verifyLogs]: checks the logs of a run against those the test data
    list, when they list any. *)
Definition verifyLogs (logs : list Log) (testData_logs : option (list ExpectedLog))
  : list Assertion * result unit :=
  match testData_logs with
  | Some expected => forEachT (imap pair expected) (verifyLog logs)
  | None => ([], Ok tt)
  end.

(** ** A reference RLP codec *)

(** Modelled from the spec: the RLP codec ([@ethereumjs/rlp], not among the
    sources). The specification keeps it behind an abstract interface and
    does not describe it; the definitions below follow the RLP format and
    give the receipt store a codec to run with. *)
Module RLP.
(** The largest length of a typed array; allocating a longer one raises a
    [RangeError]. *)
Definition kMaxLength : Z := 2 ^ 53 - 1.

Definition concatBytes (parts : list Buffer) : result Buffer :=
  let out := concat parts in
  if kMaxLength <? Z.of_nat (length out) then Throw RangeError else Ok out.

Definition encodeLength (len : nat) (offset : Z) : Buffer :=
  if (len <? 56)%nat then [byteOf (Z.of_nat len + offset)]
  else
    let hexLength := bigEndian (Z.of_nat len) in
    let lLength := Z.of_nat (length hexLength) in
    byteOf (offset + 55 + lLength) :: hexLength.

Fixpoint encode (input : RlpInput) : result Buffer :=
  match input with
  | RlpList l =>
      let* output := mapM encode l in
      let* buf := concatBytes output in
      concatBytes [encodeLength (length buf) 192; buf]
  | RlpBytes inputBuf =>
      if (length inputBuf =? 1)%nat && (byteVal (inputBuf !!! 0%nat) <? 128)
      then Ok inputBuf
      else concatBytes [encodeLength (length inputBuf) 128; inputBuf]
  end.

(** [input.slice(start, end)], refused when [end] is out of bounds. *)
Definition safeSlice (input : Buffer) (start end_ : nat) : result Buffer :=
  if (length input <? end_)%nat
  then Throw (Error "invalid RLP (safeSlice): end slice of Uint8Array out-of-bounds")
  else Ok (take (end_ - start) (drop start input)).

Definition decodeLength (v : Buffer) : result nat :=
  match v with
  | [] => Throw (Error "Invalid byte sequence")
  | b :: _ =>
      if byteVal b =? 0 then Throw (Error "invalid RLP: extra zeros")
      else Ok (Z.to_nat (bufferToBigInt v))
  end.

(** [_decode] reads one item and returns it with the bytes that follow;
    [decodeItems] is its loop over the payload of a list. [fuel] bounds
    the depth of the calls. *)
Fixpoint _decode (fuel : nat) (input : Buffer) : result (RlpInput * Buffer) :=
  match fuel with
  | O => Throw (Error "invalid RLP: out of fuel")
  | S fuel' =>
      match input with
      | [] => Throw (Error "invalid RLP: no input")
      | first :: _ =>
          let firstByte := byteVal first in
          if firstByte <=? 127 then
            Ok (RlpBytes (take 1 input), drop 1 input)
          else if firstByte <=? 183 then
            let len := Z.to_nat (firstByte - 127) in
            let* data :=
              if firstByte =? 128 then Ok [] else safeSlice input 1 len in
            if (len =? 2)%nat && (byteVal (data !!! 0%nat) <? 128)
            then Throw (Error "invalid RLP encoding: invalid prefix, single byte < 0x80 are not prefixed")
            else Ok (RlpBytes data, drop len input)
          else if firstByte <=? 191 then
            let llength := Z.to_nat (firstByte - 182) in
            if (length input - 1 <? llength)%nat
            then Throw (Error "invalid RLP: not enough bytes for string length")
            else
              let* lenBytes := safeSlice input 1 llength in
              let* len := decodeLength lenBytes in
              if (len <=? 55)%nat
              then Throw (Error "invalid RLP: expected string length to be greater than 55")
              else
                let* data := safeSlice input llength (len + llength) in
                Ok (RlpBytes data, drop (len + llength) input)
          else if firstByte <=? 247 then
            let len := Z.to_nat (firstByte - 191) in
            let* innerRemainder := safeSlice input 1 len in
            let* decoded := decodeItems fuel' innerRemainder in
            Ok (RlpList decoded, drop len input)
          else
            let llength := Z.to_nat (firstByte - 246) in
            let* lenBytes := safeSlice input 1 llength in
            let* len := decodeLength lenBytes in
            if (len <? 56)%nat
            then Throw (Error "invalid RLP: expected list length to be greater than 55")
            else
              let totalLength := (llength + len)%nat in
              if (length input <? totalLength)%nat
              then Throw (Error "invalid RLP: total length is larger than the data")
              else
                let* innerRemainder := safeSlice input llength totalLength in
                let* decoded := decodeItems fuel' innerRemainder in
                Ok (RlpList decoded, drop totalLength input)
      end
  end
with decodeItems (fuel : nat) (innerRemainder : Buffer) : result (list RlpInput) :=
  match fuel with
  | O => Throw (Error "invalid RLP: out of fuel")
  | S fuel' =>
      match innerRemainder with
      | [] => Ok []
      | _ :: _ =>
          let* d := _decode fuel' innerRemainder in
          let* rest := decodeItems fuel' d.2 in
          Ok (d.1 :: rest)
      end
  end.

(** [decode]: the empty input decodes to the empty byte string; bytes
    left over after the item are an error. The fuel given covers every
    input. *)
Definition decode (input : Buffer) : result RlpInput :=
  match input with
  | [] => Ok (RlpBytes [])
  | _ :: _ =>
      let* decoded := _decode (4 * length input + 4) input in
      if negb (length decoded.2 =? 0)%nat
      then Throw (Error "RLP: remainder must be zero")
      else Ok decoded.1
  end.
End RLP.

(** ** A reference environment *)

(** The externals the examples run with: the reference RLP codec, and
    stand-ins for Keccak-256 (the first 32 bytes of the input, padded with
    zeros) and for the size of the JSON text (two bytes for the brackets
    and a hundred for each entry). *)
Definition refExternals : Externals :=
  {| RLP_encode := RLP.encode;
     RLP_decode := RLP.decode;
     keccak256 := fun b => take 32 (b ++ replicate 32 Byte.x00);
     jsonByteLength := fun l => 2 + 100 * Z.of_nat (length l) |}.

(** Stand-ins for the two hash functions of the precompiles: 32 and 20
    bytes taken from the input, padded with zeros. *)
Definition refHashes : Hashes :=
  {| sha256 := fun b => take 32 (b ++ replicate 32 Byte.x00);
     ripemd160 := fun b => take 20 (b ++ replicate 20 Byte.x00) |}.

(** * Vocabulary of the properties *)

(** ** Well-formed receipts *)

(** A receipt as its type describes it: a state root of 32 bytes or a
    status that is a non-negative safe integer, and a non-negative
    cumulative gas. *)
Definition wfReceipt (r : TxReceipt) : Prop :=
  match postStateOrStatus r with
  | stateRoot root => length root = 32%nat
  | status code => 0 ≤ code ≤ MAX_SAFE_INTEGER
  end
  ∧ 0 ≤ cumulativeBlockGasUsed r.

(** What is stored of a receipt: the annotations are not part of the
    encoding. *)
Definition storedReceipt (r : TxReceipt) : TxReceipt :=
  {| postStateOrStatus := postStateOrStatus r;
     cumulativeBlockGasUsed := cumulativeBlockGasUsed r;
     logs := logs r;
     bitvector := None;
     txType := None |}.

(** ** The limits of a log query *)

(** The logs a block contributes, and what it adds to the size; a block
    without receipts contributes nothing. *)
Definition logsOf (found : option (list GetLogsEntry)) : list GetLogsEntry :=
  default [] found.

Definition collected (chunks : list (option (list GetLogsEntry))) : list GetLogsEntry :=
  concat (map logsOf chunks).

Section LimitVocabulary.
Context `{!Externals}.
Variable this : ReceiptsManager.

Definition collectedSize (chunks : list (option (list GetLogsEntry))) : Z :=
  fold_right (fun found size => from_option jsonByteLength 0 found + size) 0 chunks.

(** One of the two limits of [getLogs] is reached by these logs and this
    accumulated size. *)
Definition limitReached (logs : list GetLogsEntry) (size : Z) : Prop :=
  GET_LOGS_LIMIT this ≤ Z.of_nat (length logs)
  ∨ GET_LOGS_LIMIT_MEGABYTES this * 1048576 ≤ size.
End LimitVocabulary.

Section CutVocabulary.
Context `{!Externals}.
Variable this : ReceiptsManager.
Variable addresses : option (list Buffer).
Variable topics : list TopicFilter.
Variable db : MetaDB.

(** What the loop of [getLogs] has read of the range from [from] to [to]
    when it returns: [chunks] holds, block number by block number from
    [from] on, what [blockLogs] finds; no block with receipts before the
    last of them reaches a limit; and they are the whole range, or the
    last of them is a block with receipts at which a limit is reached.
    Nothing is asked of the blocks of the range after them. *)
Definition readUntilLimit (from to : Block)
    (chunks : list (option (list GetLogsEntry))) : Prop :=
  (length chunks ≤ Z.to_nat (header_number to - header_number from + 1))%nat
  ∧ (∀ (j : nat) o, chunks !! j = Some o →
       (blockLogs this addresses topics (header_number from + Z.of_nat j) db).2 = Ok o)
  ∧ (∀ (k : nat) c, (1 ≤ k < length chunks)%nat → chunks !! (k - 1)%nat = Some (Some c) →
       ¬ limitReached this (collected (take k chunks)) (collectedSize (take k chunks)))
  ∧ (length chunks = Z.to_nat (header_number to - header_number from + 1)
     ∨ ∃ c, last chunks = Some (Some c)
            ∧ limitReached this (collected chunks) (collectedSize chunks)).
End CutVocabulary.

(** The ascending order on (block, txIndex, logIndex). *)
Definition entry_lex (e1 e2 : GetLogsEntry) : Prop :=
  header_number (entry_block e1) < header_number (entry_block e2)
  ∨ (header_number (entry_block e1) = header_number (entry_block e2)
     ∧ ((entry_txIndex e1 < entry_txIndex e2)%nat
        ∨ (entry_txIndex e1 = entry_txIndex e2
           ∧ (entry_logIndex e1 < entry_logIndex e2)%nat))).

(** Within a block the transaction index never decreases and the log index
    increases. *)
Definition entry_within (e1 e2 : GetLogsEntry) : Prop :=
  (entry_txIndex e1 ≤ entry_txIndex e2)%nat
  ∧ (entry_logIndex e1 < entry_logIndex e2)%nat.

(** ** The filters and the indexes of a log query *)

(** What the first position of the topics filter asks of a log. *)
Definition firstTopicMatches (topic : TopicFilter) (e : GetLogsEntry) : Prop :=
  match topic with
  | TopicNull => True
  | TopicOne t => log_topics (entry_log e) !! 0%nat = Some t
  | TopicAny ts => ∃ t, t ∈ ts ∧ log_topics (entry_log e) !! 0%nat = Some t
  end.

(** A filter position that compares the topic of a log with a value. *)
Definition comparesFirstTopic (topic : TopicFilter) : Prop :=
  match topic with
  | TopicNull => False
  | TopicOne _ => True
  | TopicAny ts => ts ≠ []
  end.

(** The number of logs of some receipts. *)
Definition logCount (receipts : list TxReceipt) : nat :=
  sum_list (map (fun r => length (logs r)) receipts).

(** An entry that stands for log [k] of receipt [entry_txIndex] of a block
    with these receipts, numbered among all the logs of the block. *)
Definition entryAt (block : Block) (receipts : list TxReceipt) (e : GetLogsEntry) : Prop :=
  entry_block e = block
  ∧ entry_tx e = transactions block !! entry_txIndex e
  ∧ ∃ r k, receipts !! entry_txIndex e = Some r
           ∧ logs r !! k = Some (entry_log e)
           ∧ entry_logIndex e = (logCount (take (entry_txIndex e) receipts) + k)%nat.

(** ** Induction and fuel for RLP items *)

(** Induction on RLP items, with the hypothesis for every element of a
    list. *)
Fixpoint RlpInput_nested_ind (P : RlpInput → Prop)
    (Hbytes : ∀ b, P (RlpBytes b))
    (Hlist : ∀ l, Forall P l → P (RlpList l)) (x : RlpInput) : P x :=
  match x with
  | RlpBytes b => Hbytes b
  | RlpList l =>
      Hlist l ((fix all (l : list RlpInput) : Forall P l :=
                  match l with
                  | [] => @List.Forall_nil _ P
                  | y :: l' =>
                      @List.Forall_cons _ P y l' (RlpInput_nested_ind P Hbytes Hlist y) (all l')
                  end) l)
  end.

(** The depth of calls [_decode] and [decodeItems] need for an item. *)
Fixpoint decodeCost (x : RlpInput) : nat :=
  match x with
  | RlpBytes _ => 1%nat
  | RlpList l =>
      S ((fix items (l : list RlpInput) : nat :=
            match l with
            | [] => 1%nat
            | y :: l' => S (Nat.max (decodeCost y) (items l'))
            end) l)
  end.

Definition decodeCostItems : list RlpInput → nat :=
  fix items (l : list RlpInput) : nat :=
    match l with
    | [] => 1%nat
    | y :: l' => S (Nat.max (decodeCost y) (items l'))
    end.

(** * Examples to run the model on *)

(** ** Custom opcodes *)

(** The options of the runs of the tests: a gas limit of 123456 and
    nothing else. *)
Definition testRunOpts (code : Buffer) : RunCodeOpts :=
  {| rc_code := code; rc_data := []; rc_gasLimit := 123456; rc_caller := [];
     rc_address := []; rc_value := 0; rc_depth := 0; rc_isStatic := false |}.

(** The code of the test: PUSH1 04, PUSH1 01, ADD, PUSH1 00, MSTORE,
    PUSH1 01, PUSH1 1F, RETURN. *)
Definition addCode : Buffer :=
  [Byte.x60; Byte.x04; Byte.x60; Byte.x01; Byte.x01; Byte.x60; Byte.x00;
   Byte.x52; Byte.x60; Byte.x01; Byte.x60; Byte.x1f; Byte.xf3].

(** A default table with the four opcodes of the test and their usual
    prices. *)
Definition testCommon : Common :=
  mkCommon (fun _ name => if String.eqb name "return" then 0 else 3).

Definition testShared : Shared :=
  mkShared (fun _ =>
    list_to_map [(Byte.x01, op_ADD testCommon); (Byte.x60, op_PUSH1 testCommon);
                 (Byte.x52, op_MSTORE testCommon); (Byte.xf3, op_RETURN testCommon)]).

(** ** A small chain to run the receipt store on *)

Definition AA : Buffer := replicate 20 Byte.xaa.
Definition BB : Buffer := replicate 20 Byte.xbb.
Definition T1 : Buffer := replicate 32 Byte.x01.
Definition T2 : Buffer := replicate 32 Byte.x02.
Definition T3 : Buffer := replicate 32 Byte.x03.

Definition tx9 : TypedTransaction := mkTx (replicate 32 Byte.x99) 0.
Definition tx0 : TypedTransaction := mkTx (replicate 32 Byte.xa0) 0.
Definition tx1 : TypedTransaction := mkTx (replicate 32 Byte.xa1) 2.

Definition block10 : Block := mkBlock 10 (replicate 32 Byte.x10) [tx9].
Definition block11 : Block := mkBlock 11 (replicate 32 Byte.x11) [tx0; tx1].
Definition block12 : Block := mkBlock 12 (replicate 32 Byte.x12) [].

Definition testBlocks : list Block := [block10; block11; block12].

Definition testChain (height : Z) : Chain :=
  {| chain_getBlock := fun id =>
       let found :=
         match id with
         | ByNumber n => List.find (fun b => header_number b =? n) testBlocks
         | ByHash h => List.find (fun b => Buffer_equals (block_hash b) h) testBlocks
         end in
       match found with
       | Some b => Ok b
       | None => Throw (Error "block not found")
       end;
     headers_height := height |}.

Definition testManager (txLookupLimit height : Z) : ReceiptsManager :=
  defaultReceiptsManager txLookupLimit (testChain height).

Definition log0 : Log := (AA, [T1; T2], [Byte.x2a]).
Definition log1 : Log := (AA, [T1; T3], []).
Definition log9 : Log := (BB, [T1], []).

Definition receipt9 : TxReceipt := mkTxReceipt (status 1) 21000 [log9] None None.
Definition receipt0 : TxReceipt := mkTxReceipt (status 1) 21000 [log0] None None.
Definition receipt1 : TxReceipt :=
  mkTxReceipt (stateRoot (replicate 32 Byte.x55)) 63000 [log1] None None.

(** The database after the receipts of block 10 were saved with the head at
    height 10, and then those of block 11 with the head at height 11. *)
Definition testDB10 (txLookupLimit : Z) : MetaDB :=
  (saveReceipts (H := refExternals) (testManager txLookupLimit 10)
     block10 [receipt9] ∅).1.

Definition testDB (txLookupLimit : Z) : MetaDB :=
  (saveReceipts (H := refExternals) (testManager txLookupLimit 11)
     block11 [receipt0; receipt1] (testDB10 txLookupLimit)).1.

(** ** A chain to reach the limit of a log query on *)

Definition tx20 : TypedTransaction := mkTx (replicate 32 Byte.xb0) 0.
Definition block20 : Block := mkBlock 20 (replicate 32 Byte.xc8) [tx20].
Definition receipt100 : TxReceipt :=
  mkTxReceipt (status 1) 2100000 (replicate 100 log0) None None.

(** Five blocks with one transaction and one log each. *)
Definition singleBlock (n : Z) : Block :=
  mkBlock n (replicate 32 (byteOf n)) [mkTx (replicate 32 (byteOf (n + 128))) 0].

Definition singleBlocks : list Block := map singleBlock [30; 31; 32; 33; 34].

Definition limitChain : Chain :=
  {| chain_getBlock := fun id =>
       let found :=
         match id with
         | ByNumber n => List.find (fun b => header_number b =? n) (block20 :: singleBlocks)
         | ByHash h =>
             List.find (fun b => Buffer_equals (block_hash b) h) (block20 :: singleBlocks)
         end in
       match found with
       | Some b => Ok b
       | None => Throw (Error "block not found")
       end;
     headers_height := 34 |}.

(** A manager whose [GET_LOGS_LIMIT] was set to 3. *)
Definition limitManager : ReceiptsManager :=
  {| GET_LOGS_LIMIT := 3;
     GET_LOGS_LIMIT_MEGABYTES := 150;
     GET_LOGS_BLOCK_RANGE_LIMIT := 2500;
     config_txLookupLimit := 0;
     chain := limitChain |}.

Definition limitDB : MetaDB :=
  fold_left
    (fun db br => (saveReceipts (H := refExternals) limitManager br.1 [br.2] db).1)
    ((block20, receipt100) :: map (fun b => (b, receipt0)) singleBlocks) ∅.

Definition singleEntry (n : Z) : GetLogsEntry :=
  mkEntry log0 (singleBlock n) (Some (mkTx (replicate 32 (byteOf (n + 128))) 0)) 0 0.

(** A block [limitChain] does not know; nor does it know a block 35. *)
Definition block36 : Block := mkBlock 36 (replicate 32 Byte.x36) [].

(** ** Further examples on the small chain *)

(** The entries of the three logs of the small chain. *)
Definition entry9 : GetLogsEntry := mkEntry log9 block10 (Some tx9) 0 0.
Definition entry0 : GetLogsEntry := mkEntry log0 block11 (Some tx0) 0 0.
Definition entry1 : GetLogsEntry := mkEntry log1 block11 (Some tx1) 1 1.

(** A block the small chain does not know. *)
Definition block13 : Block := mkBlock 13 (replicate 32 Byte.x13) [].

(** The database after block 11 was saved with the receipt of its first
    transaction only. *)
Definition shortDB : MetaDB :=
  (saveReceipts (H := refExternals) (testManager 0 11) block11 [receipt0] ∅).1.

(** The database after block 12, which has no transaction, was saved with
    a receipt. *)
Definition surplusDB : MetaDB :=
  (saveReceipts (H := refExternals) (testManager 0 12) block12 [receipt0] ∅).1.

(** A log without topics, as LOG0 emits, and the database after block 10
    was saved with a receipt that holds it. *)
Definition logBare : Log := (BB, [], [Byte.x07]).

Definition receiptBare : TxReceipt :=
  mkTxReceipt (status 1) 21000 [logBare] None None.

Definition bareDB : MetaDB :=
  (saveReceipts (H := refExternals) (testManager 0 10) block10 [receiptBare] ∅).1.

(** What test data expect of [log9]. *)
Definition expected9 : ExpectedLog :=
  mkExpectedLog "bbbbbbbbbbbbbbbbbbbbbbbbbbbbbbbbbbbbbbbb" "0x"
    ["0101010101010101010101010101010101010101010101010101010101010101"].

(** * Properties *)

(** ** Auxiliary facts on the result monad *)

Lemma mapM_Forall2 {A B} (f : A → result B) (l : list A) (l' : list B) :
  Forall2 (fun a b => f a = Ok b) l l' → mapM f l = Ok l'.
Proof. induction 1 as [|a b l l' Hab _ IH]; simpl; [done|]. by rewrite Hab, IH. Qed.

Lemma mapM_Ok_inv {A B} (f : A → result B) (l : list A) (l' : list B) :
  mapM f l = Ok l' → Forall2 (fun a b => f a = Ok b) l l'.
Proof.
  revert l'. induction l as [|a l IH]; intros l'; simpl.
  - intros [= <-]. constructor.
  - destruct (f a) as [b|] eqn:Hfa; simpl; [|done].
    destruct (mapM f l) as [bs|]; simpl; [|done].
    intros [= <-]. constructor; [done | by apply IH].
Qed.

Lemma rbind_Ok_inv {A B} (r : result A) (k : A → result B) (b : B) :
  rbind r k = Ok b → ∃ a, r = Ok a ∧ k a = Ok b.
Proof. destruct r as [a|e]; simpl; [eauto | discriminate]. Qed.

(** ** Precompiles *)

Section PrecompileProperties.
Context `{!Hashes}.

Lemma ceil32_spec (n : Z) : 32 * (ceil32 n - 1) < n ≤ 32 * ceil32 n.
Proof. unfold ceil32. pose proof (Z.div_mod (n + 31) 32). pose proof (Z.mod_pos_bound (n + 31) 32). lia. Qed.

Lemma setLengthLeft_length (msg : Buffer) (n : nat) :
  length (setLengthLeft msg n) = n.
Proof.
  unfold setLengthLeft. destruct (Nat.ltb_spec (length msg) n).
  - rewrite length_app, length_replicate. lia.
  - rewrite length_drop. lia.
Qed.

Lemma setLengthLeft_pad (msg : Buffer) (n : nat) :
  (length msg ≤ n)%nat →
  setLengthLeft msg n = replicate (n - length msg) Byte.x00 ++ msg.
Proof.
  intros Hle. unfold setLengthLeft. destruct (Nat.ltb_spec (length msg) n); [done|].
  replace (n - length msg)%nat with 0%nat by lia.
  replace (length msg - n)%nat with 0%nat by lia. done.
Qed.

(** C6 (amended): for an input [d] and a gas limit [gl], both precompiles
    charge [base + perWord * ceil(len/32)]; below that limit they return
    the out-of-gas result, which uses all of [gl], returns nothing and
    carries the error [out of gas]; otherwise they use exactly that gas,
    SHA-256 returns the hash of the input and RIPEMD-160 returns the hash
    padded on the left with zero bytes to 32 bytes. *)
Theorem precompile_gas_and_output (d : Buffer) (gl : Z) (c : Common) :
  let words := ceil32 (Z.of_nat (length d)) in
  let gas02 := param c "gasPrices" "sha256" + param c "gasPrices" "sha256Word" * words in
  let gas03 := param c "gasPrices" "ripemd160" + param c "gasPrices" "ripemd160Word" * words in
  32 * (words - 1) < Z.of_nat (length d) ≤ 32 * words
  ∧ precompile02 (mkPrecompileInput (Some d) gl c)
    = Ok (if gl <? gas02 then OOGResult gl
          else {| executionGasUsed := gas02; returnValue := sha256 d;
                  exceptionError := None |})
  ∧ precompile03 (mkPrecompileInput (Some d) gl c)
    = Ok (if gl <? gas03 then OOGResult gl
          else {| executionGasUsed := gas03;
                  returnValue := setLengthLeft (ripemd160 d) 32;
                  exceptionError := None |})
  ∧ executionGasUsed (OOGResult gl) = gl
  ∧ returnValue (OOGResult gl) = []
  ∧ (ERROR_value ∘ error) <$> exceptionError (OOGResult gl) = Some "out of gas"
  ∧ length (setLengthLeft (ripemd160 d) 32) = 32%nat
  ∧ (length (ripemd160 d) = 20%nat →
     setLengthLeft (ripemd160 d) 32 = replicate 12 Byte.x00 ++ ripemd160 d).
Proof.
  intros words gas02 gas03. split; [apply ceil32_spec|].
  split; [unfold precompile02; simpl; fold words gas02; by destruct (gl <? gas02)|].
  split; [unfold precompile03; simpl; fold words gas03; by destruct (gl <? gas03)|].
  repeat split; try done.
  - apply setLengthLeft_length.
  - intros Hlen. rewrite setLengthLeft_pad by lia. by rewrite Hlen.
Qed.
End PrecompileProperties.

(** The statement at a two-byte input whose stand-in digest has 20 bytes,
    with a base price of 600 and a word price of 120. *)
Lemma precompile_gas_and_output_witness :
  let c := mkCommon (fun _ n => if String.eqb n "ripemd160" then 600
                                else if String.eqb n "ripemd160Word" then 120 else 0) in
  let d := [Byte.x01; Byte.x02] in
  length (@ripemd160 refHashes d) = 20%nat
  ∧ @precompile03 refHashes (mkPrecompileInput (Some d) 1000 c)
    = Ok {| executionGasUsed := 720;
            returnValue := replicate 12 Byte.x00 ++ @ripemd160 refHashes d;
            exceptionError := None |}
  ∧ @precompile03 refHashes (mkPrecompileInput (Some d) 719 c) = Ok (OOGResult 719).
Proof.
  intros c d.
  destruct (@precompile_gas_and_output refHashes d 1000 c) as (_ & _ & H3 & _ & _ & _ & _ & Hpad).
  destruct (@precompile_gas_and_output refHashes d 719 c) as (_ & _ & H3' & _).
  split; [reflexivity|]. split.
  - rewrite H3. rewrite Hpad by reflexivity. reflexivity.
  - rewrite H3'. reflexivity.
Defined.

(** C6 as stated fails for RIPEMD-160: whatever 20-byte digest the hash
    function yields, the value returned is not that digest. *)
Lemma precompile03_returns_hash_counterexample :
  ¬ (∀ (H : Hashes) (d : Buffer) (gl : Z) (c : Common),
       (∀ x, length (ripemd160 x) = 20%nat) →
       param c "gasPrices" "ripemd160"
         + param c "gasPrices" "ripemd160Word" * ceil32 (Z.of_nat (length d)) ≤ gl →
       ∃ r, precompile03 (mkPrecompileInput (Some d) gl c) = Ok r
            ∧ returnValue r = ripemd160 d).
Proof.
  intros Hall.
  destruct (Hall refHashes [] 0 (mkCommon (fun _ _ => 0))) as (r & Hr & Hret).
  - intros x. unfold ripemd160, refHashes.
    rewrite length_take, length_app, length_replicate. lia.
  - simpl. lia.
  - vm_compute in Hr. injection Hr as <-. vm_compute in Hret. discriminate.
Qed.

(** ** Custom opcodes *)

Section OpcodeTableProperties.
Variable shared : Shared.
Variable hardfork : string.

Lemma EVM_create_shared (opts : EVMOpts) : (EVM_create opts shared).2 = shared.
Proof. reflexivity. Qed.

Lemma lookupOpcode_default_evm (op : byte) :
  lookupOpcode (_opcodes (EVM_create (mkEVMOpts hardfork []) shared).1) op
  = DEFAULTS shared hardfork !! op.
Proof. unfold lookupOpcode. simpl. unfold buildOverlay. simpl. by rewrite lookup_empty. Qed.

Lemma lookupOpcode_deleted (op : byte) :
  lookupOpcode (_opcodes (EVM_create (mkEVMOpts hardfork [DeleteOpcode op]) shared).1) op
  = None.
Proof.
  unfold lookupOpcode. simpl. unfold buildOverlay. simpl.
  by rewrite lookup_insert_eq.
Qed.

Lemma lookupOpcode_test (op : byte) :
  lookupOpcode (_opcodes (EVM_create (mkEVMOpts hardfork [testOpcode op]) shared).1) op
  = Some (mkOpcode op "TEST" fee 0 0 false
            (fun runState gas => gas + logicFee)
            (fun runState => Stack_push stackPush runState)).
Proof.
  unfold lookupOpcode. simpl. unfold buildOverlay. simpl.
  by rewrite lookup_insert_eq.
Qed.

(** C7: an EVM built with the custom opcode TEST at 0x21 (base fee 333,
    gas function adding 33, logic pushing 1) runs the code [21] with
    enough gas to a normal halt: 366 gas are used, the stack is [1], and
    one step event is emitted, at pc 0 and named TEST, whose stack
    snapshot is still empty, so it precedes the logic function. *)
Theorem custom_opcode_gas_and_logic (opts : RunCodeOpts) (fuel : nat) :
  rc_code opts = [Byte.x21] →
  totalFee ≤ rc_gasLimit opts →
  let evm := (EVM_create (mkEVMOpts hardfork [testOpcode Byte.x21]) shared).1 in
  ∃ r, runCode (S (S fuel)) evm opts = Some r
       ∧ res_executionGasUsed r = 366
       ∧ stack (res_runState r) = [1]
       ∧ res_exceptionError r = None
       ∧ res_steps r =
           [ {| step_pc := 0; step_op := Byte.x21; step_name := "TEST";
                step_gasLeft := rc_gasLimit opts - 366;
                step_depth := rc_depth opts;
                step_stackSnapshot := [] |} ].
Proof.
  intros Hcode Hgas evm. unfold totalFee, fee, logicFee in Hgas.
  unfold runCode, interpreterRun.
  unfold interpreterStep at 1.
  replace (code (initialRunState opts) !! pc (initialRunState opts))
    with (Some Byte.x21) by (simpl; by rewrite Hcode).
  unfold evm. rewrite lookupOpcode_test.
  cbn [minStack maxStack baseFee gasFn logicFn name].
  replace (isStatic (initialRunState opts)
           && isStateMutating _ (initialRunState opts)) with false
    by (unfold isStateMutating; cbn [name]; simpl; by rewrite andb_false_r).
  cbn [initialRunState stack gasLeft length Nat.ltb Nat.leb Nat.sub Nat.add STACK_LIMIT].
  unfold fee, logicFee.
  destruct (Z.ltb_spec (rc_gasLimit opts) (333 + 33)); [lia|].
  simpl. unfold interpreterStep. simpl. rewrite Hcode. simpl.
  eexists. split; [reflexivity|]. simpl.
  repeat split; try done. lia.
Qed.

(** C8: an EVM built with a custom entry that has only an opcode byte has
    that slot deleted; code made of that byte halts with the error
    [invalid opcode] and uses the whole gas limit. *)
Theorem deleted_opcode_is_invalid (op : byte) (opts : RunCodeOpts) (fuel : nat) :
  let evm := (EVM_create (mkEVMOpts hardfork [DeleteOpcode op]) shared).1 in
  lookupOpcode (_opcodes evm) op = None
  ∧ (rc_code opts = [op] →
     ∃ r, runCode (S fuel) evm opts = Some r
          ∧ res_executionGasUsed r = rc_gasLimit opts
          ∧ (ERROR_value ∘ error) <$> res_exceptionError r = Some "invalid opcode"
          ∧ res_returnValue r = []
          ∧ res_steps r = []).
Proof.
  intros evm. split; [apply lookupOpcode_deleted|].
  intros Hcode. unfold runCode, interpreterRun, interpreterStep.
  replace (code (initialRunState opts) !! pc (initialRunState opts))
    with (Some op) by (simpl; by rewrite Hcode).
  unfold evm. rewrite lookupOpcode_deleted. simpl.
  eexists. split; [reflexivity|]. simpl.
  repeat split; try done. lia.
Qed.
End OpcodeTableProperties.

Lemma custom_opcode_gas_and_logic_witness :
  ∃ r, runCode 2 (EVM_create (mkEVMOpts "london" [testOpcode Byte.x21])
                             (mkShared (fun _ => ∅))).1
               (testRunOpts [Byte.x21]) = Some r
       ∧ res_executionGasUsed r = 366
       ∧ stack (res_runState r) = [1]
       ∧ (step_name <$> res_steps r) = ["TEST"].
Proof.
  destruct (custom_opcode_gas_and_logic (mkShared (fun _ => ∅)) "london"
              (testRunOpts [Byte.x21]) 0) as (r & Hr & Hgas & Hstack & _ & Hsteps).
  - reflexivity.
  - unfold totalFee, fee, logicFee. simpl. lia.
  - exists r. rewrite Hsteps. auto.
Defined.

Lemma deleted_opcode_is_invalid_witness :
  ∃ r, runCode 1 (EVM_create (mkEVMOpts "london" [DeleteOpcode Byte.x20])
                             (mkShared (fun _ => ∅))).1
               (testRunOpts [Byte.x20]) = Some r
       ∧ res_executionGasUsed r = 123456
       ∧ (ERROR_value ∘ error) <$> res_exceptionError r = Some "invalid opcode".
Proof.
  destruct (deleted_opcode_is_invalid (mkShared (fun _ => ∅)) "london" Byte.x20
              (testRunOpts [Byte.x20]) 0) as (_ & Hrun).
  destruct (Hrun eq_refl) as (r & Hr & Hgas & Herr & _).
  exists r. auto.
Defined.

(** ** Isolation of the default opcode table *)

Lemma interpreterRun_step fuel t rs events rs' ev :
  interpreterStep t rs = (rs', ev) → haltReason rs' = None →
  interpreterRun (S fuel) t rs events = interpreterRun fuel t rs' (events ++ ev).
Proof. intros Hs Hh. simpl. by rewrite Hs, Hh. Qed.

Lemma interpreterRun_halt fuel t rs events rs' ev r :
  interpreterStep t rs = (rs', ev) → haltReason rs' = Some r →
  interpreterRun (S fuel) t rs events = Some (rs', events ++ ev).
Proof. intros Hs Hh. simpl. by rewrite Hs, Hh. Qed.

Ltac charge :=
  match goal with
  | |- context [ Z.ltb ?g ?c ] => destruct (Z.ltb_spec g c); [lia|]
  end.

Ltac mem_charge :=
  repeat match goal with
  | |- context [Memory_expansionCharge ?a ?b ?c] =>
      let v := eval vm_compute in (Memory_expansionCharge a b c) in
      replace (Memory_expansionCharge a b c) with v by (vm_compute; reflexivity)
  end.

Ltac exec_opcode Hlk H :=
  unfold interpreterStep; cbn; rewrite Hlk, H; cbn; rewrite ?andb_false_r;
  mem_charge; charge; cbn; reflexivity.

Ltac exec_step Hlk H :=
  erewrite interpreterRun_step; [ | exec_opcode Hlk H | reflexivity ].

Section DefaultIsolation.
Variable shared : Shared.
Variable hardfork : string.
Variable common : Common.

Local Opaque Memory_expansionCharge Memory_resize Memory_write Memory_read
  word32 wrap256.

(** C9: the construction of an EVM leaves the shared default table as it
    is, whatever its custom opcodes are; in an EVM built afterwards with
    no custom opcodes every lookup is the lookup in the defaults. So when
    the defaults hold ADD, PUSH1, MSTORE and RETURN, and the gas suffices,
    the code 60046001016000526001601FF3 run on that EVM returns 0x05,
    although an EVM that deletes opcode 0x01 was built before. *)
Theorem default_opcodes_not_overridden (optsA : EVMOpts) (opts : RunCodeOpts)
    (fuel : nat) :
  DEFAULTS shared hardfork !! Byte.x01 = Some (op_ADD common) →
  DEFAULTS shared hardfork !! Byte.x60 = Some (op_PUSH1 common) →
  DEFAULTS shared hardfork !! Byte.x52 = Some (op_MSTORE common) →
  DEFAULTS shared hardfork !! Byte.xf3 = Some (op_RETURN common) →
  0 ≤ param common "gasPrices" "push" →
  0 ≤ param common "gasPrices" "add" →
  0 ≤ param common "gasPrices" "mstore" →
  0 ≤ param common "gasPrices" "return" →
  rc_code opts = addCode →
  5 * param common "gasPrices" "push" + param common "gasPrices" "add"
    + param common "gasPrices" "mstore" + 3 + param common "gasPrices" "return"
    ≤ rc_gasLimit opts →
  let evmA := (EVM_create optsA shared).1 in
  let shared1 := (EVM_create optsA shared).2 in
  let evmB := (EVM_create (mkEVMOpts hardfork []) shared1).1 in
  let shared2 := (EVM_create (mkEVMOpts hardfork []) shared1).2 in
  shared1 = shared ∧ shared2 = shared
  ∧ (opts_customOpcodes optsA = [DeleteOpcode Byte.x01] →
     lookupOpcode (_opcodes evmA) Byte.x01 = None)
  ∧ (∀ op, lookupOpcode (_opcodes evmB) op = DEFAULTS shared hardfork !! op)
  ∧ ∃ r, runCode (8 + fuel) evmB opts = Some r
         ∧ res_returnValue r = [Byte.x05]
         ∧ res_exceptionError r = None.
Proof.
  intros HADD HPUSH1 HMSTORE HRETURN Hp Ha Hm Hr Hcode Hgas evmA shared1 evmB shared2.
  split; [reflexivity|]. split; [reflexivity|].
  split.
  { intros HA. unfold evmA, lookupOpcode, EVM_create. cbn [fst _opcodes overlay].
    rewrite HA. unfold buildOverlay. simpl. by rewrite lookup_insert_eq. }
  assert (Hlk : ∀ op, lookupOpcode (_opcodes evmB) op = DEFAULTS shared hardfork !! op).
  { intros op. apply lookupOpcode_default_evm. }
  split; [exact Hlk|].
  unfold runCode. generalize (_opcodes evmB) Hlk. clear evmB shared2 Hlk. intros t Hlk.
  change (8 + fuel)%nat with (S (S (S (S (S (S (S (S fuel)))))))).
  destruct opts as [code data gl caller addr value depth static].
  simpl in Hcode, Hgas. subst code.
  unfold initialRunState.
  cbn [rc_code rc_data rc_gasLimit rc_caller rc_address rc_value rc_depth rc_isStatic].
  exec_step Hlk HPUSH1.
  exec_step Hlk HPUSH1.
  exec_step Hlk HADD.
  exec_step Hlk HPUSH1.
  exec_step Hlk HMSTORE.
  exec_step Hlk HPUSH1.
  exec_step Hlk HPUSH1.
  erewrite interpreterRun_halt; [ | exec_opcode Hlk HRETURN | reflexivity ].
  eexists. split; [reflexivity|]. cbn.
  split; [vm_compute; reflexivity|]. reflexivity.
Qed.
End DefaultIsolation.

Lemma default_opcodes_not_overridden_witness :
  let evmA := (EVM_create (mkEVMOpts "london" [DeleteOpcode Byte.x01]) testShared).1 in
  let shared1 := (EVM_create (mkEVMOpts "london" [DeleteOpcode Byte.x01]) testShared).2 in
  let evmB := (EVM_create (mkEVMOpts "london" []) shared1).1 in
  lookupOpcode (_opcodes evmA) Byte.x01 = None
  ∧ ∃ r, runCode 8 evmB (testRunOpts addCode) = Some r
         ∧ res_returnValue r = [Byte.x05].
Proof.
  intros evmA shared1 evmB.
  destruct (default_opcodes_not_overridden testShared "london" testCommon
              (mkEVMOpts "london" [DeleteOpcode Byte.x01]) (testRunOpts addCode) 0)
    as (_ & _ & HA & _ & r & Hr & Hret & _);
    try reflexivity; try (simpl; lia).
  split; [exact (HA eq_refl)|]. exists r. split; [exact Hr | exact Hret].
Defined.

(** ** The receipt store *)

Section ReceiptStoreProperties.
Context `{!Externals}.
Variable this : ReceiptsManager.

(** *** Lookups that find nothing *)

(** C10: [getReceiptByTxHash] returns null, without raising an error and
    without touching the database, when there is no tx-hash index for the
    hash, and also when the index resolves to a block hash under which no
    receipts are stored. *)
Theorem getReceiptByTxHash_not_found (txHash : Buffer) (db : MetaDB) :
  db !! (DBKey_TxHash, txHash) = None
  ∨ (∃ encoded blockHash txIndex,
       db !! (DBKey_TxHash, txHash) = Some encoded
       ∧ rlpDecodeTxHash encoded = Ok (blockHash, txIndex)
       ∧ db !! (DBKey_Receipts, blockHash) = None) →
  getReceiptByTxHash this txHash db = (db, Ok None).
Proof.
  intros [Hnone | (encoded & blockHash & txIndex & Hix & Hdec & Hrec)];
    unfold getReceiptByTxHash, getIndex, getReceipts, bind, get, lift, ret.
  - by rewrite Hnone.
  - rewrite Hix, Hdec. simpl. by rewrite Hrec.
Qed.

(** *** Reading leaves the database as it is *)

Lemma getReceipts_db (blockHash : Buffer) (calcBloom includeTxType : bool) (db : MetaDB) :
  (getReceipts this blockHash calcBloom includeTxType db).1 = db.
Proof.
  unfold getReceipts, bind, get, lift, ret.
  destruct (db !! (DBKey_Receipts, blockHash)); [|done].
  destruct (rlpDecodeReceipts _); [|done].
  destruct includeTxType; [|done].
  by destruct (chain_getBlock _ _).
Qed.

Lemma blockLogs_db (addresses : option (list Buffer)) (topics : list TopicFilter)
    (i : Z) (db : MetaDB) :
  (blockLogs this addresses topics i db).1 = db.
Proof.
  unfold blockLogs, bind, lift, ret.
  destruct (chain_getBlock _ _) as [block|]; [|done].
  pose proof (getReceipts_db (block_hash block) false false db) as Hdb.
  destruct (getReceipts this (block_hash block) false false db) as [db' [receipts|]];
    simpl in Hdb; subst db'; [|done].
  destruct (length receipts =? 0)%nat; [done|].
  by destruct (filterLogs _ _ _).
Qed.

Lemma getLogs_loop_db (addresses : option (list Buffer)) (topics : list TopicFilter)
    (n : nat) (i : Z) (acc : list GetLogsEntry) (size : Z) (db : MetaDB) :
  (getLogs_loop this addresses topics n i acc size db).1 = db.
Proof.
  revert i acc size. induction n as [|n IH]; intros i acc size; [done|].
  simpl. unfold bind.
  pose proof (blockLogs_db addresses topics i db) as Hdb.
  destruct (blockLogs this addresses topics i db) as [db' [[logs|]|]];
    simpl in Hdb; subst db'; [| apply IH | done].
  match goal with |- context [if ?c then _ else _] => destruct c end; [done | apply IH].
Qed.

Lemma getLogs_db (from to : Block) (addresses : option (list Buffer))
    (topics : list TopicFilter) (db : MetaDB) :
  (getLogs this from to addresses topics db).1 = db.
Proof. apply getLogs_loop_db. Qed.

(** The callback of the topics filter only ever looks at the first entry
    of the filter. *)
Lemma topicsCallback_first (topic : TopicFilter) (rest : list TopicFilter)
    (l : GetLogsEntry) :
  topicsCallback (topic :: rest) l = topicIteration l 0 topic.
Proof. reflexivity. Qed.

(** *** The tx-hash index *)

Lemma updateIndex_Delete_run (txs : list TypedTransaction) (db : MetaDB) :
  ∃ db', forM_ txs (fun tx => delete DBKey_TxHash (tx_hash tx)) db = (db', Ok tt)
         ∧ (∀ tx, tx ∈ txs → db' !! (DBKey_TxHash, tx_hash tx) = None)
         ∧ (∀ k, (∀ tx, tx ∈ txs → k ≠ (DBKey_TxHash, tx_hash tx)) → db' !! k = db !! k).
Proof.
  revert db. induction txs as [|tx txs IH]; intros db.
  - exists db. split; [done|]. split; [|done]. intros tx Htx. by apply elem_of_nil in Htx.
  - destruct (IH (base.delete (DBKey_TxHash, tx_hash tx) db)) as (db' & Hrun & Hdel & Hkeep).
    exists db'. split.
    { simpl. unfold bind, delete at 1. exact Hrun. }
    split.
    + intros tx' Htx'. apply elem_of_cons in Htx' as [-> | Hin]; [|by apply Hdel].
      destruct (decide (tx_hash tx ∈ tx_hash <$> txs)) as [Hin|Hnin].
      * apply list_elem_of_fmap in Hin as (tx'' & Heq & Hin''). rewrite Heq. by apply Hdel.
      * rewrite Hkeep; [apply lookup_delete_eq|].
        intros tx'' Hin'' [=Heq]. apply Hnin. rewrite Heq.
        apply list_elem_of_fmap. eauto.
    + intros k Hk. rewrite Hkeep.
      * apply lookup_delete_ne. intros <-.
        apply (Hk tx); [apply elem_of_cons; by left | done].
      * intros tx' Hin. apply Hk. apply elem_of_cons. by right.
Qed.

Lemma saveTxHashIndex_run (block : Block) (txs : list TypedTransaction)
    (g : nat → nat) (db : MetaDB) :
  (∀ i tx, txs !! i = Some tx →
     ∃ e, rlpEncode RlpType_TxHash (VTxHash (block_hash block, Z.of_nat (g i))) = Ok e) →
  ∃ db', forM_ (imap (fun i tx => (g i, tx)) txs) (saveTxHashIndex block) db = (db', Ok tt)
         ∧ (∀ i tx, txs !! i = Some tx →
              (∀ j tx', (i < j)%nat → txs !! j = Some tx' → tx_hash tx' ≠ tx_hash tx) →
              ∃ e, rlpEncode RlpType_TxHash (VTxHash (block_hash block, Z.of_nat (g i))) = Ok e
                   ∧ db' !! (DBKey_TxHash, tx_hash tx) = Some e)
         ∧ (∀ k, (∀ tx, tx ∈ txs → k ≠ (DBKey_TxHash, tx_hash tx)) → db' !! k = db !! k).
Proof.
  revert g db. induction txs as [|tx txs IH]; intros g db Henc.
  - exists db. split; [done|]. split; [|done]. intros i tx Hi. by rewrite lookup_nil in Hi.
  - destruct (Henc 0%nat tx eq_refl) as (e & He).
    destruct (IH (g ∘ S) (<[(DBKey_TxHash, tx_hash tx) := e]> db)) as (db' & Hrun & Hput & Hkeep).
    { intros i tx' Hi. apply (Henc (S i) tx' Hi). }
    exists db'. split.
    { simpl. unfold bind at 1. unfold saveTxHashIndex at 1. unfold bind at 1, lift at 1.
      rewrite He. unfold put at 1. exact Hrun. }
    split.
    + intros [|i] tx' Hi Hlater.
      * injection Hi as <-. exists e. split; [done|].
        rewrite Hkeep; [apply lookup_insert_eq|].
        intros tx'' Hin'' [=Heq]. apply list_elem_of_lookup in Hin'' as (j & Hj).
        by apply (Hlater (S j) tx''); [lia| |].
      * apply (Hput i tx' Hi). intros j tx'' Hlt Hj. apply (Hlater (S j) tx''); [lia|done].
    + intros k Hk. rewrite Hkeep.
      * apply lookup_insert_ne. intros <-.
        apply (Hk tx); [apply elem_of_cons; by left | done].
      * intros tx' Hin. apply Hk. apply elem_of_cons. by right.
Qed.

(** What [saveReceipts] leaves under the keys of the tx-hash index: no
    entry for the transactions of the block at height [h - L], and for
    transaction [i] of the saved block what [rlp] encodes
    [(block.hash, i)] to. *)
Lemma saveReceipts_tx_index_entries (block : Block) (receipts : list TxReceipt)
    (db : MetaDB) (encoded : Buffer) :
  rlpEncode RlpType_Receipts (VReceipts receipts) = Ok encoded →
  (∀ i tx, transactions block !! i = Some tx →
     ∃ e, rlpEncode RlpType_TxHash (VTxHash (block_hash block, Z.of_nat i)) = Ok e) →
  let L := config_txLookupLimit this in
  let h := headers_height (chain this) in
  let db' := (saveReceipts this block receipts db).1 in
  (saveReceipts this block receipts db).2 = Ok tt
  ∧ (0 < L → 0 ≤ h - L →
     ∀ old, chain_getBlock (chain this) (ByNumber (h - L)) = Ok old →
     ∀ tx, tx ∈ transactions old → db' !! (DBKey_TxHash, tx_hash tx) = None)
  ∧ (L = 0 ∨ h - L < header_number block →
     ∀ i tx, transactions block !! i = Some tx →
     (∀ j tx', (i < j)%nat → transactions block !! j = Some tx' →
               tx_hash tx' ≠ tx_hash tx) →
     (∀ old tx', 0 < L → 0 ≤ h - L →
                 chain_getBlock (chain this) (ByNumber (h - L)) = Ok old →
                 tx' ∈ transactions old → tx_hash tx' ≠ tx_hash tx) →
     ∃ e, rlpEncode RlpType_TxHash (VTxHash (block_hash block, Z.of_nat i)) = Ok e
          ∧ db' !! (DBKey_TxHash, tx_hash tx) = Some e).
Proof.
  intros Henc Hix L h db'.
  split; [unfold saveReceipts, bind, lift, put, void; by rewrite Henc|].
  assert (Hdb' : db' = (updateIndex this Save IndexType_TxHash block
                          (<[(DBKey_Receipts, block_hash block) := encoded]> db)).1).
  { unfold db', saveReceipts, bind, lift, put, void. by rewrite Henc. }
  clearbody db'. subst db'.
  set (db1 := <[(DBKey_Receipts, block_hash block) := encoded]> db).
  destruct (saveTxHashIndex_run block (transactions block) id db1 Hix)
    as (db2 & Hsave & Hput & Hkeep).
  change (imap (fun i tx => (id i, tx)) (transactions block))
    with (imap pair (transactions block)) in Hsave.
  unfold updateIndex. fold L h. split.
  - (* the indexes of the block at h - L are gone *)
    intros HL Hlimit old Hold tx Htx.
    destruct (updateIndex_Delete_run (transactions old) db2) as (db3 & Hrun3 & Hdel3 & _).
    destruct (updateIndex_Delete_run (transactions old) db1) as (db3' & Hrun3' & Hdel3' & _).
    unfold bind at 1.
    destruct ((L =? 0) || (h - L <? header_number block)).
    + rewrite Hsave.
      destruct (Z.ltb_spec 0 L); [|lia]. destruct (Z.ltb_spec (h - L) 0); [lia|].
      unfold bind, lift. rewrite Hold. unfold void, updateIndex_Delete.
      rewrite Hrun3. simpl. by apply Hdel3.
    + unfold ret at 1.
      destruct (Z.ltb_spec 0 L); [|lia]. destruct (Z.ltb_spec (h - L) 0); [lia|].
      unfold bind, lift. rewrite Hold. unfold void, updateIndex_Delete.
      rewrite Hrun3'. simpl. by apply Hdel3'.
  - (* the indexes of the saved block are there *)
    intros Hwithin i tx Hi Hlater Hold.
    destruct (Hput i tx Hi Hlater) as (e & He & Hlook). exists e. split; [done|].
    replace ((L =? 0) || (h - L <? header_number block)) with true; last first.
    { symmetry. apply orb_true_iff. destruct Hwithin; [left|right]; lia. }
    unfold bind at 1. rewrite Hsave.
    destruct (Z.ltb_spec 0 L) as [HL|HL]; [|done].
    destruct (Z.ltb_spec (h - L) 0) as [Hneg|Hpos]; [done|].
    unfold bind, lift.
    destruct (chain_getBlock (chain this) (ByNumber (h - L))) as [old|err] eqn:Hget; [|done].
    destruct (updateIndex_Delete_run (transactions old) db2) as (db3 & Hrun3 & _ & Hkeep3).
    unfold void, updateIndex_Delete. rewrite Hrun3. simpl.
    rewrite Hkeep3; [done|].
    intros tx' Hin' [=Heq]. by apply (Hold old tx' HL Hpos eq_refl Hin').
Qed.

End ReceiptStoreProperties.

(** *** The statements on that chain *)

Lemma getReceiptByTxHash_not_found_witness :
  getReceiptByTxHash (H := refExternals) (testManager 0 11) (tx_hash tx0) ∅ = (∅, Ok None)
  ∧ getReceiptByTxHash (H := refExternals) (testManager 0 11) (tx_hash tx0)
      (base.delete (DBKey_Receipts, block_hash block11) (testDB 0))
    = (base.delete (DBKey_Receipts, block_hash block11) (testDB 0), Ok None).
Proof.
  split.
  - apply (getReceiptByTxHash_not_found (H := refExternals)). left. reflexivity.
  - apply (getReceiptByTxHash_not_found (H := refExternals)). right.
    eexists _, (block_hash block11), 0. split; [vm_compute; reflexivity|].
    split; [vm_compute; reflexivity|]. vm_compute; reflexivity.
Defined.

(** C1, on the code: with the topics filter [[null, T2]], [getLogs] keeps a
    log whose topics are [[T1, T3]], although its second topic is not [T2].
    The callback of the filter returns from within the first turn of its
    loop, so whatever the filter, only its position 0 is ever compared. *)
Theorem getLogs_topics_only_first_position :
  getLogs (H := refExternals) (testManager 0 12) block11 block12 None
    [TopicNull; TopicOne T2] (testDB 0)
  = (testDB 0,
     Ok [ mkEntry log0 block11 (Some tx0) 0 0; mkEntry log1 block11 (Some tx1) 1 1 ])
  ∧ log_topics log1 !! 1%nat = Some T3
  ∧ T3 ≠ T2
  ∧ (∀ topic rest l, topicsCallback (topic :: rest) l = topicIteration l 0 topic).
Proof.
  split.
  - rewrite (surjective_pairing (getLogs _ _ _ _ _ _)).
    rewrite getLogs_db. f_equal; vm_compute; reflexivity.
  - split; [reflexivity|]. split; [vm_compute; discriminate|].
    intros topic rest l. apply topicsCallback_first.
Qed.

(** ** Big-endian integers *)

Lemma byteVal_bounds (b : byte) : 0 ≤ byteVal b < 256.
Proof. unfold byteVal. pose proof (Byte.to_N_bounded b). lia. Qed.

Lemma byteVal_byteOf (z : Z) : byteVal (byteOf z) = z mod 256.
Proof.
  unfold byteVal, byteOf. pose proof (Z.mod_pos_bound z 256 ltac:(lia)) as Hb.
  destruct (Byte.of_N (Z.to_N (z mod 256))) as [b|] eqn:Hof.
  - apply Byte.to_of_N in Hof. rewrite Hof. lia.
  - apply Byte.of_N_None_iff in Hof. lia.
Qed.

Lemma bufferToBigInt_snoc (l : Buffer) (b : byte) :
  bufferToBigInt (l ++ [b]) = bufferToBigInt l * 256 + byteVal b.
Proof. unfold bufferToBigInt. by rewrite fold_left_app. Qed.

Lemma bigEndian_aux_app (fuel : nat) (n : Z) (acc : Buffer) :
  bigEndian_aux fuel n acc = bigEndian_aux fuel n [] ++ acc.
Proof.
  revert n acc. induction fuel as [|fuel IH]; intros n acc; simpl; [done|].
  destruct (n <=? 0); [done|].
  rewrite (IH _ (_ :: acc)), (IH _ [_]). by rewrite <- app_assoc.
Qed.

Lemma bigEndian_aux_zero (fuel : nat) (n : Z) : n ≤ 0 → bigEndian_aux fuel n [] = [].
Proof. intros Hn. destruct fuel; simpl; [done|]. by destruct (Z.leb_spec n 0); [|lia]. Qed.

Lemma bigEndian_aux_decode (fuel : nat) (n : Z) :
  0 ≤ n < 256 ^ Z.of_nat fuel → bufferToBigInt (bigEndian_aux fuel n []) = n.
Proof.
  revert n. induction fuel as [|fuel IH]; intros n Hn.
  - simpl in *. unfold bufferToBigInt. simpl. lia.
  - simpl. destruct (Z.leb_spec n 0) as [Hle|Hgt].
    + unfold bufferToBigInt. simpl. lia.
    + rewrite bigEndian_aux_app, bufferToBigInt_snoc, byteVal_byteOf.
      rewrite Z.mod_mod by lia.
      rewrite Nat2Z.inj_succ, Z.pow_succ_r in Hn by lia.
      rewrite IH.
      * pose proof (Z.div_mod n 256 ltac:(lia)). lia.
      * split; [apply Z.div_pos; lia|]. apply Z.div_lt_upper_bound; lia.
Qed.

Lemma bigEndian_aux_length (fuel : nat) (k : nat) (n : Z) :
  0 ≤ n < 256 ^ Z.of_nat k → (length (bigEndian_aux fuel n []) ≤ k)%nat.
Proof.
  revert k n. induction fuel as [|fuel IH]; intros k n Hn; simpl; [lia|].
  destruct (Z.leb_spec n 0) as [Hle|Hgt]; [simpl; lia|].
  rewrite bigEndian_aux_app, length_app. simpl.
  destruct k as [|k]; [simpl in Hn; lia|].
  rewrite Nat2Z.inj_succ, Z.pow_succ_r in Hn by lia.
  specialize (IH k (n / 256)).
  assert (0 ≤ n / 256 < 256 ^ Z.of_nat k).
  { split; [apply Z.div_pos; lia|]. apply Z.div_lt_upper_bound; lia. }
  specialize (IH ltac:(done)). lia.
Qed.

Lemma bigEndian_aux_head (fuel : nat) (n : Z) :
  0 < n < 256 ^ Z.of_nat fuel →
  ∃ b l, bigEndian_aux fuel n [] = b :: l ∧ byteVal b ≠ 0.
Proof.
  revert n. induction fuel as [|fuel IH]; intros n Hn; [simpl in Hn; lia|].
  simpl. destruct (Z.leb_spec n 0) as [Hle|Hgt]; [lia|].
  rewrite bigEndian_aux_app.
  rewrite Nat2Z.inj_succ, Z.pow_succ_r in Hn by lia.
  destruct (Z.eq_dec (n / 256) 0) as [Hz|Hnz].
  - rewrite Hz, bigEndian_aux_zero by lia. simpl. eexists _, _. split; [done|].
    rewrite byteVal_byteOf, Z.mod_mod by lia.
    pose proof (Z.div_mod n 256 ltac:(lia)). clear Hn. lia.
  - destruct (IH (n / 256)) as (b & l & Hbl & Hb).
    { assert (0 ≤ n / 256) by (apply Z.div_pos; lia).
      split; [lia|]. apply Z.div_lt_upper_bound; lia. }
    rewrite Hbl. simpl. eauto.
Qed.

Lemma bigEndian_fuel (n : Z) : 0 < n → n < 256 ^ Z.of_nat (S (Z.to_nat (Z.log2 n))).
Proof.
  intros Hn. pose proof (Z.log2_spec n Hn) as [_ Hlt]. pose proof (Z.log2_nonneg n).
  rewrite Nat2Z.inj_succ, Z2Nat.id by lia.
  eapply Z.lt_le_trans; [exact Hlt|].
  apply Z.pow_le_mono_l. lia.
Qed.

Lemma bigEndian_decode (n : Z) : 0 < n → bufferToBigInt (bigEndian n) = n.
Proof.
  intros Hn. apply bigEndian_aux_decode. pose proof (bigEndian_fuel n Hn). lia.
Qed.

Lemma bigEndian_length (n : Z) (k : nat) :
  0 ≤ n < 256 ^ Z.of_nat k → (length (bigEndian n) ≤ k)%nat.
Proof. apply bigEndian_aux_length. Qed.

Lemma bigEndian_head (n : Z) :
  0 < n → ∃ b l, bigEndian n = b :: l ∧ byteVal b ≠ 0.
Proof.
  intros Hn. apply bigEndian_aux_head. pose proof (bigEndian_fuel n Hn). lia.
Qed.

Lemma bigIntToBuffer_roundtrip (n : Z) (b : Buffer) :
  bigIntToBuffer n = Ok b → bufferToBigInt b = n.
Proof.
  unfold bigIntToBuffer. destruct (Z.ltb_spec n 0); [done|].
  destruct (Z.eqb_spec n 0) as [->|Hne]; intros [= <-]; [done|].
  apply bigEndian_decode. lia.
Qed.

Lemma intToBuffer_roundtrip (n : Z) (b : Buffer) :
  intToBuffer n = Ok b → bufferToInt b = Ok n ∧ (length b ≤ 7)%nat.
Proof.
  unfold intToBuffer, bufferToInt.
  destruct (isSafeInteger n) eqn:Hsafe; simpl; [|done].
  destruct (Z.ltb_spec n 0); [done|].
  assert (Hmax : n ≤ MAX_SAFE_INTEGER).
  { unfold isSafeInteger in Hsafe. apply andb_true_iff in Hsafe as [_ Hle]. lia. }
  destruct (Z.eqb_spec n 0) as [->|Hne]; intros [= <-].
  - split; [done | simpl; lia].
  - rewrite bigEndian_decode by lia. rewrite Hsafe. split; [done|].
    apply bigEndian_length. unfold MAX_SAFE_INTEGER in Hmax. simpl. lia.
Qed.

(** ** Round trip of the storage encodings *)

Section RoundTrip.
Context `{!Externals}.
Hypothesis RLP_roundtrip : ∀ x b, RLP_encode x = Ok b → RLP_decode b = Ok x.

Lemma asLog_rlpOfLog (l : Log) : asLog (rlpOfLog l) = Ok l.
Proof.
  destruct l as [[address topics] data]. unfold rlpOfLog, asLog.
  cbn [log_address log_topics log_data fst snd].
  rewrite (mapM_Forall2 asBuffer (map RlpBytes topics) topics); [done|].
  induction topics as [|t ts IH]; simpl; [constructor|].
  constructor; [done | exact IH].
Qed.

Lemma rlp_Logs_roundtrip (ls : list Log) (b : Buffer) :
  rlp_Logs_encode ls = Ok b → rlp_Logs_decode b = Ok ls.
Proof.
  unfold rlp_Logs_encode, rlp_Logs_decode. intros Henc.
  rewrite (RLP_roundtrip _ _ Henc). simpl.
  apply mapM_Forall2. clear Henc.
  induction ls as [|l ls IH]; simpl; [constructor|].
  constructor; [apply asLog_rlpOfLog | exact IH].
Qed.

Lemma receipt_roundtrip (r : TxReceipt) (item : RlpInput) :
  wfReceipt r → rlpOfReceipt r = Ok item →
  ∃ fields, asRlpReceipt item = Ok fields
            ∧ receiptOfRlp fields = Ok (storedReceipt r).
Proof.
  intros [Hfirst Hgas]. unfold rlpOfReceipt. intros Henc.
  apply rbind_Ok_inv in Henc as (first & Hf & Henc).
  apply rbind_Ok_inv in Henc as (gasUsed & Hg & Henc).
  apply rbind_Ok_inv in Henc as (encodedLogs & Hl & [= <-]).
  exists (first, gasUsed, encodedLogs). split; [done|].
  unfold receiptOfRlp. rewrite (rlp_Logs_roundtrip _ _ Hl). simpl.
  rewrite (bigIntToBuffer_roundtrip _ _ Hg). unfold storedReceipt.
  destruct (postStateOrStatus r) as [root|code].
  - injection Hf as <-. rewrite Hfirst. by rewrite Nat.eqb_refl.
  - apply intToBuffer_roundtrip in Hf as [Hint Hlen].
    destruct (Nat.eqb_spec (length first) 32) as [Heq|_]; [lia|].
    by rewrite Hint.
Qed.

Lemma receipts_roundtrip (receipts : list TxReceipt) (items : list RlpInput) :
  Forall wfReceipt receipts → mapM rlpOfReceipt receipts = Ok items →
  ∃ decoded, mapM asRlpReceipt items = Ok decoded
             ∧ mapM receiptOfRlp decoded = Ok (map storedReceipt receipts).
Proof.
  intros Hwf Henc. apply mapM_Ok_inv in Henc.
  induction Henc as [|r item rs items Hr _ IH].
  - by exists [].
  - apply Forall_cons in Hwf as [Hwf Hwfs].
    destruct (receipt_roundtrip r item Hwf Hr) as (fields & Has & Hdec).
    destruct (IH Hwfs) as (decoded & Hass & Hdecs).
    exists (fields :: decoded). simpl. by rewrite Has, Hass, Hdec, Hdecs.
Qed.

Lemma storedReceipt_id (r : TxReceipt) :
  bitvector r = None → txType r = None → storedReceipt r = r.
Proof. destruct r. simpl. by intros -> ->. Qed.

Lemma rlp_decode_stored (receipts : list TxReceipt) (encoded : Buffer) :
  Forall wfReceipt receipts →
  rlp Encode RlpType_Receipts (VReceipts receipts) = Ok (VBuffer encoded) →
  rlp Decode RlpType_Receipts (VBuffer encoded)
    = Ok (VReceipts (map storedReceipt receipts)).
Proof.
  intros Hwf Henc.
  simpl in Henc. apply rbind_Ok_inv in Henc as (items & Hitems & Henc).
  apply rbind_Ok_inv in Henc as (enc & Henc & [= <-]).
  simpl. rewrite (RLP_roundtrip _ _ Henc). simpl.
  destruct (receipts_roundtrip receipts items Hwf Hitems) as (decoded & Has & Hdec).
  by rewrite Has; simpl; rewrite Hdec.
Qed.

Lemma rlpEncode_Receipts_inv (receipts : list TxReceipt) (encoded : Buffer) :
  rlpEncode RlpType_Receipts (VReceipts receipts) = Ok encoded →
  rlp Encode RlpType_Receipts (VReceipts receipts) = Ok (VBuffer encoded).
Proof.
  unfold rlpEncode. intros Henc. apply rbind_Ok_inv in Henc as (out & Hout & Hb).
  rewrite Hout. simpl in Hout.
  apply rbind_Ok_inv in Hout as (items & _ & Hout).
  apply rbind_Ok_inv in Hout as (enc & _ & [= <-]). by injection Hb as <-.
Qed.

Lemma txHash_roundtrip (blockHash : Buffer) (i : Z) (e : Buffer) :
  rlpEncode RlpType_TxHash (VTxHash (blockHash, i)) = Ok e →
  rlpDecodeTxHash e = Ok (blockHash, i).
Proof.
  unfold rlpEncode, rlpDecodeTxHash. simpl. intros Henc.
  apply rbind_Ok_inv in Henc as (out & Hout & Hb).
  apply rbind_Ok_inv in Hout as (ix & Hix & Hout).
  apply rbind_Ok_inv in Hout as (enc & Henc & [= <-]). injection Hb as <-.
  rewrite (RLP_roundtrip _ _ Henc). simpl.
  apply intToBuffer_roundtrip in Hix as [-> _]. done.
Qed.

(** C4: when the RLP codec decodes what it encoded, the [rlp] decoding of
    the [rlp] encoding of a list of well-formed receipts (a 32-byte state
    root or a status integer each) is that list, as it is stored: without
    the annotations, which are not encoded, so the very list when it
    carries none. Each decoded receipt is pre-Byzantium exactly when its
    decoded first field has 32 bytes. *)
Theorem rlp_receipts_roundtrip (receipts : list TxReceipt) (encoded : Buffer) :
  Forall wfReceipt receipts →
  rlp Encode RlpType_Receipts (VReceipts receipts) = Ok (VBuffer encoded) →
  rlp Decode RlpType_Receipts (VBuffer encoded)
    = Ok (VReceipts (map storedReceipt receipts))
  ∧ (Forall (fun r => bitvector r = None ∧ txType r = None) receipts →
     rlp Decode RlpType_Receipts (VBuffer encoded) = Ok (VReceipts receipts))
  ∧ (∀ first gasUsed encodedLogs r,
       receiptOfRlp (first, gasUsed, encodedLogs) = Ok r →
       if (length first =? 32)%nat
       then postStateOrStatus r = stateRoot first
       else ∃ code, bufferToInt first = Ok code ∧ postStateOrStatus r = status code).
Proof.
  intros Hwf Henc.
  pose proof (rlp_decode_stored receipts encoded Hwf Henc) as Hdec.
  split; [exact Hdec|]. split.
  - intros Hplain. rewrite Hdec. do 2 f_equal. clear -Hplain.
    induction Hplain as [|r rs [Hb Ht] _ IH]; simpl; [done|].
    by rewrite storedReceipt_id, IH.
  - intros first gasUsed encodedLogs r. unfold receiptOfRlp.
    destruct (rlp_Logs_decode encodedLogs) as [ls|]; simpl; [|done].
    destruct (length first =? 32)%nat.
    + by intros [= <-].
    + destruct (bufferToInt first) as [code|]; simpl; [|done].
      intros [= <-]. eauto.
Qed.

(** *** Saving, then looking up by transaction hash *)

Variable this : ReceiptsManager.

Lemma forM__preserves {A} (xs : list A) (body : A → M unit) (P : MetaDB → Prop) :
  (∀ x db, P db → P (body x db).1) → ∀ db, P db → P (forM_ xs body db).1.
Proof.
  intros Hbody. induction xs as [|x xs IH]; intros db HP; [done|].
  simpl. unfold bind. specialize (Hbody x db HP).
  destruct (body x db) as [db1 [[]|err]]; simpl in *; [by apply IH | done].
Qed.

Lemma updateIndex_keeps_receipts (operation : IndexOperation) (block : Block)
    (db : MetaDB) (k : Buffer) :
  (updateIndex this operation IndexType_TxHash block db).1 !! (DBKey_Receipts, k)
  = db !! (DBKey_Receipts, k).
Proof.
  assert (Hdel : ∀ b d, (updateIndex_Delete b d).1 !! (DBKey_Receipts, k)
                        = d !! (DBKey_Receipts, k)).
  { intros b d. unfold updateIndex_Delete.
    apply (forM__preserves _ _ (fun d' => d' !! (DBKey_Receipts, k) = d !! (DBKey_Receipts, k)));
      [|done].
    intros tx d' Hd'. unfold delete. simpl. by rewrite lookup_delete_ne. }
  assert (Hsave : ∀ d, (forM_ (imap pair (transactions block)) (saveTxHashIndex block) d).1
                         !! (DBKey_Receipts, k) = d !! (DBKey_Receipts, k)).
  { intros d.
    apply (forM__preserves _ _ (fun d' => d' !! (DBKey_Receipts, k) = d !! (DBKey_Receipts, k)));
      [|done].
    intros [j tx] d' Hd'. unfold saveTxHashIndex, bind, lift, put.
    destruct (rlpEncode _ _); simpl; [by rewrite lookup_insert_ne | done]. }
  destruct operation; [|apply Hdel].
  unfold updateIndex, bind.
  match goal with |- context [if ?c then _ else ret tt] => destruct c end.
  - specialize (Hsave db).
    destruct (forM_ _ _ db) as [db1 [[]|err]]; simpl in Hsave; [|done].
    destruct (0 <? _); [|done]. destruct (_ <? 0); [done|].
    unfold lift. destruct (chain_getBlock _ _) as [old|]; [|done].
    unfold void. simpl. by rewrite Hdel.
  - unfold ret at 1.
    destruct (0 <? _); [|done]. destruct (_ <? 0); [done|].
    unfold lift. destruct (chain_getBlock _ _) as [old|]; [|done].
    unfold void. simpl. by rewrite Hdel.
Qed.

Lemma fold_left_logIndex (rs : list TxReceipt) (acc : Z) :
  fold_left (fun logIndex r => logIndex + Z.of_nat (length (logs r))) rs acc
  = acc + Z.of_nat (sum_list (map (fun r => length (logs r)) rs)).
Proof.
  revert acc. induction rs as [|r rs IH]; intros acc; simpl; [lia|].
  rewrite IH. lia.
Qed.

(** C3: after [saveReceipts(block, receipts)] has succeeded on well-formed
    receipts, for an index [i] into the receipts whose tx-hash index is in
    the database, [getReceiptByTxHash] of the hash of transaction [i]
    returns receipt [i] (as stored, with its logs bloom attached), the hash
    of the block, [i], and as log index the number of logs of the receipts
    before [i]. The receipt returned is receipt [i] itself when that one
    carries its logs bloom and no transaction type. *)
Theorem getReceiptByTxHash_after_saveReceipts (block : Block)
    (receipts : list TxReceipt) (db : MetaDB) (i : nat)
    (tx : TypedTransaction) (r : TxReceipt) (e : Buffer) :
  Forall wfReceipt receipts →
  (saveReceipts this block receipts db).2 = Ok tt →
  let db' := (saveReceipts this block receipts db).1 in
  transactions block !! i = Some tx →
  receipts !! i = Some r →
  rlpEncode RlpType_TxHash (VTxHash (block_hash block, Z.of_nat i)) = Ok e →
  db' !! (DBKey_TxHash, tx_hash tx) = Some e →
  getReceiptByTxHash this (tx_hash tx) db'
  = (db', Ok (Some (setBitvector (storedReceipt r), block_hash block, Z.of_nat i,
                    Z.of_nat (sum_list (map (fun r => length (logs r))
                                            (take i receipts))))))
  ∧ (bitvector r = Some (logsBloom (logs r)) → txType r = None →
     setBitvector (storedReceipt r) = r).
Proof.
  intros Hwf Hsaved db' Htx Hr He Hix. split; last first.
  { destruct r; simpl. by intros -> ->. }
  assert (∃ encoded, rlpEncode RlpType_Receipts (VReceipts receipts) = Ok encoded
                     ∧ db' !! (DBKey_Receipts, block_hash block) = Some encoded)
    as (encoded & Henc & Hrec).
  { unfold db'. clear db' Hix. unfold saveReceipts, bind, lift in *.
    destruct (rlpEncode RlpType_Receipts (VReceipts receipts)) as [encoded|]; [|done].
    exists encoded. split; [done|]. unfold put, void. cbn [fst].
    rewrite updateIndex_keeps_receipts. apply lookup_insert_eq. }
  clearbody db'.
  unfold getReceiptByTxHash, getIndex, bind, get, lift, ret.
  rewrite Hix, (txHash_roundtrip _ _ _ He).
  unfold getReceipts, bind, get, lift, ret. rewrite Hrec.
  unfold rlpDecodeReceipts.
  rewrite (rlp_decode_stored receipts encoded Hwf (rlpEncode_Receipts_inv _ _ Henc)).
  simpl. rewrite length_map.
  destruct receipts as [|r0 rs]; [by rewrite lookup_nil in Hr|].
  cbn [length Nat.eqb]. rewrite Nat2Z.id.
  rewrite list_lookup_fmap, Hr. simpl.
  change (storedReceipt r0 :: map storedReceipt rs)
    with (storedReceipt <$> (r0 :: rs)).
  rewrite fold_left_logIndex, <- fmap_take.
  assert (Hsum : ∀ l : list TxReceipt,
            sum_list (map (fun r => length (logs r)) (storedReceipt <$> l))
            = sum_list (map (fun r => length (logs r)) l)).
  { intros l. induction l as [|x l IH]; simpl; [done | f_equal; exact IH]. }
  by rewrite Hsum, Z.add_0_l.
Qed.

End RoundTrip.

(** *** What saving writes to the tx-hash index *)

Section TxIndexWritten.
Context `{!Externals}.
Variable this : ReceiptsManager.

(** C5: when the receipts and the indexes can be encoded, [saveReceipts]
    succeeds and, with [L] the configured [txLookupLimit] and [h] the height
    of the chain head: if [L > 0] and [h - L ≥ 0], no tx-hash index is left
    for any transaction of the block at height [h - L], and [getIndex]
    finds none; if [L = 0] or the number of the saved block exceeds
    [h - L], the index of each transaction [i] of the saved block holds
    the encoding of [(block.hash, i)] (for a hash that no later
    transaction of the block and no transaction of the block at [h - L]
    has as well), and with an RLP codec that decodes what it encoded that
    entry decodes to [(block.hash, i)], which is what [getIndex] returns
    for the hash of the transaction. *)
Theorem saveReceipts_updates_tx_index (block : Block) (receipts : list TxReceipt)
    (db : MetaDB) (encoded : Buffer) :
  rlpEncode RlpType_Receipts (VReceipts receipts) = Ok encoded →
  (∀ i tx, transactions block !! i = Some tx →
     ∃ e, rlpEncode RlpType_TxHash (VTxHash (block_hash block, Z.of_nat i)) = Ok e) →
  let L := config_txLookupLimit this in
  let h := headers_height (chain this) in
  let db' := (saveReceipts this block receipts db).1 in
  (saveReceipts this block receipts db).2 = Ok tt
  ∧ (0 < L → 0 ≤ h - L →
     ∀ old, chain_getBlock (chain this) (ByNumber (h - L)) = Ok old →
     ∀ tx, tx ∈ transactions old →
       db' !! (DBKey_TxHash, tx_hash tx) = None
       ∧ getIndex IndexType_TxHash (tx_hash tx) db' = (db', Ok None))
  ∧ (L = 0 ∨ h - L < header_number block →
     ∀ i tx, transactions block !! i = Some tx →
     (∀ j tx', (i < j)%nat → transactions block !! j = Some tx' →
               tx_hash tx' ≠ tx_hash tx) →
     (∀ old tx', 0 < L → 0 ≤ h - L →
                 chain_getBlock (chain this) (ByNumber (h - L)) = Ok old →
                 tx' ∈ transactions old → tx_hash tx' ≠ tx_hash tx) →
     ∃ e, rlpEncode RlpType_TxHash (VTxHash (block_hash block, Z.of_nat i)) = Ok e
          ∧ db' !! (DBKey_TxHash, tx_hash tx) = Some e
          ∧ ((∀ x b, RLP_encode x = Ok b → RLP_decode b = Ok x) →
             rlpDecodeTxHash e = Ok (block_hash block, Z.of_nat i)
             ∧ getIndex IndexType_TxHash (tx_hash tx) db'
               = (db', Ok (Some (block_hash block, Z.of_nat i))))).
Proof.
  intros Henc Hix L h db'.
  destruct (saveReceipts_tx_index_entries this block receipts db encoded Henc Hix)
    as (Hok & Hdel & Hput).
  fold L h db' in Hdel, Hput.
  split; [done|]. split.
  - intros HL Hlimit old Hold tx Htx.
    specialize (Hdel HL Hlimit old Hold tx Htx). split; [done|].
    unfold getIndex, bind, get, ret. by rewrite Hdel.
  - intros Hwithin i tx Hi Hlater Hold.
    destruct (Hput Hwithin i tx Hi Hlater Hold) as (e & He & Hlook).
    exists e. split; [done|]. split; [done|]. intros Hrlp.
    pose proof (txHash_roundtrip Hrlp _ _ _ He) as Hdec. split; [done|].
    unfold getIndex, bind, get, lift, ret. by rewrite Hlook, Hdec.
Qed.
End TxIndexWritten.

(** ** The reference RLP codec decodes what it encodes *)

Lemma decodeCost_list (l : list RlpInput) :
  decodeCost (RlpList l) = S (decodeCostItems l).
Proof. reflexivity. Qed.

Section ReferenceCodec.

Lemma concatBytes_Ok (parts : list Buffer) (out : Buffer) :
  RLP.concatBytes parts = Ok out →
  out = concat parts ∧ Z.of_nat (length out) ≤ RLP.kMaxLength.
Proof.
  unfold RLP.concatBytes. destruct (Z.ltb_spec RLP.kMaxLength (Z.of_nat (length (concat parts))));
    [done|]. intros [= <-]. done.
Qed.

Lemma byteVal_byteOf_small (z : Z) : 0 ≤ z < 256 → byteVal (byteOf z) = z.
Proof. intros Hz. rewrite byteVal_byteOf. by apply Z.mod_small. Qed.

Lemma safeSlice_app (pre mid rest : Buffer) :
  RLP.safeSlice (pre ++ mid ++ rest) (length pre) (length pre + length mid) = Ok mid.
Proof.
  unfold RLP.safeSlice. rewrite !length_app.
  destruct (Nat.ltb_spec (length pre + (length mid + length rest)) (length pre + length mid));
    [lia|].
  rewrite drop_app_length. replace (length pre + length mid - length pre)%nat
    with (length mid) by lia.
  by rewrite take_app_length.
Qed.

Lemma drop_app_app (pre mid rest : Buffer) :
  drop (length pre + length mid) (pre ++ mid ++ rest) = rest.
Proof. rewrite app_assoc, <- length_app. apply drop_app_length. Qed.

(** The prefix written by [encodeLength] for a long payload. *)
Lemma encodeLength_long (len : nat) (offset : Z) :
  (56 ≤ len)%nat → Z.of_nat len ≤ RLP.kMaxLength →
  ∃ hexLength,
    RLP.encodeLength len offset = byteOf (offset + 55 + Z.of_nat (length hexLength)) :: hexLength
    ∧ (1 ≤ length hexLength ≤ 7)%nat
    ∧ RLP.decodeLength hexLength = Ok len.
Proof.
  intros Hlen Hmax. unfold RLP.encodeLength.
  destruct (Nat.ltb_spec len 56); [lia|].
  exists (bigEndian (Z.of_nat len)). split; [done|].
  destruct (bigEndian_head (Z.of_nat len)) as (b & l & Hbl & Hb); [lia|].
  assert (Hle : (length (bigEndian (Z.of_nat len)) ≤ 7)%nat).
  { apply bigEndian_length. unfold RLP.kMaxLength in Hmax. simpl. lia. }
  split; [rewrite Hbl in *; simpl in *; lia|].
  unfold RLP.decodeLength. rewrite Hbl. destruct (Z.eqb_spec (byteVal b) 0); [done|].
  rewrite <- Hbl, bigEndian_decode by lia. by rewrite Nat2Z.id.
Qed.

Lemma safeSlice_payload (first : byte) (mid rest : Buffer) :
  RLP.safeSlice (first :: mid ++ rest) 1 (S (length mid)) = Ok mid.
Proof. apply (safeSlice_app [first] mid rest). Qed.

Lemma safeSlice_long_payload (first : byte) (hex mid rest : Buffer) :
  RLP.safeSlice (first :: hex ++ mid ++ rest) (S (length hex))
    (length mid + S (length hex)) = Ok mid.
Proof.
  replace (length mid + S (length hex))%nat
    with (length (first :: hex) + length mid)%nat by (simpl; lia).
  apply (safeSlice_app (first :: hex) mid rest).
Qed.

Lemma drop_long_payload (first : byte) (hex mid rest : Buffer) :
  drop (length mid + S (length hex)) (first :: hex ++ mid ++ rest) = rest.
Proof.
  replace (length mid + S (length hex))%nat
    with (length (first :: hex) + length mid)%nat by (simpl; lia).
  apply (drop_app_app (first :: hex) mid rest).
Qed.

Local Arguments RLP.safeSlice : simpl never.
Local Arguments RLP.decodeLength : simpl never.
Local Arguments RLP.decodeItems : simpl never.
Local Arguments byteVal : simpl never.
Local Arguments byteOf : simpl never.
Local Arguments Z.sub : simpl never.
Local Arguments Z.add : simpl never.
Local Arguments Z.to_nat : simpl never.
Local Arguments Z.of_nat : simpl never.

Lemma decode_bytes (b : Buffer) (enc : Buffer) (fuel : nat) (rest : Buffer) :
  RLP.encode (RlpBytes b) = Ok enc →
  RLP._decode (S fuel) (enc ++ rest) = Ok (RlpBytes b, rest).
Proof.
  simpl RLP.encode.
  destruct ((length b =? 1)%nat && (byteVal (b !!! 0%nat) <? 128)) eqn:Hsingle.
  - (* a single byte below 0x80 is its own encoding *)
    intros [= <-]. apply andb_true_iff in Hsingle as [Hlen Hlt].
    destruct b as [|b0 [|? ?]]; try discriminate. simpl in Hlt. simpl.
    destruct (Z.leb_spec (byteVal b0) 127); [done|]. lia.
  - intros Henc. apply concatBytes_Ok in Henc as [-> Hmax].
    simpl in Hmax. rewrite app_nil_r, length_app in Hmax.
    simpl concat. rewrite app_nil_r.
    destruct (Nat.ltb_spec (length b) 56) as [Hshort|Hlong].
    + (* a short string *)
      unfold RLP.encodeLength. destruct (Nat.ltb_spec (length b) 56); [|lia].
      simpl. rewrite byteVal_byteOf_small by lia.
      destruct (Z.leb_spec (Z.of_nat (length b) + 128) 127); [lia|].
      destruct (Z.leb_spec (Z.of_nat (length b) + 128) 183); [|lia].
      replace (Z.to_nat (Z.of_nat (length b) + 128 - 127)) with (S (length b)) by lia.
      assert (Hdata : (if Z.of_nat (length b) + 128 =? 128 then Ok []
                       else RLP.safeSlice (byteOf (Z.of_nat (length b) + 128) :: b ++ rest) 1
                              (S (length b))) = Ok b).
      { destruct (Z.eqb_spec (Z.of_nat (length b) + 128) 128) as [Hz|_].
        - destruct b; [done | simpl in Hz; lia].
        - apply (safeSlice_app [_] b rest). }
      rewrite Hdata. simpl rbind.
      rewrite Hsingle. simpl drop. by rewrite drop_app_length.
    + (* a long string *)
      destruct (encodeLength_long (length b) 128 Hlong ltac:(lia))
        as (hexLength & -> & Hhex & Hdec).
      simpl. rewrite byteVal_byteOf_small by lia.
      destruct (Z.leb_spec (128 + 55 + Z.of_nat (length hexLength)) 127); [lia|].
      destruct (Z.leb_spec (128 + 55 + Z.of_nat (length hexLength)) 183); [lia|].
      destruct (Z.leb_spec (128 + 55 + Z.of_nat (length hexLength)) 191); [|lia].
      replace (Z.to_nat (128 + 55 + Z.of_nat (length hexLength) - 182))
        with (S (length hexLength)) by lia.
      rewrite <- app_assoc, !length_app.
      match goal with
      | |- context [Nat.ltb ?x ?y] => destruct (Nat.ltb_spec x y); [lia|]
      end.
      rewrite safeSlice_payload. simpl rbind.
      rewrite Hdec. simpl rbind.
      destruct (Nat.leb_spec (length b) 55); [lia|].
      rewrite safeSlice_long_payload. simpl rbind. by rewrite drop_long_payload.
Qed.

Lemma decode_list (l : list RlpInput) (buf enc : Buffer) (fuel : nat) (rest : Buffer) :
  RLP.concatBytes [RLP.encodeLength (length buf) 192; buf] = Ok enc →
  RLP.decodeItems fuel buf = Ok l →
  RLP._decode (S fuel) (enc ++ rest) = Ok (RlpList l, rest).
Proof.
  intros Henc Hitems. apply concatBytes_Ok in Henc as [-> Hmax].
  simpl in Hmax. rewrite app_nil_r, length_app in Hmax.
  simpl concat. rewrite app_nil_r.
  destruct (Nat.ltb_spec (length buf) 56) as [Hshort|Hlong].
  - (* a short list *)
    unfold RLP.encodeLength. destruct (Nat.ltb_spec (length buf) 56); [|lia].
    simpl. rewrite byteVal_byteOf_small by lia.
    destruct (Z.leb_spec (Z.of_nat (length buf) + 192) 127); [lia|].
    destruct (Z.leb_spec (Z.of_nat (length buf) + 192) 183); [lia|].
    destruct (Z.leb_spec (Z.of_nat (length buf) + 192) 191); [lia|].
    destruct (Z.leb_spec (Z.of_nat (length buf) + 192) 247); [|lia].
    replace (Z.to_nat (Z.of_nat (length buf) + 192 - 191)) with (S (length buf)) by lia.
    rewrite safeSlice_payload. simpl rbind. rewrite Hitems. simpl.
    by rewrite drop_app_length.
  - (* a long list *)
    destruct (encodeLength_long (length buf) 192 Hlong ltac:(lia))
      as (hexLength & -> & Hhex & Hdec).
    simpl. rewrite byteVal_byteOf_small by lia.
    destruct (Z.leb_spec (192 + 55 + Z.of_nat (length hexLength)) 127); [lia|].
    destruct (Z.leb_spec (192 + 55 + Z.of_nat (length hexLength)) 183); [lia|].
    destruct (Z.leb_spec (192 + 55 + Z.of_nat (length hexLength)) 191); [lia|].
    destruct (Z.leb_spec (192 + 55 + Z.of_nat (length hexLength)) 247); [lia|].
    replace (Z.to_nat (192 + 55 + Z.of_nat (length hexLength) - 246))
      with (S (length hexLength)) by lia.
    rewrite <- app_assoc, !length_app.
    rewrite safeSlice_payload. simpl rbind.
    rewrite Hdec. simpl rbind.
    destruct (Nat.ltb_spec (length buf) 56); [lia|].
    match goal with
    | |- context [Nat.ltb ?x ?y] => destruct (Nat.ltb_spec x y); [simpl in *; lia|]
    end.
    replace (S (length hexLength + length buf))
      with (length buf + S (length hexLength))%nat by lia.
    rewrite safeSlice_long_payload. simpl rbind. rewrite Hitems. simpl rbind.
    by rewrite drop_app_app.
Qed.

Lemma encode_nonempty (x : RlpInput) (enc : Buffer) :
  RLP.encode x = Ok enc → enc ≠ [].
Proof.
  destruct x as [b|l]; simpl.
  - destruct ((length b =? 1)%nat && _) eqn:Hsingle.
    + intros [= <-]. apply andb_true_iff in Hsingle as [Hlen _]. by destruct b.
    + intros Henc. apply concatBytes_Ok in Henc as [-> _]. simpl.
      unfold RLP.encodeLength. by destruct (length b <? 56)%nat.
  - intros Henc. apply rbind_Ok_inv in Henc as (output & _ & Henc).
    apply rbind_Ok_inv in Henc as (buf & _ & Henc).
    apply concatBytes_Ok in Henc as [-> _]. simpl.
    unfold RLP.encodeLength. by destruct (length buf <? 56)%nat.
Qed.

(** Decoding what was encoded yields the item and leaves the bytes that
    follow, with any fuel that covers the item. *)
Lemma _decode_encode (x : RlpInput) :
  ∀ enc fuel rest,
    RLP.encode x = Ok enc → (decodeCost x ≤ fuel)%nat →
    RLP._decode fuel (enc ++ rest) = Ok (x, rest).
Proof.
  induction x as [b|l IH] using RlpInput_nested_ind; intros enc fuel rest Henc Hfuel.
  - destruct fuel as [|fuel]; [simpl in Hfuel; lia|]. by apply decode_bytes.
  - rewrite decodeCost_list in Hfuel.
    destruct fuel as [|fuel]; [lia|].
    simpl in Henc. apply rbind_Ok_inv in Henc as (output & Hout & Henc).
    apply rbind_Ok_inv in Henc as (buf & Hbuf & Henc).
    apply (decode_list l buf enc fuel rest Henc).
    apply concatBytes_Ok in Hbuf as [-> _].
    assert (Hf : (decodeCostItems l ≤ fuel)%nat) by lia.
    clear Henc Hfuel enc rest. revert output fuel Hout Hf.
    induction IH as [|y l Hy _ IHl]; intros output fuel Hout Hf.
    + injection Hout as <-. destruct fuel; [simpl in Hf; lia | done].
    + simpl in Hout. apply rbind_Ok_inv in Hout as (e & He & Hout).
      apply rbind_Ok_inv in Hout as (es & Hes & [= <-]).
      destruct fuel as [|fuel]; [simpl in Hf; lia|].
      simpl in Hf. simpl concat.
      pose proof (encode_nonempty y e He) as Hne.
      unfold RLP.decodeItems; fold RLP.decodeItems; fold RLP._decode.
      destruct (e ++ concat es) as [|c cs] eqn:Hcat.
      { destruct e; [done | discriminate]. }
      rewrite <- Hcat. rewrite (Hy e fuel (concat es) He) by lia.
      simpl. rewrite (IHl es fuel Hes) by lia. done.
Qed.

Lemma decodeCost_bound (x : RlpInput) :
  ∀ enc, RLP.encode x = Ok enc → (decodeCost x ≤ 2 * length enc)%nat.
Proof.
  induction x as [b|l IH] using RlpInput_nested_ind; intros enc Henc.
  - pose proof (encode_nonempty _ _ Henc). destruct enc; [done | simpl; lia].
  - rewrite decodeCost_list.
    simpl in Henc. apply rbind_Ok_inv in Henc as (output & Hout & Henc).
    apply rbind_Ok_inv in Henc as (buf & Hbuf & Henc).
    apply concatBytes_Ok in Henc as [-> _]. apply concatBytes_Ok in Hbuf as [-> _].
    simpl concat. rewrite app_nil_r, length_app.
    assert (Hprefix : (1 ≤ length (RLP.encodeLength (length (concat output)) 192))%nat).
    { unfold RLP.encodeLength. destruct (_ <? 56)%nat; simpl; lia. }
    enough (decodeCostItems l ≤ 1 + 2 * length (concat output))%nat by lia.
    clear Hprefix. revert output Hout.
    induction IH as [|y l Hy _ IHl]; intros output Hout.
    + injection Hout as <-. simpl. lia.
    + simpl in Hout. apply rbind_Ok_inv in Hout as (e & He & Hout).
      apply rbind_Ok_inv in Hout as (es & Hes & [= <-]).
      specialize (Hy e He). specialize (IHl es Hes).
      pose proof (encode_nonempty y e He) as Hne.
      simpl. rewrite length_app.
      assert (1 ≤ length e)%nat by (destruct e; [done | simpl; lia]).
      fold decodeCostItems. lia.
Qed.

(** The reference codec decodes what it encoded. *)
Lemma RLP_decode_encode (x : RlpInput) (enc : Buffer) :
  RLP.encode x = Ok enc → RLP.decode enc = Ok x.
Proof.
  intros Henc. unfold RLP.decode.
  pose proof (encode_nonempty x enc Henc) as Hne.
  pose proof (decodeCost_bound x enc Henc) as Hcost.
  destruct enc as [|c cs] eqn:Heq; [done|]. rewrite <- Heq in *.
  rewrite <- (app_nil_r enc) at 2.
  rewrite (_decode_encode x enc _ [] Henc) by lia. done.
Qed.

End ReferenceCodec.

(** *** The round trips on the small chain *)

Lemma saveReceipts_updates_tx_index_witness :
  is_Some (testDB10 1 !! (DBKey_TxHash, tx_hash tx9))
  ∧ getIndex (H := refExternals) IndexType_TxHash (tx_hash tx9) (testDB 1)
    = (testDB 1, Ok None)
  ∧ getIndex (H := refExternals) IndexType_TxHash (tx_hash tx1) (testDB 1)
    = (testDB 1, Ok (Some (block_hash block11, 1))).
Proof.
  destruct (saveReceipts_updates_tx_index (H := refExternals) (testManager 1 11)
              block11 [receipt0; receipt1] (testDB10 1)
              (default [] (match rlpEncode (H := refExternals) RlpType_Receipts
                                   (VReceipts [receipt0; receipt1]) with
                           | Ok b => Some b | Throw _ => None end)))
    as (_ & Hdel & Hput).
  - vm_compute. reflexivity.
  - intros [|[|i]] tx Hi;
      [eexists; vm_compute; reflexivity | eexists; vm_compute; reflexivity
      | discriminate Hi].
  - split; [vm_compute; eauto|]. split.
    + apply (Hdel ltac:(simpl; lia) ltac:(simpl; lia) block10 eq_refl).
      apply elem_of_cons. by left.
    + destruct (Hput ltac:(right; simpl; lia) 1%nat tx1 eq_refl) as (e & _ & _ & Hdec).
      * intros [|[|j]] tx' Hlt Hj; try lia; discriminate.
      * intros old tx' _ _ Hold Hin. simpl in Hold.
        injection Hold as <-. apply list_elem_of_singleton in Hin as ->.
        vm_compute. discriminate.
      * apply (Hdec RLP_decode_encode).
Defined.

Lemma testReceipts_wf : Forall wfReceipt [receipt0; receipt1].
Proof.
  repeat constructor; unfold wfReceipt, MAX_SAFE_INTEGER; simpl; lia.
Qed.

Lemma rlp_receipts_roundtrip_witness :
  ∃ encoded,
    rlp (H := refExternals) Encode RlpType_Receipts (VReceipts [receipt0; receipt1])
      = Ok (VBuffer encoded)
    ∧ rlp (H := refExternals) Decode RlpType_Receipts (VBuffer encoded)
      = Ok (VReceipts [receipt0; receipt1]).
Proof.
  eexists. split; [vm_compute; reflexivity|].
  refine (proj1 (rlp_receipts_roundtrip (H := refExternals) RLP_decode_encode
                   [receipt0; receipt1] _ testReceipts_wf _)).
  vm_compute. reflexivity.
Defined.

Lemma getReceiptByTxHash_after_saveReceipts_witness :
  getReceiptByTxHash (H := refExternals) (testManager 0 11) (tx_hash tx1) (testDB 0)
  = (testDB 0,
     Ok (Some (setBitvector (H := refExternals) receipt1, block_hash block11, 1, 1))).
Proof.
  refine (proj1 (getReceiptByTxHash_after_saveReceipts (H := refExternals)
                   RLP_decode_encode (testManager 0 11) block11 [receipt0; receipt1]
                   (testDB10 0) 1 tx1 receipt1
                   (default [] (match rlpEncode (H := refExternals) RlpType_TxHash
                                        (VTxHash (block_hash block11, 1)) with
                                | Ok b => Some b | Throw _ => None end))
                   testReceipts_wf _ eq_refl eq_refl _ _)).
  - vm_compute. reflexivity.
  - vm_compute. reflexivity.
  - vm_compute. reflexivity.
Defined.

(** ** The limits of a log query *)

Lemma StronglySorted_sublist {A} (R : relation A) (l k : list A) :
  l `sublist_of` k → StronglySorted R k → StronglySorted R l.
Proof.
  induction 1 as [|x l k Hsub IH|x l k Hsub IH]; intros Hk; [done| |].
  - apply StronglySorted_cons in Hk as [Hx Hk]. apply StronglySorted_cons.
    split; [|by apply IH]. apply Forall_forall. intros y Hy.
    rewrite Forall_forall in Hx. apply Hx. by eapply elem_of_sublist.
  - apply StronglySorted_cons in Hk as [_ Hk]. by apply IH.
Qed.

Lemma filter_sublist {A} (f : A → bool) (l : list A) : List.filter f l `sublist_of` l.
Proof.
  induction l as [|a l IH]; simpl; [constructor|].
  destruct (f a); by constructor.
Qed.

Lemma filterM_sublist {A} (f : A → result bool) (l l' : list A) :
  filterM f l = Ok l' → l' `sublist_of` l.
Proof.
  revert l'. induction l as [|a l IH]; intros l'; simpl.
  - intros [= <-]. constructor.
  - destruct (f a) as [keep|]; simpl; [|done].
    destruct (filterM f l) as [rest|]; simpl; [|done].
    intros [= <-]. destruct keep; constructor; by apply IH.
Qed.

Lemma filterLogs_sublist (addresses : option (list Buffer)) (topics : list TopicFilter)
    (l l' : list GetLogsEntry) :
  filterLogs addresses topics l = Ok l' → l' `sublist_of` l.
Proof.
  unfold filterLogs. intros Hf.
  assert (Haddr : match addresses with
                  | Some addresses =>
                      if (0 <? length addresses)%nat
                      then List.filter (addressMatches addresses) l else l
                  | None => l
                  end `sublist_of` l).
  { destruct addresses as [a|]; [|done].
    destruct (0 <? length a)%nat; [apply filter_sublist | done]. }
  destruct (0 <? length topics)%nat.
  - apply filterM_sublist in Hf. by etrans.
  - by injection Hf as <-.
Qed.

Section EntriesOrder.
Variable block : Block.

Lemma receiptEntries_cons (ri li : nat) (log : Log) (ls : list Log)
    (b : option Z) (t : option Z) (p : PostStateOrStatus) (g : Z) :
  receiptEntries block ri li (mkTxReceipt p g (log :: ls) b t)
  = mkEntry log block (transactions block !! ri) ri li
    :: receiptEntries block ri (S li) (mkTxReceipt p g ls b t).
Proof.
  unfold receiptEntries. simpl. f_equal; [f_equal; lia|].
  apply imap_ext. intros k x _. simpl. f_equal. lia.
Qed.

Lemma receiptEntries_props (ri li : nat) (r : TxReceipt) :
  StronglySorted entry_within (receiptEntries block ri li r)
  ∧ Forall (fun e => entry_block e = block ∧ entry_txIndex e = ri
                     ∧ (li ≤ entry_logIndex e < li + length (logs r))%nat)
           (receiptEntries block ri li r).
Proof.
  destruct r as [p g ls b t]. simpl logs. revert li.
  induction ls as [|log ls IH]; intros li.
  - split; constructor.
  - rewrite receiptEntries_cons.
    destruct (IH (S li)) as [Hsorted Hall]. split.
    + constructor; [done|]. eapply Forall_impl; [exact Hall|].
      intros e (_ & Htx & Hlog). unfold entry_within. simpl. lia.
    + constructor; [simpl; repeat split; lia|].
      eapply Forall_impl; [exact Hall|]. intros e (? & ? & ?). simpl. repeat split; try done; lia.
Qed.

Lemma blockEntries_props (ri li : nat) (rs : list TxReceipt) :
  StronglySorted entry_within (blockEntries block ri li rs)
  ∧ Forall (fun e => entry_block e = block ∧ (ri ≤ entry_txIndex e)%nat
                     ∧ (li ≤ entry_logIndex e)%nat)
           (blockEntries block ri li rs).
Proof.
  revert ri li. induction rs as [|r rs IH]; intros ri li; simpl.
  - split; constructor.
  - destruct (receiptEntries_props ri li r) as [Hs1 Ha1].
    destruct (IH (S ri) (li + length (logs r))%nat) as [Hs2 Ha2]. split.
    + apply StronglySorted_app. split; [|done].
      intros e1 e2 He1 He2. rewrite Forall_forall in Ha1, Ha2.
      destruct (Ha1 e1 He1) as (_ & ? & ?). destruct (Ha2 e2 He2) as (_ & ? & ?).
      unfold entry_within. lia.
    + apply Forall_app. split.
      * eapply Forall_impl; [exact Ha1|]. intros e (? & ? & ?). repeat split; try done; lia.
      * eapply Forall_impl; [exact Ha2|]. intros e (? & ? & ?). repeat split; try done; lia.
Qed.
End EntriesOrder.

Section GetLogsLimit.
Context `{!Externals}.
Variable this : ReceiptsManager.
Variable addresses : option (list Buffer).
Variable topics : list TopicFilter.
Variable db : MetaDB.

(** What [blockLogs] finds in a block comes out of the flattened entries of
    that block, in their order. *)
Lemma blockLogs_props (i : Z) (c : list GetLogsEntry) :
  (∀ n b, chain_getBlock (chain this) (ByNumber n) = Ok b → header_number b = n) →
  (blockLogs this addresses topics i db).2 = Ok (Some c) →
  StronglySorted entry_within c
  ∧ Forall (fun e => header_number (entry_block e) = i) c.
Proof.
  intros Hchain. unfold blockLogs, bind, lift, ret.
  destruct (chain_getBlock (chain this) (ByNumber i)) as [block|] eqn:Hblock; [|done].
  apply Hchain in Hblock.
  destruct (getReceipts this (block_hash block) false false db) as [db1 [receipts|]]; [|done].
  destruct (length receipts =? 0)%nat; [done|].
  destruct (filterLogs addresses topics (blockEntries block 0 0 receipts))
    as [logs|] eqn:Hfilter; [|done].
  simpl. intros [= <-]. apply filterLogs_sublist in Hfilter.
  destruct (blockEntries_props block 0 0 receipts) as [Hsorted Hall]. split.
  - by eapply StronglySorted_sublist.
  - apply Forall_forall. intros e He. rewrite Forall_forall in Hall.
    destruct (Hall e) as (-> & _); [by eapply elem_of_sublist | done].
Qed.

Lemma collected_cons (o : option (list GetLogsEntry)) (os : list (option (list GetLogsEntry))) :
  collected (o :: os) = logsOf o ++ collected os.
Proof. reflexivity. Qed.

Lemma collectedSize_cons (o : option (list GetLogsEntry))
    (os : list (option (list GetLogsEntry))) :
  collectedSize (o :: os) = from_option jsonByteLength 0 o + collectedSize os.
Proof. reflexivity. Qed.

(** The loop over blocks that can be read up to the block at which it
    stops: whatever the later blocks are, it returns the logs collected
    before it with those of the blocks read. *)
Lemma getLogs_loop_stops (os : list (option (list GetLogsEntry))) :
  ∀ (n : nat) (i : Z) (acc : list GetLogsEntry) (size : Z),
    (length os ≤ n)%nat →
    (∀ (j : nat) o, os !! j = Some o →
       (blockLogs this addresses topics (i + Z.of_nat j) db).2 = Ok o) →
    (∀ (k : nat) c, (1 ≤ k < length os)%nat → os !! (k - 1)%nat = Some (Some c) →
       ¬ limitReached this (acc ++ collected (take k os))
                      (size + collectedSize (take k os))) →
    (length os = n
     ∨ ∃ c, last os = Some (Some c)
            ∧ limitReached this (acc ++ collected os) (size + collectedSize os)) →
    getLogs_loop this addresses topics n i acc size db = (db, Ok (acc ++ collected os)).
Proof.
  induction os as [|o os IH]; intros n i acc size Hlen Hread Hearlier Hend.
  - destruct Hend as [Hn|(c & Hc & _)]; [|done].
    simpl in Hn. subst n. simpl. unfold ret. by rewrite app_nil_r.
  - destruct n as [|n]; [simpl in Hlen; lia|]. simpl in Hlen.
    assert (Ho : blockLogs this addresses topics i db = (db, Ok o)).
    { rewrite (surjective_pairing (blockLogs _ _ _ _ _)), blockLogs_db. f_equal.
      rewrite <- (Z.add_0_r i). apply (Hread 0%nat o eq_refl). }
    assert (Hread' : ∀ (j : nat) o', os !! j = Some o' →
              (blockLogs this addresses topics (i + 1 + Z.of_nat j) db).2 = Ok o').
    { intros j o' Hj. replace (i + 1 + Z.of_nat j) with (i + Z.of_nat (S j)) by lia.
      by apply Hread. }
    cbn [getLogs_loop]. unfold bind at 1. rewrite Ho. rewrite collected_cons.
    destruct o as [logs|]; simpl logsOf.
    + (* a block with receipts *)
      destruct os as [|o' os].
      * (* the last block read *)
        unfold collected. simpl. rewrite app_nil_r.
        destruct ((Z.of_nat (length (acc ++ logs)) >=? GET_LOGS_LIMIT this)
                  || (size + jsonByteLength logs >=? GET_LOGS_LIMIT_MEGABYTES this * 1048576))
          eqn:Hlimit; [done|].
        destruct Hend as [Hn|(c & Hc & Hreached)].
        -- simpl in Hn. injection Hn as <-. done.
        -- exfalso. unfold limitReached, collected, collectedSize in Hreached.
           simpl in Hreached. rewrite app_nil_r, Z.add_0_r in Hreached.
           apply orb_false_iff in Hlimit. lia.
      * (* a block before the last *)
        assert (Hlimit : (Z.of_nat (length (acc ++ logs)) >=? GET_LOGS_LIMIT this)
                  || (size + jsonByteLength logs >=? GET_LOGS_LIMIT_MEGABYTES this * 1048576)
                  = false).
        { apply not_true_is_false. intros Hlimit.
          apply (Hearlier 1%nat logs); [simpl; lia | done |].
          unfold limitReached, collected, collectedSize. simpl.
          rewrite app_nil_r, Z.add_0_r. apply orb_true_iff in Hlimit. lia. }
        rewrite Hlimit, app_assoc.
        apply IH; [lia | done | |].
        -- intros k c Hk Hc. specialize (Hearlier (S k) c).
           simpl take in Hearlier. rewrite collected_cons, collectedSize_cons in Hearlier.
           simpl logsOf in Hearlier. simpl from_option in Hearlier.
           rewrite <- app_assoc, <- Z.add_assoc. apply Hearlier.
           ++ simpl in *. lia.
           ++ replace (S k - 1)%nat with (S (k - 1)) by lia. exact Hc.
        -- destruct Hend as [Hn|(c & Hc & Hreached)].
           ++ left. simpl in *. lia.
           ++ right. exists c. split; [done|].
              rewrite collected_cons, collectedSize_cons in Hreached.
              simpl in Hreached. by rewrite <- app_assoc, <- Z.add_assoc.
    + (* a block without receipts *)
      destruct os as [|o' os].
      * destruct Hend as [Hn|(c & Hc & _)]; [|done].
        simpl in Hn. injection Hn as <-. simpl. unfold ret, collected. simpl.
        by rewrite app_nil_r.
      * apply IH; [lia | done | |].
        -- intros k c Hk Hc. specialize (Hearlier (S k) c).
           simpl take in Hearlier. rewrite collected_cons, collectedSize_cons in Hearlier.
           simpl logsOf in Hearlier. simpl from_option in Hearlier.
           rewrite app_nil_l, Z.add_0_l in Hearlier. apply Hearlier.
           ++ simpl in *. lia.
           ++ replace (S k - 1)%nat with (S (k - 1)) by lia. exact Hc.
        -- destruct Hend as [Hn|(c & Hc & Hreached)].
           ++ left. simpl in *. lia.
           ++ right. exists c. split; [done|].
              rewrite collected_cons, collectedSize_cons in Hreached. exact Hreached.
Qed.

(** Every run of the loop that returns is of that kind. *)
Lemma getLogs_loop_returns (n : nat) :
  ∀ (i : Z) (acc : list GetLogsEntry) (size : Z) (res : list GetLogsEntry),
    (getLogs_loop this addresses topics n i acc size db).2 = Ok res →
    ∃ os : list (option (list GetLogsEntry)),
      (length os ≤ n)%nat
      ∧ (∀ (j : nat) o, os !! j = Some o →
           (blockLogs this addresses topics (i + Z.of_nat j) db).2 = Ok o)
      ∧ (∀ (k : nat) c, (1 ≤ k < length os)%nat → os !! (k - 1)%nat = Some (Some c) →
           ¬ limitReached this (acc ++ collected (take k os))
                          (size + collectedSize (take k os)))
      ∧ (length os = n
         ∨ ∃ c, last os = Some (Some c)
                ∧ limitReached this (acc ++ collected os) (size + collectedSize os))
      ∧ res = acc ++ collected os.
Proof.
  induction n as [|n IH]; intros i acc size res Hrun.
  - injection Hrun as <-. exists []. split; [done|]. split; [done|].
    split; [simpl; lia|]. split; [by left|]. unfold collected. simpl. by rewrite app_nil_r.
  - cbn [getLogs_loop] in Hrun. unfold bind at 1 in Hrun.
    pose proof (blockLogs_db this addresses topics i db) as Hdb.
    destruct (blockLogs this addresses topics i db) as [db' [o|]] eqn:Ho;
      simpl in Hdb; subst db'; [|done].
    assert (Hshift : ∀ os : list (option (list GetLogsEntry)),
              (∀ (j : nat) o', os !! j = Some o' →
                 (blockLogs this addresses topics (i + 1 + Z.of_nat j) db).2 = Ok o') →
              ∀ (j : nat) o', (o :: os) !! j = Some o' →
                 (blockLogs this addresses topics (i + Z.of_nat j) db).2 = Ok o').
    { intros os Hread [|j] o' Hj.
      - injection Hj as <-. by rewrite Z.add_0_r, Ho.
      - replace (i + Z.of_nat (S j)) with (i + 1 + Z.of_nat j) by lia. by apply Hread. }
    destruct o as [logs|].
    + destruct ((Z.of_nat (length (acc ++ logs)) >=? GET_LOGS_LIMIT this)
                || (size + jsonByteLength logs >=? GET_LOGS_LIMIT_MEGABYTES this * 1048576))
        eqn:Hlimit.
      * injection Hrun as <-. exists [Some logs].
        split; [simpl; lia|]. split; [by apply (Hshift [])|].
        split; [simpl; lia|]. unfold collected, collectedSize, limitReached. simpl.
        rewrite app_nil_r, Z.add_0_r. split; [|done].
        right. exists logs. split; [done|]. apply orb_true_iff in Hlimit. lia.
      * destruct (IH _ _ _ _ Hrun) as (os & Hlen & Hread & Hearlier & Hend & ->).
        exists (Some logs :: os). split; [simpl; lia|]. split; [by apply Hshift|].
        split; [|split].
        -- intros k c Hk Hc. destruct k as [|[|k]]; [lia| |].
           ++ unfold collected, collectedSize, limitReached. simpl.
              rewrite app_nil_r, Z.add_0_r. apply orb_false_iff in Hlimit. lia.
           ++ simpl take. rewrite collected_cons, collectedSize_cons. simpl.
              rewrite app_assoc, Z.add_assoc. apply (Hearlier (S k) c); [simpl in *; lia|].
              replace (S k - 1)%nat with k by lia.
              replace (S (S k) - 1)%nat with (S k) in Hc by lia. exact Hc.
        -- destruct Hend as [Hn|(c & Hc & Hreached)]; [left; simpl; lia|].
           right. exists c. split.
           ++ destruct os; [done|exact Hc].
           ++ rewrite collected_cons, collectedSize_cons. simpl.
              by rewrite app_assoc, Z.add_assoc.
        -- rewrite collected_cons. simpl. by rewrite app_assoc.
    + destruct (IH _ _ _ _ Hrun) as (os & Hlen & Hread & Hearlier & Hend & ->).
      exists (None :: os). split; [simpl; lia|]. split; [by apply Hshift|].
      split; [|split].
      * intros k c Hk Hc. destruct k as [|[|k]]; [lia|done|].
        simpl take. rewrite collected_cons, collectedSize_cons. simpl.
        apply (Hearlier (S k) c); [simpl in *; lia|].
        replace (S k - 1)%nat with k by lia.
        replace (S (S k) - 1)%nat with (S k) in Hc by lia. exact Hc.
      * destruct Hend as [Hn|(c & Hc & Hreached)]; [left; simpl; lia|].
        right. exists c. split.
        -- destruct os; [done|exact Hc].
        -- rewrite collected_cons, collectedSize_cons. simpl. exact Hreached.
      * by rewrite collected_cons.
Qed.

(** While no block with receipts before the last one reaches the limit on
    the number of logs, blocks of at most one log never take the number
    of logs beyond it. *)
Lemma collected_at_most (os : list (option (list GetLogsEntry))) :
  ∀ (acc : list GetLogsEntry) (size : Z),
    Z.of_nat (length acc) < GET_LOGS_LIMIT this →
    (∀ (j : nat) c, os !! j = Some (Some c) → (length c ≤ 1)%nat) →
    (∀ (k : nat) c, (1 ≤ k < length os)%nat → os !! (k - 1)%nat = Some (Some c) →
       ¬ limitReached this (acc ++ collected (take k os))
                      (size + collectedSize (take k os))) →
    Z.of_nat (length (acc ++ collected os)) ≤ GET_LOGS_LIMIT this.
Proof.
  induction os as [|o os IH]; intros acc size Hacc Hone Hearlier.
  - unfold collected. simpl. rewrite app_nil_r. lia.
  - rewrite collected_cons.
    assert (Hone' : ∀ (j : nat) c, os !! j = Some (Some c) → (length c ≤ 1)%nat).
    { intros j c Hj. by apply (Hone (S j)). }
    destruct o as [logs|]; simpl logsOf.
    + pose proof (Hone 0%nat logs eq_refl) as Hlogs.
      destruct os as [|o' os].
      { unfold collected. simpl. rewrite app_nil_r, length_app. lia. }
      rewrite app_assoc. apply (IH _ (size + jsonByteLength logs)); [|done|].
      * specialize (Hearlier 1%nat logs ltac:(simpl; lia) eq_refl).
        unfold limitReached, collected, collectedSize in Hearlier. simpl in Hearlier.
        rewrite app_nil_r in Hearlier. lia.
      * intros k c Hk Hc. specialize (Hearlier (S k) c).
        simpl take in Hearlier. rewrite collected_cons, collectedSize_cons in Hearlier.
        simpl logsOf in Hearlier. simpl from_option in Hearlier.
        rewrite <- app_assoc, <- Z.add_assoc. apply Hearlier.
        -- simpl in *. lia.
        -- replace (S k - 1)%nat with (S (k - 1)) by lia. exact Hc.
    + apply (IH _ size); [done|done|].
      intros k c Hk Hc. specialize (Hearlier (S k) c).
      simpl take in Hearlier. rewrite collected_cons, collectedSize_cons in Hearlier.
      simpl logsOf in Hearlier. simpl from_option in Hearlier.
      rewrite app_nil_l, Z.add_0_l in Hearlier. apply Hearlier.
      * simpl in *. lia.
      * replace (S k - 1)%nat with (S (k - 1)) by lia. exact Hc.
Qed.

Lemma entry_within_lex (e1 e2 : GetLogsEntry) :
  header_number (entry_block e1) = header_number (entry_block e2) →
  entry_within e1 e2 → entry_lex e1 e2.
Proof. unfold entry_within, entry_lex. intros Hn [Ht Hl]. right. split; [done|]. lia. Qed.

Lemma collected_sorted (os : list (option (list GetLogsEntry))) :
  ∀ i : Z,
    (∀ (j : nat) c, os !! j = Some (Some c) →
       StronglySorted entry_within c
       ∧ Forall (fun e => header_number (entry_block e) = i + Z.of_nat j) c) →
    StronglySorted entry_lex (collected os)
    ∧ Forall (fun e => i ≤ header_number (entry_block e)) (collected os).
Proof.
  induction os as [|o os IH]; intros i Hos.
  - split; constructor.
  - destruct (IH (i + 1)) as [Hsorted Hall].
    { intros j c Hj. destruct (Hos (S j) c Hj) as [Hs Hn]. split; [done|].
      eapply Forall_impl; [exact Hn|]. intros e He. simpl in He. lia. }
    rewrite collected_cons. destruct o as [c|]; simpl logsOf; last first.
    { split; [done|]. eapply Forall_impl; [exact Hall|]. intros e He. simpl in He. lia. }
    destruct (Hos 0%nat c eq_refl) as [Hs Hn]. rewrite Forall_forall in Hn, Hall. split.
    + apply StronglySorted_app. split; [|split; [|done]].
      * intros e1 e2 He1 He2. left.
        specialize (Hn e1 He1). specialize (Hall e2 He2). simpl in *. lia.
      * clear -Hs Hn. induction Hs as [|e c Hs IHs He]; constructor.
        -- apply IHs. intros x Hx. apply Hn. apply elem_of_cons. by right.
        -- rewrite Forall_forall in He. apply Forall_forall. intros x Hx.
           apply entry_within_lex; [|by apply He].
           rewrite (Hn e), (Hn x); [done | apply elem_of_cons; by right
                                   | apply elem_of_cons; by left].
    + apply Forall_forall. intros e He. apply elem_of_app in He as [He|He].
      * specialize (Hn e He). simpl in Hn. lia.
      * specialize (Hall e He). simpl in Hall. lia.
Qed.

(** C2 (amended): [getLogs] returns exactly when the blocks of the range
    can be read up to the block at which the loop stops, and it then
    leaves the database as it is and returns the matching logs of those
    blocks, whole blocks: the loop stops after the first block with
    receipts at which the number of collected logs has reached
    [GET_LOGS_LIMIT] or the accumulated size has reached
    [GET_LOGS_LIMIT_MEGABYTES] MiB, or at the end of the range. The blocks
    after that one are not read: nothing is asked of them, they may be
    unknown to the chain. The logs returned are in ascending (block,
    txIndex, logIndex) order when the chain numbers its blocks; they are
    at most [GET_LOGS_LIMIT ≥ 1] when no block contributes more than one
    log; and where the whole range can be read, they are the logs of its
    first blocks, at least [GET_LOGS_LIMIT] of them when the range holds
    that many and the size budget is not reached. *)
Theorem getLogs_stops_after_limit (from to : Block) :
  (∀ res : list GetLogsEntry,
     getLogs this from to addresses topics db = (db, Ok res)
     ↔ ∃ chunks, readUntilLimit this addresses topics db from to chunks
                 ∧ res = collected chunks)
  ∧ (∀ chunks, readUntilLimit this addresses topics db from to chunks →
       ((∀ n b, chain_getBlock (chain this) (ByNumber n) = Ok b → header_number b = n) →
        StronglySorted entry_lex (collected chunks))
       ∧ (1 ≤ GET_LOGS_LIMIT this →
          (∀ (j : nat) c, chunks !! j = Some (Some c) → (length c ≤ 1)%nat) →
          Z.of_nat (length (collected chunks)) ≤ GET_LOGS_LIMIT this)
       ∧ (∀ whole : list (option (list GetLogsEntry)),
            length whole = Z.to_nat (header_number to - header_number from + 1) →
            (∀ (j : nat) o, whole !! j = Some o →
               (blockLogs this addresses topics (header_number from + Z.of_nat j) db).2
               = Ok o) →
            chunks = take (length chunks) whole
            ∧ (collectedSize chunks < GET_LOGS_LIMIT_MEGABYTES this * 1048576 →
               GET_LOGS_LIMIT this ≤ Z.of_nat (length (collected whole)) →
               GET_LOGS_LIMIT this ≤ Z.of_nat (length (collected chunks))))).
Proof.
  split.
  - intros res. split.
    + intros Hrun. unfold getLogs in Hrun.
      destruct (getLogs_loop_returns (Z.to_nat (header_number to - header_number from + 1))
                  (header_number from) [] 0 res)
        as (os & Hlen & Hread & Hearlier & Hend & ->); [by rewrite Hrun|].
      exists os. split; [|done]. split; [done|]. split; [done|]. split.
      * intros k c Hk Hc. specialize (Hearlier k c Hk Hc).
        by rewrite Z.add_0_l in Hearlier.
      * destruct Hend as [Hn|(c & Hc & Hreached)]; [by left|].
        right. exists c. split; [done|]. by rewrite Z.add_0_l in Hreached.
    + intros (chunks & (Hlen & Hread & Hearlier & Hend) & ->). unfold getLogs.
      apply (getLogs_loop_stops chunks _ (header_number from) [] 0); [done|done| |].
      * intros k c Hk Hc. rewrite Z.add_0_l. by apply (Hearlier k c).
      * destruct Hend as [Hn|(c & Hc & Hreached)]; [by left|].
        right. exists c. split; [done|]. by rewrite Z.add_0_l.
  - intros chunks (Hlen & Hread & Hearlier & Hend). split; [|split].
    + intros Hchain. apply (collected_sorted chunks (header_number from)).
      intros j c Hj. eapply blockLogs_props; [exact Hchain | by apply Hread].
    + intros HL Hone. apply (collected_at_most chunks [] 0); [simpl; lia | done |].
      intros k c Hk Hc. rewrite Z.add_0_l. by apply (Hearlier k c).
    + intros whole Hwhole Hall.
      assert (Htake : chunks = take (length chunks) whole).
      { apply list_eq. intros j. destruct (decide (j < length chunks)%nat) as [Hj|Hj].
        - rewrite lookup_take_lt by done.
          destruct (lookup_lt_is_Some_2 chunks j Hj) as [o Ho].
          destruct (lookup_lt_is_Some_2 whole j ltac:(lia)) as [o' Ho'].
          rewrite Ho, Ho'. f_equal.
          apply Hread in Ho. apply Hall in Ho'. congruence.
        - rewrite lookup_ge_None_2 by lia.
          symmetry. apply lookup_ge_None_2. rewrite length_take. lia. }
      split; [done|]. intros Hsize Hmany.
      destruct Hend as [Hn|(c & Hc & [Hreached|Hreached])]; [|done|lia].
      rewrite Htake, take_ge by lia. done.
Qed.
End GetLogsLimit.

(** *** The limits on a small chain *)

(** C2 as stated fails: with [GET_LOGS_LIMIT = 3], a query over a block that
    holds 100 matching logs returns the 100 of them, not 3. *)
Lemma getLogs_exactly_limit_counterexample :
  GET_LOGS_LIMIT limitManager = 3
  ∧ ∃ res, (getLogs (H := refExternals) limitManager block20 block20 None [] limitDB).2
           = Ok res
           ∧ length res = 100%nat
           ∧ length res ≠ 3%nat.
Proof.
  split; [reflexivity|]. eexists. split; [vm_compute; reflexivity|].
  split; [vm_compute; reflexivity | vm_compute; discriminate].
Qed.

Lemma limitChain_numbers (n : Z) (b : Block) :
  chain_getBlock (chain limitManager) (ByNumber n) = Ok b → header_number b = n.
Proof.
  unfold limitManager, limitChain. cbn [chain chain_getBlock].
  match goal with
  | |- context [List.find ?f ?l] => destruct (List.find f l) as [b'|] eqn:Hfind
  end; [|done].
  intros [= <-]. apply find_some in Hfind as [_ Heq]. lia.
Qed.

Lemma getLogs_stops_after_limit_witness :
  getLogs (H := refExternals) limitManager (singleBlock 30) block36 None [] limitDB
  = (limitDB, Ok [singleEntry 30; singleEntry 31; singleEntry 32])
  ∧ (∃ e, (blockLogs (H := refExternals) limitManager None [] 35 limitDB).2 = Throw e)
  ∧ StronglySorted entry_lex [singleEntry 30; singleEntry 31; singleEntry 32].
Proof.
  pose proof (getLogs_stops_after_limit (H := refExternals) limitManager None [] limitDB
                (singleBlock 30) block36) as [Hrun Hprops].
  assert (Hread : readUntilLimit (H := refExternals) limitManager None [] limitDB
                    (singleBlock 30) block36
                    (map (fun n => Some [singleEntry n]) [30; 31; 32])).
  { split; [simpl; lia|]. split; [|split].
    - intros j o Hj.
      do 3 (destruct j as [|j]; [injection Hj as <-; vm_compute; reflexivity|]).
      discriminate Hj.
    - intros k c Hk _. simpl in Hk. unfold limitReached.
      destruct k as [|[|[|k]]]; [lia| | |lia]; vm_compute; intros [Hc|Hc]; by apply Hc.
    - right. exists [singleEntry 32]. split; [reflexivity|].
      left. vm_compute. discriminate. }
  split; [|split].
  - apply Hrun. eexists. split; [exact Hread | reflexivity].
  - eexists. vm_compute. reflexivity.
  - apply (proj1 (Hprops _ Hread)). apply limitChain_numbers.
Defined.

(** * Further properties of the code *)

(** ** The receipt store: reading and saving *)

Section ReceiptStoreReads.
Context `{!Externals}.
Variable this : ReceiptsManager.

Lemma getIndex_db (value : Buffer) (db : MetaDB) :
  (getIndex IndexType_TxHash value db).1 = db.
Proof.
  unfold getIndex, bind, get, lift, ret.
  destruct (db !! (DBKey_TxHash, value)); [|done].
  by destruct (rlpDecodeTxHash _).
Qed.

Lemma getReceiptByTxHash_db (txHash : Buffer) (db : MetaDB) :
  (getReceiptByTxHash this txHash db).1 = db.
Proof.
  unfold getReceiptByTxHash, bind.
  pose proof (getIndex_db txHash db) as Hdb.
  destruct (getIndex IndexType_TxHash txHash db) as [db1 [[[blockHash txIndex]|]|]];
    simpl in Hdb; subst db1; [|done|done].
  pose proof (getReceipts_db this blockHash false false db) as Hdb.
  destruct (getReceipts this blockHash false false db) as [db1 [receipts|]];
    simpl in Hdb; subst db1; [|done].
  destruct (length receipts =? 0)%nat; [done|].
  by destruct (receipts !! Z.to_nat txIndex).
Qed.

(** X3: the four queries of the receipt store, [getReceipts], [getIndex],
    [getReceiptByTxHash] and [getLogs], leave the database as it is,
    whatever they are asked and whether they return or throw. *)
Theorem queries_leave_database (db : MetaDB) :
  (∀ blockHash calcBloom includeTxType,
     (getReceipts this blockHash calcBloom includeTxType db).1 = db)
  ∧ (∀ value, (getIndex IndexType_TxHash value db).1 = db)
  ∧ (∀ txHash, (getReceiptByTxHash this txHash db).1 = db)
  ∧ (∀ from to addresses topics, (getLogs this from to addresses topics db).1 = db).
Proof.
  split; [intros; apply getReceipts_db|].
  split; [intros; apply getIndex_db|].
  split; [intros; apply getReceiptByTxHash_db|].
  intros. apply getLogs_db.
Qed.

(** X4: [saveReceipts] fails exactly when the receipts cannot be encoded,
    with the error of the encoding and before anything is written;
    otherwise it succeeds and the encoding is what is stored under the
    hash of the block. Either way the receipts stored under any other
    block hash stay as they were. *)
Theorem saveReceipts_frame (block : Block) (receipts : list TxReceipt) (db : MetaDB) :
  let db' := (saveReceipts this block receipts db).1 in
  (∀ e, rlpEncode RlpType_Receipts (VReceipts receipts) = Throw e →
        saveReceipts this block receipts db = (db, Throw e))
  ∧ (∀ encoded, rlpEncode RlpType_Receipts (VReceipts receipts) = Ok encoded →
        (saveReceipts this block receipts db).2 = Ok tt
        ∧ db' !! (DBKey_Receipts, block_hash block) = Some encoded)
  ∧ (∀ k, k ≠ block_hash block → db' !! (DBKey_Receipts, k) = db !! (DBKey_Receipts, k)).
Proof.
  intros db'. unfold db', saveReceipts, bind, lift, put, void.
  destruct (rlpEncode RlpType_Receipts (VReceipts receipts)) as [encoded|err].
  - split; [done|]. split.
    + intros ? [= <-]. split; [done|]. cbn [fst].
      rewrite updateIndex_keeps_receipts. apply lookup_insert_eq.
    + intros k Hk. cbn [fst]. rewrite updateIndex_keeps_receipts.
      apply lookup_insert_ne. congruence.
  - split; [by intros ? [= <-]|]. split; [done|]. done.
Qed.

(** X5: [updateIndex] with [IndexOperation.Delete] succeeds and removes the
    tx-hash index of every transaction of the block, so that [getIndex]
    and [getReceiptByTxHash] answer null for each of them; every other
    entry of the database stays as it was. *)
Theorem updateIndex_Delete_removes (block : Block) (db : MetaDB) :
  let db' := (updateIndex this Delete IndexType_TxHash block db).1 in
  (updateIndex this Delete IndexType_TxHash block db).2 = Ok tt
  ∧ (∀ tx, tx ∈ transactions block →
       getIndex IndexType_TxHash (tx_hash tx) db' = (db', Ok None)
       ∧ getReceiptByTxHash this (tx_hash tx) db' = (db', Ok None))
  ∧ (∀ k, (∀ tx, tx ∈ transactions block → k ≠ (DBKey_TxHash, tx_hash tx)) →
       db' !! k = db !! k).
Proof.
  intros db'. unfold db', updateIndex, updateIndex_Delete.
  destruct (updateIndex_Delete_run (transactions block) db) as (db1 & Hrun & Hdel & Hkeep).
  rewrite Hrun. split; [done|]. split; [|exact Hkeep].
  intros tx Htx. cbn [fst].
  unfold getReceiptByTxHash, getIndex, bind, get, ret.
  by rewrite (Hdel tx Htx).
Qed.

Lemma saveLoop_keeps (block : Block) (entries : list (nat * TypedTransaction))
    (db : MetaDB) (k : DBKey * Buffer) :
  is_Some (db !! k) → is_Some ((forM_ entries (saveTxHashIndex block) db).1 !! k).
Proof.
  apply (forM__preserves entries (saveTxHashIndex block) (fun d => is_Some (d !! k))).
  intros [i tx] d Hd. unfold saveTxHashIndex, bind, lift, put.
  destruct (rlpEncode _ _) as [e|]; [|done]. cbn [fst].
  destruct (decide (k = (DBKey_TxHash, tx_hash tx))) as [->|Hne].
  - rewrite lookup_insert_eq. eauto.
  - by rewrite lookup_insert_ne.
Qed.

(** X6: with a [txLookupLimit] [L > 0] and the chain head at height [h],
    saving the receipts of a block whose number is at most [h - L] writes
    no tx-hash index: every index found afterwards was there before, with
    the same value. *)
Theorem saveReceipts_outside_lookup_limit (block : Block) (receipts : list TxReceipt)
    (db : MetaDB) :
  0 < config_txLookupLimit this →
  header_number block ≤ headers_height (chain this) - config_txLookupLimit this →
  ∀ txHash v,
    (saveReceipts this block receipts db).1 !! (DBKey_TxHash, txHash) = Some v →
    db !! (DBKey_TxHash, txHash) = Some v.
Proof.
  intros HL Hout txHash v. unfold saveReceipts, bind, lift, put, void.
  destruct (rlpEncode RlpType_Receipts (VReceipts receipts)) as [encoded|err]; [|done].
  cbn [fst]. unfold updateIndex, bind.
  destruct (Z.eqb_spec (config_txLookupLimit this) 0); [lia|].
  destruct (Z.ltb_spec (headers_height (chain this) - config_txLookupLimit this)
              (header_number block)); [lia|].
  cbn [orb]. unfold ret at 1.
  destruct (Z.ltb_spec 0 (config_txLookupLimit this)); [|lia].
  assert (Hins : ∀ w, <[(DBKey_Receipts, block_hash block) := encoded]> db
                        !! (DBKey_TxHash, txHash) = Some w →
                      db !! (DBKey_TxHash, txHash) = Some w).
  { intros w. by rewrite lookup_insert_ne. }
  destruct (_ <? 0); [apply Hins|].
  unfold lift. destruct (chain_getBlock _ _) as [old|]; [|apply Hins].
  unfold void. cbn [fst]. intros Hv. apply Hins. revert Hv.
  unfold updateIndex_Delete.
  apply (forM__preserves (transactions old) _
           (fun d => d !! (DBKey_TxHash, txHash) = Some v →
                     <[(DBKey_Receipts, block_hash block) := encoded]> db
                       !! (DBKey_TxHash, txHash) = Some v)); [|done].
  intros tx d Hd. unfold delete. cbn [fst].
  destruct (decide (tx_hash tx = txHash)) as [->|Hne].
  - by rewrite lookup_delete_eq.
  - rewrite lookup_delete_ne by congruence. exact Hd.
Qed.

(** X7: when [txLookupLimit] is not positive, or the chain head is lower
    than it, [saveReceipts] prunes nothing: every key of the database is
    still there afterwards (its value may have been written anew). *)
Theorem saveReceipts_without_pruning (block : Block) (receipts : list TxReceipt)
    (db : MetaDB) :
  config_txLookupLimit this ≤ 0
  ∨ headers_height (chain this) < config_txLookupLimit this →
  ∀ k, is_Some (db !! k) → is_Some ((saveReceipts this block receipts db).1 !! k).
Proof.
  intros Hno k Hk. unfold saveReceipts, bind, lift, put, void.
  destruct (rlpEncode RlpType_Receipts (VReceipts receipts)) as [encoded|err]; [|done].
  cbn [fst].
  assert (Hk1 : is_Some (<[(DBKey_Receipts, block_hash block) := encoded]> db !! k)).
  { destruct (decide (k = (DBKey_Receipts, block_hash block))) as [->|Hne].
    - rewrite lookup_insert_eq. eauto.
    - by rewrite lookup_insert_ne. }
  revert Hk1. generalize (<[(DBKey_Receipts, block_hash block) := encoded]> db).
  intros db1 Hk1. unfold updateIndex, bind.
  assert (Hrest : ∀ d, is_Some (d !! k) →
            is_Some (((if 0 <? config_txLookupLimit this
                       then
                         if headers_height (chain this) - config_txLookupLimit this <? 0
                         then ret tt
                         else
                           bind (lift (chain_getBlock (chain this)
                                   (ByNumber (headers_height (chain this)
                                              - config_txLookupLimit this))))
                                (fun blockDelIndexes => void (updateIndex_Delete blockDelIndexes))
                       else ret tt) d).1 !! k)).
  { intros d Hd. destruct (Z.ltb_spec 0 (config_txLookupLimit this)); [|done].
    destruct (Z.ltb_spec (headers_height (chain this) - config_txLookupLimit this) 0); [done|].
    lia. }
  match goal with |- context [if ?c then forM_ _ _ else ret tt] => destruct c end.
  - pose proof (saveLoop_keeps block (imap pair (transactions block)) db1 k Hk1) as Hs.
    destruct (forM_ _ _ db1) as [db2 [[]|err]]; [|done].
    by apply Hrest.
  - unfold ret at 1. by apply Hrest.
Qed.

Lemma mapM_setTxType (block : Block) (rs : list TxReceipt) (g : nat → nat) :
  (∀ i, (i < length rs)%nat → is_Some (transactions block !! g i)) →
  ∃ out, mapM (setTxType block) (imap (fun i r => (g i, r)) rs) = Ok out
         ∧ length out = length rs
         ∧ ∀ i r tx, rs !! i = Some r → transactions block !! g i = Some tx →
             out !! i = Some {| postStateOrStatus := postStateOrStatus r;
                                cumulativeBlockGasUsed := cumulativeBlockGasUsed r;
                                logs := logs r;
                                bitvector := bitvector r;
                                txType := Some (tx_type tx) |}.
Proof.
  revert g. induction rs as [|r rs IH]; intros g Hg.
  - exists []. split; [done|]. split; [done|]. intros i r tx Hi. by rewrite lookup_nil in Hi.
  - destruct (Hg 0%nat ltac:(simpl; lia)) as [tx0 Htx0].
    destruct (IH (g ∘ S)) as (out & Hout & Hlen & Hnth).
    { intros i Hi. apply (Hg (S i)). simpl. lia. }
    eexists. split.
    { simpl. rewrite Htx0. simpl.
      change (imap ((fun i r => (g i, r)) ∘ S) rs) with (imap (fun i r => ((g ∘ S) i, r)) rs).
      rewrite Hout. simpl. reflexivity. }
    split; [simpl; by rewrite Hlen|].
    intros [|i] r' tx Hi Htx.
    + injection Hi as <-. rewrite Htx0 in Htx. by injection Htx as <-.
    + simpl. by apply Hnth.
Qed.

Lemma mapM_setTxType_short (block : Block) (rs : list TxReceipt) (g : nat → nat) (j : nat) :
  (j < length rs)%nat → transactions block !! g j = None →
  mapM (setTxType block) (imap (fun i r => (g i, r)) rs) = Throw TypeError.
Proof.
  revert g j. induction rs as [|r rs IH]; intros g j Hj Hnone; [simpl in Hj; lia|].
  simpl. destruct (transactions block !! g 0%nat) as [tx0|] eqn:Htx0; [|done].
  simpl. destruct j as [|j]; [congruence|].
  change (imap ((fun i r => (g i, r)) ∘ S) rs) with (imap (fun i r => ((g ∘ S) i, r)) rs).
  rewrite (IH (g ∘ S) j); [done | simpl in Hj; lia | done].
Qed.

(** X2: [getReceipts] with [includeTxType], on a block hash whose stored
    receipts decode and whose block the chain knows: when the block has
    at least as many transactions as there are receipts, receipt [i] comes
    back with the type of transaction [i] (and with its logs bloom when
    [calcBloom] is set); when there are more receipts than transactions,
    the call throws a [TypeError]. *)
Theorem getReceipts_includeTxType (blockHash : Buffer) (calcBloom : bool) (db : MetaDB)
    (encoded : Buffer) (rs : list TxReceipt) (block : Block) :
  db !! (DBKey_Receipts, blockHash) = Some encoded →
  rlpDecodeReceipts encoded = Ok rs →
  chain_getBlock (chain this) (ByHash blockHash) = Ok block →
  ((length rs ≤ length (transactions block))%nat →
   ∃ out, getReceipts this blockHash calcBloom true db = (db, Ok out)
          ∧ length out = length rs
          ∧ ∀ i r tx, rs !! i = Some r → transactions block !! i = Some tx →
              out !! i = Some {| postStateOrStatus := postStateOrStatus r;
                                 cumulativeBlockGasUsed := cumulativeBlockGasUsed r;
                                 logs := logs r;
                                 bitvector := if calcBloom then Some (logsBloom (logs r))
                                              else bitvector r;
                                 txType := Some (tx_type tx) |})
  ∧ ((length (transactions block) < length rs)%nat →
     getReceipts this blockHash calcBloom true db = (db, Throw TypeError)).
Proof.
  intros Hdb Hdec Hblock.
  unfold getReceipts, bind, get, lift, ret. rewrite Hdb, Hdec, Hblock.
  set (rs' := if calcBloom then map setBitvector rs else rs).
  assert (Hlen : length rs' = length rs).
  { unfold rs'. destruct calcBloom; [apply length_map | done]. }
  split.
  - intros Hle.
    destruct (mapM_setTxType block rs' id) as (out & Hout & Hlen' & Hnth).
    { intros i Hi. apply lookup_lt_is_Some. unfold id. lia. }
    exists out. change (imap pair rs') with (imap (fun i r => (id i, r)) rs').
    rewrite Hout. split; [done|]. split; [lia|].
    intros i r tx Hi Htx. unfold rs' in Hnth. destruct calcBloom.
    + apply (Hnth i (setBitvector r) tx); [|done].
      by rewrite list_lookup_fmap, Hi.
    + by apply (Hnth i r tx).
  - intros Hlt. change (imap pair rs') with (imap (fun i r => (id i, r)) rs').
    rewrite (mapM_setTxType_short block rs' id (length (transactions block))); [done|lia|].
    apply lookup_ge_None. unfold id. lia.
Qed.

(** X9: [getReceiptByTxHash] on a hash whose index points past the
    receipts stored for its block (of which there are some) does not
    answer null: it throws a [TypeError], from the assignment to the
    bloom of a receipt that is not there. *)
Theorem getReceiptByTxHash_index_out_of_range (txHash : Buffer) (db : MetaDB)
    (encoded blockHash : Buffer) (txIndex : Z) (stored : Buffer) (rs : list TxReceipt) :
  db !! (DBKey_TxHash, txHash) = Some encoded →
  rlpDecodeTxHash encoded = Ok (blockHash, txIndex) →
  db !! (DBKey_Receipts, blockHash) = Some stored →
  rlpDecodeReceipts stored = Ok rs →
  (0 < length rs ≤ Z.to_nat txIndex)%nat →
  getReceiptByTxHash this txHash db = (db, Throw TypeError).
Proof.
  intros Hix Hdec Hrec Hrs [Hpos Hle].
  unfold getReceiptByTxHash, getIndex, getReceipts, bind, get, lift, ret, throw.
  rewrite Hix, Hdec. cbn. rewrite Hrec, Hrs. cbn.
  destruct rs as [|r rs']; [simpl in Hpos; lia|]. cbn [length Nat.eqb].
  by rewrite (lookup_ge_None_2 (r :: rs') (Z.to_nat txIndex)).
Qed.

End ReceiptStoreReads.

Section StoredRoundTrip.
Context `{!Externals}.
Hypothesis RLP_roundtrip : ∀ x b, RLP_encode x = Ok b → RLP_decode b = Ok x.
Variable this : ReceiptsManager.

(** X1: when the RLP codec decodes what it encoded, after
    [saveReceipts(block, receipts)] has succeeded on well-formed receipts,
    [getReceipts(block.hash())] returns those receipts as they are stored,
    in their order (the very list when it carries no annotation), and
    with [calcBloom] each of them with the bloom of its logs. What was
    stored under that hash before is replaced. *)
Theorem getReceipts_after_saveReceipts (block : Block) (receipts : list TxReceipt)
    (db : MetaDB) :
  Forall wfReceipt receipts →
  (saveReceipts this block receipts db).2 = Ok tt →
  let db' := (saveReceipts this block receipts db).1 in
  getReceipts this (block_hash block) false false db'
  = (db', Ok (map storedReceipt receipts))
  ∧ getReceipts this (block_hash block) true false db'
    = (db', Ok (map (fun r => setBitvector (storedReceipt r)) receipts))
  ∧ (Forall (fun r => bitvector r = None ∧ txType r = None) receipts →
     getReceipts this (block_hash block) false false db' = (db', Ok receipts)).
Proof.
  intros Hwf Hsaved db'.
  assert (∃ encoded, rlpEncode RlpType_Receipts (VReceipts receipts) = Ok encoded
                     ∧ db' !! (DBKey_Receipts, block_hash block) = Some encoded)
    as (encoded & Henc & Hrec).
  { unfold db'. clear db'. unfold saveReceipts, bind, lift in *.
    destruct (rlpEncode RlpType_Receipts (VReceipts receipts)) as [encoded|]; [|done].
    exists encoded. split; [done|]. unfold put, void. cbn [fst].
    rewrite updateIndex_keeps_receipts. apply lookup_insert_eq. }
  clearbody db'.
  assert (Hdec : rlpDecodeReceipts encoded = Ok (map storedReceipt receipts)).
  { unfold rlpDecodeReceipts.
    by rewrite (rlp_decode_stored RLP_roundtrip receipts encoded Hwf
                  (rlpEncode_Receipts_inv _ _ Henc)). }
  unfold getReceipts, bind, get, lift, ret. rewrite Hrec, Hdec.
  split; [done|]. split.
  - by rewrite List.map_map.
  - intros Hplain. do 2 f_equal. clear -Hplain.
    induction Hplain as [|r rs [Hb Ht] _ IH]; simpl; [done|].
    by rewrite storedReceipt_id, IH.
Qed.

(** X8: when the RLP codec decodes what it encoded, so does [rlp] for the
    two other storage types: a list of logs, and a tx-hash index
    [[blockHash, txIndex]], which can be encoded only when [txIndex] is a
    non-negative safe integer (for any other, encoding throws). *)
Theorem rlp_logs_and_txhash_roundtrip :
  (∀ ls e, rlp Encode RlpType_Logs (VLogs ls) = Ok (VBuffer e) →
           rlp Decode RlpType_Logs (VBuffer e) = Ok (VLogs ls))
  ∧ (∀ blockHash txIndex e,
       rlp Encode RlpType_TxHash (VTxHash (blockHash, txIndex)) = Ok (VBuffer e) →
       rlp Decode RlpType_TxHash (VBuffer e) = Ok (VTxHash (blockHash, txIndex))
       ∧ 0 ≤ txIndex ≤ MAX_SAFE_INTEGER)
  ∧ (∀ blockHash txIndex,
       txIndex < 0 ∨ MAX_SAFE_INTEGER < txIndex →
       ∃ err, rlp Encode RlpType_TxHash (VTxHash (blockHash, txIndex)) = Throw err).
Proof.
  split; [|split].
  - intros ls e. simpl. intros Henc.
    apply rbind_Ok_inv in Henc as (enc & Henc & [= <-]).
    by rewrite (rlp_Logs_roundtrip RLP_roundtrip _ _ Henc).
  - intros blockHash txIndex e. simpl. intros Henc.
    apply rbind_Ok_inv in Henc as (ix & Hix & Henc).
    apply rbind_Ok_inv in Henc as (enc & Henc & [= <-]).
    rewrite (RLP_roundtrip _ _ Henc). simpl.
    assert (Hrange : 0 ≤ txIndex ≤ MAX_SAFE_INTEGER).
    { unfold intToBuffer, isSafeInteger in Hix.
      destruct (Z.leb_spec (- MAX_SAFE_INTEGER) txIndex);
        destruct (Z.leb_spec txIndex MAX_SAFE_INTEGER);
        destruct (Z.ltb_spec txIndex 0); simpl in Hix; first [done | lia]. }
    apply intToBuffer_roundtrip in Hix as [-> _]. done.
  - intros blockHash txIndex Hbad. simpl. unfold intToBuffer, isSafeInteger.
    destruct (Z.leb_spec (- MAX_SAFE_INTEGER) txIndex);
      destruct (Z.leb_spec txIndex MAX_SAFE_INTEGER);
      destruct (Z.ltb_spec txIndex 0); simpl; eauto.
    all: unfold MAX_SAFE_INTEGER in *; lia.
Qed.

End StoredRoundTrip.

(** *** On the small chain *)

Lemma getReceipts_after_saveReceipts_witness :
  getReceipts (H := refExternals) (testManager 0 11) (block_hash block11) false false
    (testDB 0)
  = (testDB 0, Ok [receipt0; receipt1]).
Proof.
  refine (proj2 (proj2 (getReceipts_after_saveReceipts (H := refExternals)
                          RLP_decode_encode (testManager 0 11) block11
                          [receipt0; receipt1] (testDB10 0) testReceipts_wf _)) _).
  - vm_compute. reflexivity.
  - repeat constructor.
Defined.

Lemma getReceipts_includeTxType_witness :
  (∃ out, getReceipts (H := refExternals) (testManager 0 11) (block_hash block11) true true
            (testDB 0) = (testDB 0, Ok out)
          ∧ (txType <$> out) = [Some 0; Some 2])
  ∧ getReceipts (H := refExternals) (testManager 0 12) (block_hash block12) false true
      surplusDB = (surplusDB, Throw TypeError).
Proof.
  split.
  - destruct (getReceipts_includeTxType (H := refExternals) (testManager 0 11)
                (block_hash block11) true (testDB 0)
                (default [] (match rlpEncode (H := refExternals) RlpType_Receipts
                                     (VReceipts [receipt0; receipt1]) with
                             | Ok b => Some b | Throw _ => None end))
                [receipt0; receipt1] block11) as [Hok _];
      [vm_compute; reflexivity | vm_compute; reflexivity | reflexivity |].
    destruct (Hok ltac:(simpl; lia)) as (out & Hrun & Hlen & Hnth).
    exists out. split; [exact Hrun|].
    pose proof (Hnth 0%nat receipt0 tx0 eq_refl eq_refl) as H0.
    pose proof (Hnth 1%nat receipt1 tx1 eq_refl eq_refl) as H1.
    destruct out as [|a [|b [|c out]]]; try discriminate Hlen.
    injection H0 as ->. injection H1 as ->. reflexivity.
  - refine (proj2 (getReceipts_includeTxType (H := refExternals) (testManager 0 12)
                     (block_hash block12) false surplusDB
                     (default [] (match rlpEncode (H := refExternals) RlpType_Receipts
                                          (VReceipts [receipt0]) with
                                  | Ok b => Some b | Throw _ => None end))
                     [receipt0] block12 _ _ _) _);
      [vm_compute; reflexivity | vm_compute; reflexivity | reflexivity | simpl; lia].
Defined.

Lemma saveReceipts_outside_lookup_limit_witness :
  (saveReceipts (H := refExternals) (testManager 1 11) block10 [receipt9] ∅).1
    !! (DBKey_TxHash, tx_hash tx9) = None.
Proof.
  destruct ((saveReceipts (H := refExternals) (testManager 1 11) block10 [receipt9] ∅).1
              !! (DBKey_TxHash, tx_hash tx9)) as [v|] eqn:Hv; [|reflexivity].
  apply (saveReceipts_outside_lookup_limit (H := refExternals) (testManager 1 11)) in Hv;
    [by rewrite lookup_empty in Hv | simpl; lia | simpl; lia].
Defined.

Lemma saveReceipts_without_pruning_witness :
  is_Some (testDB 0 !! (DBKey_TxHash, tx_hash tx9)).
Proof.
  apply (saveReceipts_without_pruning (H := refExternals) (testManager 0 11) block11
           [receipt0; receipt1] (testDB10 0)).
  - left. simpl. lia.
  - vm_compute. eauto.
Defined.

Lemma rlp_logs_and_txhash_roundtrip_witness :
  (∃ e, rlp (H := refExternals) Encode RlpType_Logs (VLogs [log0; log1]) = Ok (VBuffer e)
        ∧ rlp (H := refExternals) Decode RlpType_Logs (VBuffer e) = Ok (VLogs [log0; log1]))
  ∧ (∃ e, rlp (H := refExternals) Encode RlpType_TxHash (VTxHash (block_hash block11, 1))
          = Ok (VBuffer e)
          ∧ rlp (H := refExternals) Decode RlpType_TxHash (VBuffer e)
            = Ok (VTxHash (block_hash block11, 1))).
Proof.
  destruct (rlp_logs_and_txhash_roundtrip (H := refExternals) RLP_decode_encode)
    as (Hlogs & Htx & _).
  split.
  - eexists. split; [vm_compute; reflexivity|]. apply Hlogs. vm_compute. reflexivity.
  - eexists. split; [vm_compute; reflexivity|].
    refine (proj1 (Htx _ _ _ _)). vm_compute. reflexivity.
Defined.

Lemma getReceiptByTxHash_index_out_of_range_witness :
  getReceiptByTxHash (H := refExternals) (testManager 0 11) (tx_hash tx1) shortDB
  = (shortDB, Throw TypeError).
Proof.
  apply (getReceiptByTxHash_index_out_of_range (H := refExternals) (testManager 0 11)
           (tx_hash tx1) shortDB
           (default [] (match rlpEncode (H := refExternals) RlpType_TxHash
                                (VTxHash (block_hash block11, 1)) with
                        | Ok b => Some b | Throw _ => None end))
           (block_hash block11) 1
           (default [] (match rlpEncode (H := refExternals) RlpType_Receipts
                                (VReceipts [receipt0]) with
                        | Ok b => Some b | Throw _ => None end))
           [receipt0]).
  - vm_compute. reflexivity.
  - vm_compute. reflexivity.
  - vm_compute. reflexivity.
  - vm_compute. reflexivity.
  - simpl. lia.
Defined.

(** ** The receipt store: log queries *)

Lemma filterM_Forall {A} (f : A → result bool) (P : A → Prop) (l l' : list A) :
  (∀ a, a ∈ l → f a = Ok true → P a) → filterM f l = Ok l' → Forall P l'.
Proof.
  revert l'. induction l as [|a l IH]; intros l' HP; simpl.
  - intros [= <-]. constructor.
  - destruct (f a) as [keep|] eqn:Hfa; simpl; [|done].
    destruct (filterM f l) as [rest|]; simpl; [|done].
    assert (Hrest : Forall P rest).
    { apply IH; [|done]. intros b Hb. apply HP. by right. }
    intros [= <-]. destruct keep; [|done].
    constructor; [|done]. apply HP; [by left | done].
Qed.

Lemma filterM_Throw {A} (f : A → result bool) (e : exn) (l : list A) (a : A) :
  (∀ b, b ∈ l → (∃ keep, f b = Ok keep) ∨ f b = Throw e) →
  a ∈ l → f a = Throw e → filterM f l = Throw e.
Proof.
  induction l as [|b l IH]; intros Hall Hin Hfa; [by apply elem_of_nil in Hin|].
  simpl. destruct (Hall b ltac:(by left)) as [[keep Hb]|Hb]; rewrite Hb; [|done].
  simpl. apply elem_of_cons in Hin as [->|Hin]; [congruence|].
  rewrite IH; [done| |done|done]. intros c Hc. apply Hall. by right.
Qed.

Lemma findEquals_Some (ts : list Buffer) (other : option Buffer) (t : Buffer) :
  findEquals ts other = Ok (Some t) → t ∈ ts ∧ other = Some t.
Proof.
  induction ts as [|t' ts IH]; simpl; [done|].
  destruct other as [o|]; simpl; [|done].
  unfold Buffer_equals. destruct (bool_decide_reflect (t' = o)) as [->|Hne].
  - intros [= <-]. split; [by left | done].
  - intros Hf. destruct (IH Hf) as [Hin Heq]. split; [by right | done].
Qed.

Lemma findEquals_outcome (ts : list Buffer) (other : option Buffer) :
  (∃ found, findEquals ts other = Ok found) ∨ findEquals ts other = Throw TypeError.
Proof.
  induction ts as [|t ts IH]; simpl; [eauto|].
  destruct other as [o|]; simpl; [|by right].
  destruct (Buffer_equals t o); [eauto | exact IH].
Qed.

Lemma topicsCallback_true (topic : TopicFilter) (rest : list TopicFilter)
    (e : GetLogsEntry) :
  topicsCallback (topic :: rest) e = Ok true → firstTopicMatches topic e.
Proof.
  unfold topicsCallback. cbn [imap]. unfold topicIteration, firstTopicMatches.
  destruct topic as [|t|ts].
  - done.
  - destruct (log_topics (entry_log e) !! 0%nat) as [o|]; simpl; [|done].
    unfold Buffer_equals. destruct (bool_decide_reflect (t = o)) as [->|Hne]; simpl; done.
  - destruct (findEquals ts (log_topics (entry_log e) !! 0%nat)) as [[t|]|] eqn:Hf;
      simpl; [|done|done].
    intros _. apply findEquals_Some in Hf as [Hin Heq]. eauto.
Qed.

Lemma topicsCallback_outcome (topics : list TopicFilter) (e : GetLogsEntry) :
  (∃ keep, topicsCallback topics e = Ok keep) ∨ topicsCallback topics e = Throw TypeError.
Proof.
  destruct topics as [|topic rest]; [left; by exists false|].
  unfold topicsCallback. cbn [imap]. unfold topicIteration.
  destruct topic as [|t|ts].
  - eauto.
  - destruct (log_topics (entry_log e) !! 0%nat) as [o|]; simpl; [|by right].
    left. destruct (Buffer_equals t o); simpl; eauto.
  - destruct (findEquals_outcome ts (log_topics (entry_log e) !! 0%nat)) as [[found ->]| ->];
      simpl; [|by right].
    left. destruct (negb _); eauto.
Qed.

Lemma topicsCallback_no_topics (topic : TopicFilter) (rest : list TopicFilter)
    (e : GetLogsEntry) :
  comparesFirstTopic topic → log_topics (entry_log e) = [] →
  topicsCallback (topic :: rest) e = Throw TypeError.
Proof.
  intros Hcmp Hno. unfold topicsCallback. cbn [imap]. unfold topicIteration.
  rewrite Hno. destruct topic as [|t|[|t ts]]; done.
Qed.

Lemma filterLogs_address (addrs : list Buffer) (topics : list TopicFilter)
    (l c : list GetLogsEntry) :
  addrs ≠ [] → filterLogs (Some addrs) topics l = Ok c →
  Forall (fun e => log_address (entry_log e) ∈ addrs) c.
Proof.
  intros Hne. unfold filterLogs.
  destruct addrs as [|a addrs]; [done|].
  replace (0 <? length (a :: addrs))%nat with true by done.
  set (P := fun e : GetLogsEntry => log_address (entry_log e) ∈ a :: addrs).
  assert (Hf : Forall P (List.filter (addressMatches (a :: addrs)) l)).
  { apply Forall_forall. intros e He. apply list_elem_of_In, filter_In in He as [_ He].
    unfold addressMatches in He. apply existsb_exists in He as (x & Hx & Heq).
    unfold Buffer_equals in Heq. apply bool_decide_eq_true in Heq. subst x.
    by apply list_elem_of_In. }
  destruct (0 <? length topics)%nat.
  - intros Hc. apply Forall_forall. intros e He.
    rewrite Forall_forall in Hf. apply Hf.
    eapply elem_of_sublist; [exact He | exact (filterM_sublist _ _ _ Hc)].
  - by intros [= <-].
Qed.

Lemma blockEntries_elem (block : Block) (rs : list TxReceipt) (r : TxReceipt) (log : Log) :
  ∀ ri li, r ∈ rs → log ∈ logs r →
    ∃ e, e ∈ blockEntries block ri li rs ∧ entry_log e = log.
Proof.
  induction rs as [|r' rs IH]; intros ri li Hr Hlog; [by apply elem_of_nil in Hr|].
  simpl. apply elem_of_cons in Hr as [<-|Hr].
  - apply list_elem_of_lookup in Hlog as [k Hk].
    eexists. split; [apply elem_of_app; left|].
    + unfold receiptEntries. apply elem_of_lookup_imap. eauto.
    + done.
  - destruct (IH (S ri) (li + length (logs r'))%nat Hr Hlog) as (e & He & Heq).
    exists e. split; [apply elem_of_app; by right | done].
Qed.

Lemma logCount_app (l1 l2 : list TxReceipt) :
  logCount (l1 ++ l2) = (logCount l1 + logCount l2)%nat.
Proof. unfold logCount. rewrite map_app. induction (map _ l1); simpl; lia. Qed.

Lemma blockEntries_at (block : Block) (rs : list TxReceipt) :
  ∀ pre, Forall (entryAt block (pre ++ rs))
                (blockEntries block (length pre) (logCount pre) rs).
Proof.
  induction rs as [|r rs IH]; intros pre; [constructor|].
  simpl. apply Forall_app. split.
  - apply Forall_forall. intros e He. unfold receiptEntries in He.
    apply elem_of_lookup_imap in He as (k & log & -> & Hk).
    unfold entryAt. cbn. split; [done|]. split; [done|].
    exists r, k. rewrite lookup_app_r by lia. rewrite Nat.sub_diag.
    split; [done|]. split; [done|]. by rewrite take_app_length.
  - specialize (IH (pre ++ [r])).
    rewrite length_app, logCount_app, <- app_assoc in IH. simpl in IH.
    unfold logCount at 2 in IH. simpl in IH.
    replace (length pre + 1)%nat with (S (length pre)) in IH by lia.
    replace (logCount pre + (length (logs r) + 0))%nat
      with (logCount pre + length (logs r))%nat in IH by lia.
    exact IH.
Qed.

Section LogQueries.
Context `{!Externals}.
Variable this : ReceiptsManager.

(** What holds of every log a block of the range contributes holds of
    every log of the answer. *)
Lemma getLogs_loop_Forall (P : GetLogsEntry → Prop) (addresses : option (list Buffer))
    (topics : list TopicFilter) (db : MetaDB) (n : nat) :
  ∀ (i : Z) (acc : list GetLogsEntry) (size : Z) (res : list GetLogsEntry),
    (∀ j c, i ≤ j < i + Z.of_nat n →
       (blockLogs this addresses topics j db).2 = Ok (Some c) → Forall P c) →
    Forall P acc →
    (getLogs_loop this addresses topics n i acc size db).2 = Ok res →
    Forall P res.
Proof.
  induction n as [|n IH]; intros i acc size res Hblock Hacc.
  - simpl. by intros [= <-].
  - cbn [getLogs_loop]. unfold bind at 1.
    pose proof (blockLogs_db this addresses topics i db) as Hdb.
    pose proof (Hblock i) as Hi.
    destruct (blockLogs this addresses topics i db) as [db1 [[c|]|]];
      simpl in Hdb; subst db1; [| |done].
    + assert (Hacc' : Forall P (acc ++ c)).
      { apply Forall_app. split; [done|]. apply Hi; [lia|done]. }
      match goal with |- context [if ?b then _ else _] => destruct b end.
      * simpl. by intros [= <-].
      * apply IH; [|done]. intros j c' Hj. apply Hblock. lia.
    + apply IH; [|done]. intros j c' Hj. apply Hblock. lia.
Qed.

Lemma getLogs_Forall (P : GetLogsEntry → Prop) (from to : Block)
    (addresses : option (list Buffer)) (topics : list TopicFilter) (db : MetaDB)
    (res : list GetLogsEntry) :
  (∀ j c, header_number from ≤ j ≤ header_number to →
     (blockLogs this addresses topics j db).2 = Ok (Some c) → Forall P c) →
  (getLogs this from to addresses topics db).2 = Ok res →
  Forall P res.
Proof.
  intros Hblock. unfold getLogs. apply getLogs_loop_Forall; [|constructor].
  intros j c Hj. apply Hblock. lia.
Qed.

(** What [blockLogs] returns for a block number are the entries of the
    block with that number that passed the filters. *)
Lemma blockLogs_filtered (addresses : option (list Buffer)) (topics : list TopicFilter)
    (j : Z) (db : MetaDB) (c : list GetLogsEntry) :
  (blockLogs this addresses topics j db).2 = Ok (Some c) →
  ∃ block receipts,
    chain_getBlock (chain this) (ByNumber j) = Ok block
    ∧ (getReceipts this (block_hash block) false false db).2 = Ok receipts
    ∧ receipts ≠ []
    ∧ filterLogs addresses topics (blockEntries block 0 0 receipts) = Ok c.
Proof.
  unfold blockLogs, bind, lift, ret.
  destruct (chain_getBlock (chain this) (ByNumber j)) as [block|]; [|done].
  destruct (getReceipts this (block_hash block) false false db)
    as [db1 [receipts|]] eqn:Hget; [|done].
  destruct receipts as [|r receipts]; [done|]. cbn [length Nat.eqb].
  destruct (filterLogs _ _ _) as [logs|] eqn:Hf; [|done].
  simpl. intros [= <-]. exists block, (r :: receipts). by rewrite Hget.
Qed.

Lemma getLogs_entries (from to : Block) (addresses : option (list Buffer))
    (topics : list TopicFilter) (db : MetaDB) (res : list GetLogsEntry) :
  (getLogs this from to addresses topics db).2 = Ok res →
  Forall (fun e =>
            ∃ j receipts,
              header_number from ≤ j ≤ header_number to
              ∧ chain_getBlock (chain this) (ByNumber j) = Ok (entry_block e)
              ∧ (getReceipts this (block_hash (entry_block e)) false false db).2
                = Ok receipts
              ∧ entryAt (entry_block e) receipts e) res.
Proof.
  apply getLogs_Forall. intros j c Hj Hc.
  apply blockLogs_filtered in Hc as (block & receipts & Hblock & Hget & _ & Hf).
  apply filterLogs_sublist in Hf.
  pose proof (blockEntries_at block receipts []) as Hat. simpl in Hat.
  apply Forall_forall. intros e He. rewrite Forall_forall in Hat.
  assert (Hin : e ∈ blockEntries block 0 0 receipts) by by eapply elem_of_sublist.
  specialize (Hat e Hin). pose proof Hat as (Hb & _).
  exists j, receipts. rewrite Hb. done.
Qed.

Lemma getLogs_loop_no_addresses (topics : list TopicFilter) (n : nat) :
  ∀ (i : Z) (acc : list GetLogsEntry) (size : Z) (db : MetaDB),
    getLogs_loop this (Some []) topics n i acc size db
    = getLogs_loop this None topics n i acc size db.
Proof.
  induction n as [|n IH]; intros i acc size db; [done|].
  cbn [getLogs_loop].
  change (blockLogs this (Some []) topics i) with (blockLogs this None topics i).
  unfold bind. destruct (blockLogs this None topics i db) as [db1 [[c|]|]]; [| |done].
  - match goal with |- context [if ?b then _ else _] => destruct b end; [done | apply IH].
  - apply IH.
Qed.

(** X10: with a non-empty list of addresses, every log [getLogs] returns
    was emitted by one of these addresses, whatever the topics filter and
    wherever the limits cut the answer. *)
Theorem getLogs_address_filter (from to : Block) (addrs : list Buffer)
    (topics : list TopicFilter) (db : MetaDB) (res : list GetLogsEntry) :
  addrs ≠ [] →
  (getLogs this from to (Some addrs) topics db).2 = Ok res →
  Forall (fun e => log_address (entry_log e) ∈ addrs) res.
Proof.
  intros Hne. apply getLogs_Forall. intros j c _ Hc.
  apply blockLogs_filtered in Hc as (block & receipts & _ & _ & _ & Hf).
  by eapply filterLogs_address.
Qed.

(** X11: an empty list of addresses filters nothing: [getLogs] answers as
    it does without the argument. *)
Theorem getLogs_no_addresses (from to : Block) (topics : list TopicFilter) (db : MetaDB) :
  getLogs this from to (Some []) topics db = getLogs this from to None topics db.
Proof. apply getLogs_loop_no_addresses. Qed.

(** X12: what the topics filter does ensure: every log [getLogs] returns
    satisfies the first position of the filter, so its first topic is the
    value given there, or one of the values of the list given there. *)
Theorem getLogs_first_topic (from to : Block) (addresses : option (list Buffer))
    (topic : TopicFilter) (rest : list TopicFilter) (db : MetaDB)
    (res : list GetLogsEntry) :
  (getLogs this from to addresses (topic :: rest) db).2 = Ok res →
  Forall (firstTopicMatches topic) res.
Proof.
  apply getLogs_Forall. intros j c _ Hc.
  apply blockLogs_filtered in Hc as (block & receipts & _ & _ & _ & Hf).
  unfold filterLogs in Hf.
  replace (0 <? length (topic :: rest))%nat with true in Hf by done.
  eapply filterM_Forall; [|exact Hf].
  intros e _. apply topicsCallback_true.
Qed.

(** X13: [getLogs] throws a [TypeError] when the first block of the range
    holds a log without topics that passes the address filter, and the
    first position of the topics filter is a value or a non-empty list of
    values: [Buffer.equals] is then called on [undefined]. *)
Theorem getLogs_log_without_topics (from to : Block) (addresses : option (list Buffer))
    (topic : TopicFilter) (rest : list TopicFilter) (db : MetaDB)
    (block : Block) (receipts : list TxReceipt) (r : TxReceipt) (log : Log) :
  header_number from ≤ header_number to →
  chain_getBlock (chain this) (ByNumber (header_number from)) = Ok block →
  (getReceipts this (block_hash block) false false db).2 = Ok receipts →
  r ∈ receipts → log ∈ logs r → log_topics log = [] →
  match addresses with
  | Some (a :: addrs) => log_address log ∈ a :: addrs
  | _ => True
  end →
  comparesFirstTopic topic →
  getLogs this from to addresses (topic :: rest) db = (db, Throw TypeError).
Proof.
  intros Hrange Hblock Hget Hr Hlog Hno Haddr Hcmp.
  unfold getLogs.
  destruct (Z.to_nat (header_number to - header_number from + 1)) as [|n] eqn:Hn; [lia|].
  cbn [getLogs_loop]. unfold bind at 1.
  assert (Hb : blockLogs this addresses (topic :: rest) (header_number from) db
               = (db, Throw TypeError)); [|by rewrite Hb].
  unfold blockLogs, bind, lift, ret. rewrite Hblock.
  pose proof (getReceipts_db this (block_hash block) false false db) as Hdb.
  destruct (getReceipts this (block_hash block) false false db) as [db1 res].
  simpl in Hdb, Hget. subst db1 res.
  destruct receipts as [|r0 rs]; [by apply elem_of_nil in Hr|]. cbn [length Nat.eqb].
  destruct (blockEntries_elem block (r0 :: rs) r log 0 0 Hr Hlog) as (e & He & Heq).
  assert (Hf : filterLogs addresses (topic :: rest) (blockEntries block 0 0 (r0 :: rs))
               = Throw TypeError); [|by rewrite Hf].
  unfold filterLogs. replace (0 <? length (topic :: rest))%nat with true by done.
  apply (filterM_Throw _ _ _ e).
  - intros b _. apply topicsCallback_outcome.
  - destruct addresses as [[|a addrs]|]; try done.
    replace (0 <? length (a :: addrs))%nat with true by done.
    apply list_elem_of_In, filter_In. split; [by apply list_elem_of_In|].
    unfold addressMatches. apply existsb_exists.
    exists (log_address log). split; [by apply list_elem_of_In|].
    rewrite Heq. unfold Buffer_equals. by apply bool_decide_eq_true.
  - apply topicsCallback_no_topics; [done|]. by rewrite Heq.
Qed.

(** X14: every entry [getLogs] returns names its log by its place in the
    block as it is stored, before any filter: the block is the one the
    chain has at a number of the range, [tx] is transaction [txIndex] of
    that block, the log is log [k] of receipt [txIndex], and [logIndex] is
    its index among all logs of the block, the number of logs of the
    receipts before plus [k]. *)
Theorem getLogs_entry_position (from to : Block) (addresses : option (list Buffer))
    (topics : list TopicFilter) (db : MetaDB) (res : list GetLogsEntry)
    (e : GetLogsEntry) :
  (getLogs this from to addresses topics db).2 = Ok res →
  e ∈ res →
  entry_tx e = transactions (entry_block e) !! entry_txIndex e
  ∧ ∃ j receipts r k,
      header_number from ≤ j ≤ header_number to
      ∧ chain_getBlock (chain this) (ByNumber j) = Ok (entry_block e)
      ∧ (getReceipts this (block_hash (entry_block e)) false false db).2 = Ok receipts
      ∧ receipts !! entry_txIndex e = Some r
      ∧ logs r !! k = Some (entry_log e)
      ∧ concat (map logs receipts) !! entry_logIndex e = Some (entry_log e)
      ∧ entry_logIndex e = (logCount (take (entry_txIndex e) receipts) + k)%nat.
Proof.
  intros Hres He. apply getLogs_entries in Hres. rewrite Forall_forall in Hres.
  destruct (Hres e He) as (j & receipts & Hj & Hblock & Hget & _ & Htx & r & k & Hr & Hk & Hli).
  split; [done|]. exists j, receipts, r, k.
  repeat (split; [done|]). split; [|done].
  rewrite Hli. clear -Hr Hk. revert Hr. generalize (entry_txIndex e) as i.
  induction receipts as [|r0 rs IH]; intros i Hi; [by rewrite lookup_nil in Hi|].
  destruct i as [|i]; simpl.
  - injection Hi as ->. unfold logCount. simpl.
    by rewrite lookup_app_l by by eapply lookup_lt_Some.
  - unfold logCount. simpl. fold (logCount (take i rs)).
    rewrite lookup_app_r by lia.
    replace (length (logs r0) + logCount (take i rs) + k - length (logs r0))%nat
      with (logCount (take i rs) + k)%nat by lia.
    by apply IH.
Qed.

(** X15: the two queries number logs alike: when [getReceiptByTxHash]
    answers [(receipt, blockHash, txIndex, logIndex)], an entry of
    [getLogs] for that block and that transaction index holds a log [k]
    of [receipt], with log index [logIndex + k]. *)
Theorem logIndex_agrees (txHash : Buffer) (from to : Block)
    (addresses : option (list Buffer)) (topics : list TopicFilter) (db : MetaDB)
    (receipt : TxReceipt) (blockHash : Buffer) (txIndex logIndex : Z)
    (res : list GetLogsEntry) (e : GetLogsEntry) :
  (getReceiptByTxHash this txHash db).2 = Ok (Some (receipt, blockHash, txIndex, logIndex)) →
  (getLogs this from to addresses topics db).2 = Ok res →
  e ∈ res →
  block_hash (entry_block e) = blockHash →
  entry_txIndex e = Z.to_nat txIndex →
  ∃ k, logs receipt !! k = Some (entry_log e)
       ∧ Z.of_nat (entry_logIndex e) = logIndex + Z.of_nat k.
Proof.
  intros Hrec Hres He Hhash Hix.
  apply getLogs_entries in Hres. rewrite Forall_forall in Hres.
  destruct (Hres e He) as (j & receipts & _ & _ & Hget & _ & _ & r & k & Hr & Hk & Hli).
  rewrite Hhash in Hget. rewrite Hix in Hr, Hli.
  unfold getReceiptByTxHash, bind in Hrec.
  pose proof (getIndex_db txHash db) as Hdb.
  destruct (getIndex IndexType_TxHash txHash db) as [db1 [[[bh ix]|]|]];
    simpl in Hdb; subst db1; [|done|done].
  pose proof (getReceipts_db this bh false false db) as Hdb.
  destruct (getReceipts this bh false false db) as [db2 [rs|]] eqn:Hrs; [|done].
  simpl in Hdb. subst db2.
  destruct (length rs =? 0)%nat; [done|].
  destruct (rs !! Z.to_nat ix) as [r'|] eqn:Hr'; [|done].
  unfold ret in Hrec. simpl in Hrec. injection Hrec as <- <- <- <-.
  rewrite Hrs in Hget. simpl in Hget. injection Hget as <-.
  rewrite Hr' in Hr. injection Hr as <-.
  exists k. split; [done|].
  rewrite fold_left_logIndex, Hli. unfold logCount. lia.
Qed.

(** X16: the two ends of the range: when [to] is below [from], [getLogs]
    returns no log and asks nothing of the chain; when the chain does not
    know the first block of a range that is not empty, [getLogs] throws
    the error of the chain. *)
Theorem getLogs_range_edges (from to : Block) (addresses : option (list Buffer))
    (topics : list TopicFilter) (db : MetaDB) :
  (header_number to < header_number from →
   getLogs this from to addresses topics db = (db, Ok []))
  ∧ (∀ e, header_number from ≤ header_number to →
          chain_getBlock (chain this) (ByNumber (header_number from)) = Throw e →
          getLogs this from to addresses topics db = (db, Throw e)).
Proof.
  unfold getLogs. split.
  - intros Hlt.
    by replace (Z.to_nat (header_number to - header_number from + 1)) with 0%nat by lia.
  - intros e Hrange Hblock.
    destruct (Z.to_nat (header_number to - header_number from + 1)) as [|n] eqn:Hn; [lia|].
    cbn [getLogs_loop]. unfold bind at 1, blockLogs, bind, lift. by rewrite Hblock.
Qed.

(** X30: a query for one block is answered in full, whatever the limits:
    [getLogs] from a block to itself returns (or throws) what the filters
    give on the entries of all logs stored for the block; with no topics
    filter these are, in their order, the entries whose address is among
    the addresses asked for, or all of them when none is asked for. *)
Theorem getLogs_single_block (from to : Block) (addresses : option (list Buffer))
    (topics : list TopicFilter) (db : MetaDB) (block : Block)
    (receipts : list TxReceipt) :
  header_number to = header_number from →
  chain_getBlock (chain this) (ByNumber (header_number from)) = Ok block →
  (getReceipts this (block_hash block) false false db).2 = Ok receipts →
  let entries := blockEntries block 0 0 receipts in
  getLogs this from to addresses topics db = (db, filterLogs addresses topics entries)
  ∧ (topics = [] →
     getLogs this from to addresses topics db
     = (db, Ok (match addresses with
                | Some (a :: addrs) =>
                    List.filter (fun e => bool_decide (log_address (entry_log e) ∈ a :: addrs))
                                entries
                | _ => entries
                end))).
Proof.
  intros Hto Hblock Hget entries.
  assert (Hrun : getLogs this from to addresses topics db
                 = (db, filterLogs addresses topics entries)).
  { unfold getLogs.
    replace (Z.to_nat (header_number to - header_number from + 1)) with 1%nat by lia.
    cbn [getLogs_loop]. unfold bind at 1, blockLogs, bind, lift, ret. rewrite Hblock.
    pose proof (getReceipts_db this (block_hash block) false false db) as Hdb.
    destruct (getReceipts this (block_hash block) false false db) as [db1 res].
    simpl in Hdb, Hget. subst db1 res. unfold entries.
    destruct receipts as [|r rs].
    - simpl. unfold filterLogs. simpl.
      destruct addresses as [addrs|]; [destruct (0 <? length addrs)%nat|];
        by destruct (0 <? length topics)%nat.
    - cbn [length Nat.eqb].
      destruct (filterLogs addresses topics (blockEntries block 0 0 (r :: rs))) as [logs|]; [|done].
      cbn [app]. by match goal with |- context [if ?b then _ else _] => destruct b end. }
  split; [exact Hrun|].
  intros ->. rewrite Hrun. unfold filterLogs. cbn [length Nat.ltb Nat.leb]. do 2 f_equal.
  destruct addresses as [[|a addrs]|]; try done.
  replace (0 <? length (a :: addrs))%nat with true by done.
  apply filter_ext. intros e. unfold addressMatches.
  destruct (bool_decide_reflect (log_address (entry_log e) ∈ a :: addrs)) as [Hin|Hnin].
  - apply existsb_exists. exists (log_address (entry_log e)).
    split; [by apply list_elem_of_In|]. unfold Buffer_equals. by apply bool_decide_eq_true.
  - apply not_true_is_false. intros Hex. apply Hnin.
    apply existsb_exists in Hex as (x & Hx & Heq).
    unfold Buffer_equals in Heq. apply bool_decide_eq_true in Heq. subst x.
    by apply list_elem_of_In.
Qed.

End LogQueries.

(** *** On the small chain *)

Lemma getLogs_address_filter_witness :
  Forall (fun e => log_address (entry_log e) ∈ [AA]) [entry0; entry1].
Proof.
  apply (getLogs_address_filter (H := refExternals) (testManager 0 12) block10 block12
           [AA] [] (testDB 0)); [done|].
  vm_compute. reflexivity.
Defined.

Lemma getLogs_first_topic_witness :
  Forall (firstTopicMatches (TopicAny [T2; T1])) [entry9; entry0; entry1].
Proof.
  apply (getLogs_first_topic (H := refExternals) (testManager 0 12) block10 block12
           None (TopicAny [T2; T1]) [TopicOne T2] (testDB 0)).
  vm_compute. reflexivity.
Defined.

Lemma getLogs_log_without_topics_witness :
  getLogs (H := refExternals) (testManager 0 10) block10 block10 None [TopicOne T1] bareDB
  = (bareDB, Throw TypeError).
Proof.
  apply (getLogs_log_without_topics (H := refExternals) (testManager 0 10) block10 block10
           None (TopicOne T1) [] bareDB block10 [receiptBare] receiptBare logBare).
  - reflexivity.
  - reflexivity.
  - vm_compute. reflexivity.
  - by left.
  - by left.
  - reflexivity.
  - exact I.
  - exact I.
Defined.

Lemma getLogs_entry_position_witness :
  ∃ receipts,
    (getReceipts (H := refExternals) (testManager 0 12) (block_hash block11) false false
       (testDB 0)).2 = Ok receipts
    ∧ concat (map logs receipts) !! 1%nat = Some log1.
Proof.
  destruct (getLogs_entry_position (H := refExternals) (testManager 0 12) block10 block12
              (Some [AA]) [TopicOne T1] (testDB 0) [entry0; entry1] entry1)
    as (_ & j & receipts & r & k & _ & _ & Hget & _ & _ & Hat & _).
  - vm_compute. reflexivity.
  - apply elem_of_cons. right. apply elem_of_cons. by left.
  - exists receipts. split; [exact Hget | exact Hat].
Defined.

Lemma logIndex_agrees_witness :
  ∃ k, logs (setBitvector (H := refExternals) receipt1) !! k = Some log1
       ∧ 1 = 1 + Z.of_nat k.
Proof.
  apply (logIndex_agrees (H := refExternals) (testManager 0 12) (tx_hash tx1) block10 block12
           None [] (testDB 0) (setBitvector (H := refExternals) receipt1)
           (block_hash block11) 1 1 [entry9; entry0; entry1] entry1).
  - vm_compute. reflexivity.
  - vm_compute. reflexivity.
  - apply elem_of_cons. right. apply elem_of_cons. right. apply elem_of_cons. by left.
  - reflexivity.
  - reflexivity.
Defined.

Lemma getLogs_range_edges_witness :
  getLogs (H := refExternals) (testManager 0 12) block12 block10 None [] (testDB 0)
  = (testDB 0, Ok [])
  ∧ getLogs (H := refExternals) (testManager 0 12) block13 block13 None [] (testDB 0)
    = (testDB 0, Throw (Error "block not found")).
Proof.
  split.
  - apply (proj1 (getLogs_range_edges (H := refExternals) (testManager 0 12) block12 block10
                    None [] (testDB 0))).
    simpl. lia.
  - apply (proj2 (getLogs_range_edges (H := refExternals) (testManager 0 12) block13 block13
                    None [] (testDB 0))); [simpl; lia | reflexivity].
Defined.

(** The block of the other chain that holds a hundred logs is returned in
    full, although three logs are the limit there. *)
Lemma getLogs_single_block_witness :
  getLogs (H := refExternals) limitManager block20 block20 (Some [AA]) [] limitDB
  = (limitDB, Ok (List.filter (fun e => bool_decide (log_address (entry_log e) ∈ [AA]))
                              (blockEntries block20 0 0 [receipt100]))).
Proof.
  refine (proj2 (getLogs_single_block (H := refExternals) limitManager block20 block20
                   (Some [AA]) [] limitDB block20 [receipt100] eq_refl eq_refl _) eq_refl).
  vm_compute. reflexivity.
Defined.

(** ** The logs bloom *)

Section BloomProperties.
Context `{!Externals}.

Lemma Bloom_add_lor (bloom : Z) (e : Buffer) :
  Bloom_add bloom e = Z.lor bloom (Bloom_add 0 e).
Proof.
  unfold Bloom_add. cbn [fold_left]. rewrite Z.lor_0_l, !Z.lor_assoc. done.
Qed.

Lemma fold_Bloom_add_lor (items : list Buffer) (bloom : Z) :
  fold_left Bloom_add items bloom = Z.lor bloom (fold_left Bloom_add items 0).
Proof.
  revert bloom. induction items as [|e items IH]; intros bloom; simpl.
  - by rewrite Z.lor_0_r.
  - rewrite IH, (IH (Bloom_add 0 e)), (Bloom_add_lor bloom e), Z.lor_assoc. done.
Qed.

Lemma logsBloom_fold (ls : list Log) (bloom : Z) :
  fold_left
    (fun bloom log => fold_left Bloom_add (log_topics log) (Bloom_add bloom (log_address log)))
    ls bloom
  = Z.lor bloom (logsBloom ls).
Proof.
  unfold logsBloom. revert bloom. induction ls as [|l ls IH]; intros bloom; simpl.
  - by rewrite Z.lor_0_r.
  - rewrite IH. symmetry. rewrite IH. symmetry.
    rewrite fold_Bloom_add_lor, Bloom_add_lor.
    rewrite (fold_Bloom_add_lor _ (Bloom_add 0 _)).
    by rewrite !Z.lor_assoc.
Qed.

Lemma lor_range (n a b : Z) :
  0 ≤ n → 0 ≤ a < 2 ^ n → 0 ≤ b < 2 ^ n → 0 ≤ Z.lor a b < 2 ^ n.
Proof.
  intros Hn Ha Hb.
  rewrite <- (Z.mod_small a (2 ^ n)), <- (Z.mod_small b (2 ^ n)) by done.
  rewrite <- !Z.land_ones by done. rewrite <- Z.land_lor_distr_l.
  rewrite Z.land_ones by done. apply Z.mod_pos_bound. by apply Z.pow_pos_nonneg.
Qed.

Lemma bloomBit_range (x : Z) : 0 ≤ Z.shiftl 1 (Z.land 2047 x) < 2 ^ 2048.
Proof.
  rewrite Z.land_comm. change 2047 with (Z.ones 11). rewrite Z.land_ones by done.
  pose proof (Z.mod_pos_bound x (2 ^ 11) ltac:(done)) as [Hl Hu].
  rewrite Z.shiftl_1_l. split; [apply Z.pow_nonneg; lia|].
  apply Z.pow_lt_mono_r; [lia | lia |]. change (2 ^ 11) with 2048 in *. lia.
Qed.

Lemma Bloom_add_range (bloom : Z) (e : Buffer) :
  0 ≤ bloom < 2 ^ 2048 → 0 ≤ Bloom_add bloom e < 2 ^ 2048.
Proof.
  intros Hb. unfold Bloom_add. cbn [fold_left].
  repeat (apply lor_range; [done| |apply bloomBit_range]). done.
Qed.

Lemma fold_Bloom_add_range (items : list Buffer) (bloom : Z) :
  0 ≤ bloom < 2 ^ 2048 → 0 ≤ fold_left Bloom_add items bloom < 2 ^ 2048.
Proof.
  revert bloom. induction items as [|e items IH]; intros bloom Hb; [done|].
  simpl. apply IH. by apply Bloom_add_range.
Qed.

Lemma logsBloom_fold_range (ls : list Log) (bloom : Z) :
  0 ≤ bloom < 2 ^ 2048 →
  0 ≤ fold_left
        (fun bloom log =>
           fold_left Bloom_add (log_topics log) (Bloom_add bloom (log_address log)))
        ls bloom < 2 ^ 2048.
Proof.
  revert bloom. induction ls as [|l ls IH]; intros bloom Hb; [done|].
  simpl. apply IH. apply fold_Bloom_add_range. by apply Bloom_add_range.
Qed.

(** A filter holds an item when adding the item to it changes nothing, its
    three bits being set; what a filter holds it still holds after
    another item was added. *)
Lemma Bloom_add_absorb (bloom : Z) (e item : Buffer) :
  Z.lor bloom (Bloom_add 0 item) = bloom →
  Z.lor (Bloom_add bloom e) (Bloom_add 0 item) = Bloom_add bloom e.
Proof.
  intros Hin. rewrite (Bloom_add_lor bloom e).
  rewrite <- Z.lor_assoc, (Z.lor_comm (Bloom_add 0 e)), Z.lor_assoc. by rewrite Hin.
Qed.

Lemma fold_Bloom_add_absorb (items : list Buffer) (bloom : Z) (item : Buffer) :
  Z.lor bloom (Bloom_add 0 item) = bloom →
  Z.lor (fold_left Bloom_add items bloom) (Bloom_add 0 item)
  = fold_left Bloom_add items bloom.
Proof.
  revert bloom. induction items as [|e items IH]; intros bloom Hin; [done|].
  simpl. apply IH. by apply Bloom_add_absorb.
Qed.

Lemma Bloom_add_self (bloom : Z) (item : Buffer) :
  Z.lor (Bloom_add bloom item) (Bloom_add 0 item) = Bloom_add bloom item.
Proof. rewrite (Bloom_add_lor bloom item). by rewrite <- Z.lor_assoc, Z.lor_diag. Qed.

Lemma fold_Bloom_add_elem (items : list Buffer) (bloom : Z) (item : Buffer) :
  item ∈ items →
  Z.lor (fold_left Bloom_add items bloom) (Bloom_add 0 item)
  = fold_left Bloom_add items bloom.
Proof.
  revert bloom. induction items as [|e items IH]; intros bloom Hin;
    [by apply elem_of_nil in Hin|].
  simpl. apply elem_of_cons in Hin as [->|Hin]; [|by apply IH].
  apply fold_Bloom_add_absorb, Bloom_add_self.
Qed.

Lemma logsBloom_fold_contains (ls : list Log) (l : Log) (item : Buffer) (bloom : Z) :
  l ∈ ls → item = log_address l ∨ item ∈ log_topics l →
  let folded :=
    fold_left
      (fun bloom log =>
         fold_left Bloom_add (log_topics log) (Bloom_add bloom (log_address log)))
      ls bloom in
  Z.lor folded (Bloom_add 0 item) = folded.
Proof.
  intros Hl Hitem. revert bloom.
  induction ls as [|l' ls IH]; intros bloom; [by apply elem_of_nil in Hl|].
  simpl. apply elem_of_cons in Hl as [<-|Hl]; [|by apply IH].
  rewrite !logsBloom_fold.
  rewrite <- Z.lor_assoc, (Z.lor_comm (logsBloom ls)), Z.lor_assoc. f_equal.
  destruct Hitem as [->|Hin].
  - apply fold_Bloom_add_absorb, Bloom_add_self.
  - by apply fold_Bloom_add_elem.
Qed.

Lemma logsBloom_fold_items (ls : list Log) (bloom : Z) :
  fold_left
    (fun bloom log => fold_left Bloom_add (log_topics log) (Bloom_add bloom (log_address log)))
    ls bloom
  = fold_left Bloom_add (concat (map (fun l => log_address l :: log_topics l) ls)) bloom.
Proof.
  revert bloom. induction ls as [|l ls IH]; intros bloom; [done|].
  simpl. by rewrite fold_left_app, IH.
Qed.

(** X17: the bloom [logsBloom] computes for some logs holds the address
    and every topic of each of them: the three bits of the item are set,
    so adding the item again changes nothing (no false negative). It is
    the filter to which the address and the topics of each log were
    added, in that order, and nothing else: the data of the logs are
    never added, logs with the same addresses and topics have the same
    bloom. *)
Theorem logsBloom_contains (ls : list Log) (l : Log) (item : Buffer) :
  l ∈ ls → item = log_address l ∨ item ∈ log_topics l →
  Z.lor (logsBloom ls) (Bloom_add 0 item) = logsBloom ls
  ∧ logsBloom ls
    = fold_left Bloom_add (concat (map (fun l => log_address l :: log_topics l) ls)) 0
  ∧ (∀ ls' : list Log,
       map log_address ls' = map log_address ls →
       map log_topics ls' = map log_topics ls →
       logsBloom ls' = logsBloom ls).
Proof.
  intros Hl Hitem. split; [by apply (logsBloom_fold_contains ls l item 0)|].
  split; [apply logsBloom_fold_items|].
  intros ls' Haddr Htopics. unfold logsBloom. rewrite !logsBloom_fold_items. do 2 f_equal.
  clear Hl. revert ls' Haddr Htopics.
  induction ls as [|x ls IH]; intros [|x' ls'] Haddr Htopics; try done.
  simpl in *. injection Haddr as -> Haddr. injection Htopics as -> Htopics.
  f_equal. by apply IH.
Qed.
(** X18: the bloom of two lists of logs put together is the bitwise or of
    their blooms; the bloom of no log is zero, and every bloom fits the
    2048 bits of the filter. *)
Theorem logsBloom_app (ls1 ls2 : list Log) :
  logsBloom (ls1 ++ ls2) = Z.lor (logsBloom ls1) (logsBloom ls2)
  ∧ logsBloom [] = 0
  ∧ 0 ≤ logsBloom ls1 < 2 ^ 2048.
Proof.
  split; [|split; [done|]].
  - unfold logsBloom at 1. rewrite fold_left_app. fold (logsBloom ls1).
    apply logsBloom_fold.
  - apply logsBloom_fold_range. split; [done | by apply Z.pow_pos_nonneg].
Qed.

End BloomProperties.

Lemma logsBloom_contains_witness :
  Z.lor (logsBloom (H := refExternals) [log0; log1]) (Bloom_add (H := refExternals) 0 T3)
  = logsBloom (H := refExternals) [log0; log1]
  ∧ logsBloom (H := refExternals)
      [(log_address log0, log_topics log0, []); (log_address log1, log_topics log1, [])]
    = logsBloom (H := refExternals) [log0; log1].
Proof.
  destruct (logsBloom_contains (H := refExternals) [log0; log1] log1 T3)
    as (Hin & _ & Hdata).
  - apply elem_of_cons. right. apply elem_of_cons. by left.
  - right. apply elem_of_cons. right. apply elem_of_cons. by left.
  - split; [exact Hin|]. by apply Hdata.
Defined.

(** ** Error codes and precompiles *)

(** X19: the members of [ERROR] have pairwise distinct messages, so the
    message of an error tells which error it is. *)
Theorem ERROR_value_distinct (e1 e2 : ERROR) :
  e1 ≠ e2 → ERROR_value e1 ≠ ERROR_value e2.
Proof.
  intros Hne Heq. apply Hne.
  destruct e1, e2; first [reflexivity | discriminate Heq].
Qed.

Lemma ERROR_value_distinct_witness :
  ERROR_value INVALID_JUMP ≠ ERROR_value INVALID_JUMPSUB.
Proof. apply ERROR_value_distinct. discriminate. Defined.

Section PrecompileBounds.
Context `{!Hashes}.

Lemma ceil32_mono (n m : Z) : n ≤ m → ceil32 n ≤ ceil32 m.
Proof. intros Hle. unfold ceil32. apply Z.div_le_mono; lia. Qed.

(** X20: given their data, the two precompiles never throw and never use
    more gas than the limit they were given; a result that carries an
    error has used the whole limit and returns nothing. *)
Theorem precompile_gas_within_limit (opts : PrecompileInput) (d : Buffer) :
  data opts = Some d →
  ∃ r2 r3,
    precompile02 opts = Ok r2 ∧ precompile03 opts = Ok r3
    ∧ executionGasUsed r2 ≤ gasLimit opts
    ∧ executionGasUsed r3 ≤ gasLimit opts
    ∧ (is_Some (exceptionError r2) →
       executionGasUsed r2 = gasLimit opts ∧ returnValue r2 = [])
    ∧ (is_Some (exceptionError r3) →
       executionGasUsed r3 = gasLimit opts ∧ returnValue r3 = []).
Proof.
  intros Hd. unfold precompile02, precompile03. rewrite Hd.
  do 2 match goal with |- context [Z.ltb ?a ?b] => destruct (Z.ltb_spec a b) end;
    eexists _, _; (split; [reflexivity|]); (split; [reflexivity|]); simpl;
    repeat split; try lia; try done; by intros [? [=]].
Qed.

(** X21: without data the two precompiles throw, before any gas is
    counted; empty data are data: they cost the base price alone, and the
    hash of the empty input is returned, for RIPEMD-160 the hash padded
    on the left to 32 bytes. *)
Theorem precompile_missing_or_empty_data (gl : Z) (c : Common) :
  precompile02 (mkPrecompileInput None gl c) = Throw (Error "opts.data missing but required")
  ∧ precompile03 (mkPrecompileInput None gl c) = Throw (Error "opts.data missing but required")
  ∧ (param c "gasPrices" "sha256" ≤ gl →
     precompile02 (mkPrecompileInput (Some []) gl c)
     = Ok {| executionGasUsed := param c "gasPrices" "sha256";
             returnValue := sha256 [];
             exceptionError := None |})
  ∧ (param c "gasPrices" "ripemd160" ≤ gl →
     precompile03 (mkPrecompileInput (Some []) gl c)
     = Ok {| executionGasUsed := param c "gasPrices" "ripemd160";
             returnValue := setLengthLeft (ripemd160 []) 32;
             exceptionError := None |}).
Proof.
  split; [done|]. split; [done|].
  unfold precompile02, precompile03. cbn. unfold ceil32. cbn.
  rewrite !Z.mul_0_r, !Z.add_0_r.
  split; intros Hgas;
    match goal with |- context [Z.ltb ?a ?b] => destruct (Z.ltb_spec a b) end;
    first [lia | done].
Qed.

(** X22: with word prices that are not negative, a call that succeeds on
    some data under a gas limit succeeds under that limit on any data that
    are not longer, and uses no more gas. *)
Theorem precompile_shorter_input (d d' : Buffer) (gl : Z) (c : Common) :
  0 ≤ param c "gasPrices" "sha256Word" →
  0 ≤ param c "gasPrices" "ripemd160Word" →
  (length d ≤ length d')%nat →
  (∀ r2', precompile02 (mkPrecompileInput (Some d') gl c) = Ok r2' →
          exceptionError r2' = None →
          ∃ r2, precompile02 (mkPrecompileInput (Some d) gl c) = Ok r2
                ∧ exceptionError r2 = None
                ∧ executionGasUsed r2 ≤ executionGasUsed r2')
  ∧ (∀ r3', precompile03 (mkPrecompileInput (Some d') gl c) = Ok r3' →
            exceptionError r3' = None →
            ∃ r3, precompile03 (mkPrecompileInput (Some d) gl c) = Ok r3
                  ∧ exceptionError r3 = None
                  ∧ executionGasUsed r3 ≤ executionGasUsed r3').
Proof.
  intros Hw2 Hw3 Hlen.
  pose proof (ceil32_mono (Z.of_nat (length d)) (Z.of_nat (length d')) ltac:(lia)) as Hc.
  unfold precompile02, precompile03. cbn.
  split; intros r'.
  - destruct (Z.ltb_spec gl (param c "gasPrices" "sha256"
        + param c "gasPrices" "sha256Word" * ceil32 (Z.of_nat (length d')))) as [Hlt|Hge].
    + intros [= <-]. done.
    + intros [= <-] _.
      destruct (Z.ltb_spec gl (param c "gasPrices" "sha256"
        + param c "gasPrices" "sha256Word" * ceil32 (Z.of_nat (length d)))) as [Hlt'|Hge'].
      * nia.
      * eexists. split; [reflexivity|]. split; [done|]. simpl. nia.
  - destruct (Z.ltb_spec gl (param c "gasPrices" "ripemd160"
        + param c "gasPrices" "ripemd160Word" * ceil32 (Z.of_nat (length d')))) as [Hlt|Hge].
    + intros [= <-]. done.
    + intros [= <-] _.
      destruct (Z.ltb_spec gl (param c "gasPrices" "ripemd160"
        + param c "gasPrices" "ripemd160Word" * ceil32 (Z.of_nat (length d)))) as [Hlt'|Hge'].
      * nia.
      * eexists. split; [reflexivity|]. split; [done|]. simpl. nia.
Qed.

End PrecompileBounds.

Lemma precompile_gas_within_limit_witness :
  ∃ r2 r3,
    precompile02 (H := refHashes) (mkPrecompileInput (Some [Byte.x01]) 50 testCommon) = Ok r2
    ∧ precompile03 (H := refHashes) (mkPrecompileInput (Some [Byte.x01]) 5 testCommon) = Ok r3
    ∧ executionGasUsed r2 ≤ 50 ∧ executionGasUsed r3 ≤ 5.
Proof.
  destruct (precompile_gas_within_limit (H := refHashes)
              (mkPrecompileInput (Some [Byte.x01]) 50 testCommon) [Byte.x01] eq_refl)
    as (r2 & _ & H2 & _ & Hg2 & _).
  destruct (precompile_gas_within_limit (H := refHashes)
              (mkPrecompileInput (Some [Byte.x01]) 5 testCommon) [Byte.x01] eq_refl)
    as (_ & r3 & _ & H3 & _ & Hg3 & _).
  exists r2, r3. auto.
Defined.

Lemma precompile_shorter_input_witness :
  ∃ r2, precompile02 (H := refHashes) (mkPrecompileInput (Some [Byte.x01]) 9 testCommon)
        = Ok r2
        ∧ exceptionError r2 = None ∧ executionGasUsed r2 ≤ 9.
Proof.
  destruct (precompile_shorter_input (H := refHashes) [Byte.x01] (replicate 33 Byte.x01)
              9 testCommon) as [H2 _]; [simpl; lia | simpl; lia | simpl; lia |].
  apply (H2 {| executionGasUsed := 9;
               returnValue := sha256 (Hashes := refHashes) (replicate 33 Byte.x01);
               exceptionError := None |}); reflexivity.
Defined.

(** ** Overriding a default opcode *)

Section OpcodeOverride.
Variable shared : Shared.
Variable hardfork : string.

(** X23: a custom opcode registered at any byte takes the place of
    whatever the default table holds there (as TEST at 0x20 takes that of
    KECCAK256 in the test): code made of that byte runs the custom logic,
    366 gas are used and the stack is [1]; the shared defaults stay as
    they are. The EVM is modelled from the specification, as for the
    other custom opcode properties. *)
Theorem custom_opcode_overrides_default (op : byte) (opts : RunCodeOpts) (fuel : nat) :
  rc_code opts = [op] →
  totalFee ≤ rc_gasLimit opts →
  let created := EVM_create (mkEVMOpts hardfork [testOpcode op]) shared in
  created.2 = shared
  ∧ (name <$> lookupOpcode (_opcodes created.1) op) = Some "TEST"
  ∧ ∃ r, runCode (S (S fuel)) created.1 opts = Some r
         ∧ res_executionGasUsed r = totalFee
         ∧ stack (res_runState r) = [stackPush]
         ∧ res_exceptionError r = None.
Proof.
  intros Hcode Hgas created. unfold totalFee, fee, logicFee in Hgas.
  split; [reflexivity|].
  split; [unfold created; by rewrite lookupOpcode_test|].
  unfold runCode, interpreterRun.
  unfold interpreterStep at 1.
  replace (code (initialRunState opts) !! pc (initialRunState opts))
    with (Some op) by (simpl; by rewrite Hcode).
  unfold created. rewrite lookupOpcode_test.
  cbn [minStack maxStack baseFee gasFn logicFn name].
  replace (isStatic (initialRunState opts)
           && isStateMutating _ (initialRunState opts)) with false
    by (unfold isStateMutating; cbn [name]; simpl; by rewrite andb_false_r).
  cbn [initialRunState stack gasLeft length Nat.ltb Nat.leb Nat.sub Nat.add STACK_LIMIT].
  unfold fee, logicFee.
  destruct (Z.ltb_spec (rc_gasLimit opts) (333 + 33)); [lia|].
  simpl. unfold interpreterStep. simpl. rewrite Hcode. simpl.
  eexists. split; [reflexivity|]. simpl.
  repeat split; try done. unfold totalFee, fee, logicFee. lia.
Qed.

End OpcodeOverride.

Lemma custom_opcode_overrides_default_witness :
  is_Some (DEFAULTS testShared "london" !! Byte.x01)
  ∧ ∃ r, runCode 2 (EVM_create (mkEVMOpts "london" [testOpcode Byte.x01]) testShared).1
                 (testRunOpts [Byte.x01]) = Some r
         ∧ res_executionGasUsed r = 366
         ∧ stack (res_runState r) = [1].
Proof.
  split; [by eexists|].
  destruct (custom_opcode_overrides_default testShared "london" Byte.x01
              (testRunOpts [Byte.x01]) 0) as (_ & _ & r & Hr & Hgas & Hstack & _).
  - reflexivity.
  - unfold totalFee, fee, logicFee. simpl. lia.
  - exists r. auto.
Defined.

(** ** Helpers of the VM tests *)



Lemma fromHex_toHex_cons (b : byte) (s : string) :
  fromHex (String (hexDigit (byteVal b / 16)) (String (hexDigit (byteVal b mod 16)) s))
  = b :: fromHex s.
Proof. destruct b; reflexivity. Qed.

Lemma fromHex_toHex (b : Buffer) : fromHex (toHex b) = b.
Proof.
  induction b as [|x b IH]; [done|].
  cbn [toHex fold_right]. fold (toHex b). by rewrite fromHex_toHex_cons, IH.
Qed.

Lemma toHex_length (b : Buffer) : String.length (toHex b) = (2 * length b)%nat.
Proof.
  induction b as [|x b IH]; [done|]. cbn [toHex fold_right]. fold (toHex b). simpl. lia.
Qed.

Lemma padToEven_toHex (b : Buffer) : padToEven (toHex b) = toHex b.
Proof.
  unfold padToEven. rewrite toHex_length.
  by rewrite Nat.odd_mul, andb_false_l.
Qed.

Lemma toHex_nil (b : Buffer) : toHex b = "" ↔ b = [].
Proof. split; [|by intros ->]. by destruct b. Qed.

Lemma substring_all (s : string) : String.substring 0 (String.length s) s = s.
Proof. induction s as [|c s IH]; [done|]. simpl. by rewrite IH. Qed.

Lemma isHexPrefixed_bufferToHex (b : Buffer) : isHexPrefixed (bufferToHex b) = true.
Proof.
  unfold isHexPrefixed, bufferToHex. cbv [String.append]. simpl. by destruct (toHex b).
Qed.

Lemma slice2_bufferToHex (b : Buffer) : slice2 (bufferToHex b) = toHex b.
Proof.
  unfold slice2, bufferToHex. simpl. rewrite ?Nat.sub_0_r. apply substring_all.
Qed.

Lemma format_hexPrefixed (BigInt_ofString : string → option Z) (s : string)
    (toZero isHex : bool) :
  isHexPrefixed s = true →
  format BigInt_ofString (FString s) toZero isHex
  = let b := fromHex (padToEven (slice2 s)) in
    Ok (OutBuffer (if toZero then match b with [] => [Byte.x00] | _ => b end else b)).
Proof.
  intros Hpre. unfold format.
  destruct s as [|c s]; [done|]. rewrite Hpre. cbn [rbind].
  destruct toZero; [|done].
  destruct (fromHex _) as [|x b]; [done|]. by rewrite bool_decide_eq_false_2.
Qed.

Lemma bigIntToBuffer_Ok (n : Z) :
  0 ≤ n → ∃ b, bigIntToBuffer n = Ok b ∧ b ≠ [] ∧ bufferToBigInt b = n.
Proof.
  intros Hn. unfold bigIntToBuffer. destruct (Z.ltb_spec n 0); [lia|].
  destruct (Z.eqb_spec n 0) as [->|Hne]; eexists; (split; [reflexivity|]).
  - done.
  - split; [|apply bigEndian_decode; lia].
    intros Hnil. pose proof (bigEndian_decode n ltac:(lia)) as Hdec.
    rewrite Hnil in Hdec. unfold bufferToBigInt in Hdec. simpl in Hdec. lia.
Qed.

Section FormatProperties.
Variable BigInt_ofString : string → option Z.

(** X25: [format] undoes [bufferToHex]: the hexadecimal text of a buffer
    is formatted to that buffer, with or without [isHex]; with [toZero]
    the empty buffer becomes the single octet zero. *)
Theorem format_bufferToHex (b : Buffer) (toZero isHex : bool) :
  format BigInt_ofString (FString (bufferToHex b)) toZero isHex
  = Ok (OutBuffer (if toZero then match b with [] => [Byte.x00] | _ => b end else b)).
Proof.
  rewrite format_hexPrefixed by apply isHexPrefixed_bufferToHex. cbv zeta.
  by rewrite slice2_bufferToHex, padToEven_toHex, fromHex_toHex.
Qed.

(** X26: [format] of a bigint. One that is not negative gives a buffer
    that is not empty and denotes it in big-endian, the same buffer as the
    hexadecimal text of that buffer gives, so that a number and its
    minimal hexadecimal text compare equal. A negative one is handed back
    as it is, not as a buffer, and with [toZero] the call throws a
    [RangeError]; with [isHex] every bigint is refused with a
    [TypeError]. *)
Theorem format_bigint (n : Z) (toZero : bool) :
  (0 ≤ n →
   ∃ b, format BigInt_ofString (FBigInt n) toZero false = Ok (OutBuffer b)
        ∧ bufferToBigInt b = n ∧ b ≠ []
        ∧ format BigInt_ofString (FString (bufferToHex b)) toZero false = Ok (OutBuffer b))
  ∧ (n < 0 →
     format BigInt_ofString (FBigInt n) false false = Ok (OutBigInt n)
     ∧ format BigInt_ofString (FBigInt n) true false = Throw RangeError)
  ∧ format BigInt_ofString (FBigInt n) toZero true = Throw TypeError.
Proof.
  split; [|split; [|done]].
  - intros Hn. destruct (bigIntToBuffer_Ok n Hn) as (b & Hb & Hne & Hdec).
    exists b. split.
    + unfold format. cbn [negb]. rewrite Hb. cbn [rbind].
      destruct toZero; [|done]. rewrite bool_decide_eq_false_2; [done|].
      by rewrite toHex_nil.
    + split; [done|]. split; [done|].
      rewrite format_hexPrefixed by apply isHexPrefixed_bufferToHex. cbv zeta.
      rewrite slice2_bufferToHex, padToEven_toHex, fromHex_toHex.
      destruct toZero; [|done]. by destruct b.
  - intros Hn. unfold format. cbn [negb]. unfold bigIntToBuffer.
    destruct (Z.ltb_spec n 0); [done|lia].
Qed.

(** X27: with [toZero], a buffer [format] returns is never empty, except
    for the empty string, which is answered with the empty buffer before
    [toZero] is looked at. *)
Theorem format_toZero_not_empty (a : FormatArg) (isHex : bool) (b : Buffer) :
  a ≠ FString "" →
  format BigInt_ofString a true isHex = Ok (OutBuffer b) →
  b ≠ [] ∧ format BigInt_ofString (FString "") true isHex = Ok (OutBuffer []).
Proof.
  intros Ha Hf. split; [|done]. intros ->. destruct a as [s|n].
  - destruct s as [|c s]; [done|]. unfold format in Hf.
    destruct (isHexPrefixed (String c s)).
    + cbn [rbind] in Hf. destruct (bool_decide _) eqn:Hd; [done|].
      injection Hf as Hf. rewrite Hf in Hd. by rewrite bool_decide_eq_true_2 in Hd.
    + destruct isHex; cbn [negb] in Hf.
      * cbn [rbind] in Hf. destruct (bool_decide _) eqn:Hd; [done|].
        injection Hf as Hf. rewrite Hf in Hd. by rewrite bool_decide_eq_true_2 in Hd.
      * destruct (BigInt_ofString (String c s)) as [n|].
        -- destruct (bigIntToBuffer n) as [b|]; cbn [rbind] in Hf.
           ++ destruct (bool_decide _) eqn:Hd; [done|].
              injection Hf as Hf. rewrite Hf in Hd. by rewrite bool_decide_eq_true_2 in Hd.
           ++ by destruct (bool_decide _).
        -- cbn [rbind] in Hf. by destruct (bool_decide _).
  - unfold format in Hf. destruct isHex; cbn [negb] in Hf; [done|].
    destruct (bigIntToBuffer n) as [b|]; cbn [rbind] in Hf; [|done].
    destruct (bool_decide _) eqn:Hd; [done|].
    injection Hf as Hf. rewrite Hf in Hd. by rewrite bool_decide_eq_true_2 in Hd.
Qed.

End FormatProperties.

Lemma format_toZero_not_empty_witness :
  [Byte.x00] ≠ []
  ∧ format (fun _ => None) (FString "") true false = Ok (OutBuffer []).
Proof.
  apply (format_toZero_not_empty (fun _ => None) (FString "0x") false [Byte.x00]).
  - discriminate.
  - reflexivity.
Defined.

Lemma forEachT_Forall {A} (xs : list A) (body : A → list Assertion * result unit)
    (made : list Assertion) :
  forEachT xs body = (made, Ok tt) → Forall passes made →
  Forall (fun x => ∃ m, body x = (m, Ok tt) ∧ Forall passes m) xs.
Proof.
  revert made. induction xs as [|x xs IH]; intros made; simpl; [constructor|].
  destruct (body x) as [m [[]|e]] eqn:Hb; [|done].
  destruct (forEachT xs body) as [m' r] eqn:Hrest.
  intros [= <- ->] Hall. apply Forall_app in Hall as [Hm Hm'].
  constructor; [eauto | by apply (IH m')].
Qed.

Lemma forEachT_ext {A} (xs : list A) (body body' : A → list Assertion * result unit) :
  (∀ x, x ∈ xs → body x = body' x) → forEachT xs body = forEachT xs body'.
Proof.
  induction xs as [|x xs IH]; intros Hext; [done|].
  simpl. rewrite (Hext x) by by left. rewrite IH; [done|].
  intros y Hy. apply Hext. by right.
Qed.

Lemma Forall_imap_pair {A} (P : nat * A → Prop) (l : list A) :
  Forall P (imap pair l) → ∀ i x, l !! i = Some x → P (i, x).
Proof.
  intros Hall i x Hi. rewrite Forall_forall in Hall. apply Hall.
  apply elem_of_lookup_imap. eauto.
Qed.

(** X28: when [verifyLogs] comes to its end and every assertion it made
    passes, each log the test data list is matched by the log of the run
    at the same index: the hexadecimal text of its address and of its data
    are those expected, and so is that of each topic the test data list
    for it. *)
Theorem verifyLogs_passed (logs : list Log) (expected : list ExpectedLog)
    (made : list Assertion) :
  verifyLogs logs (Some expected) = (made, Ok tt) →
  Forall passes made →
  ∀ i log, expected !! i = Some log →
    ∃ rlog, logs !! i = Some rlog
            ∧ toHex (log_address rlog) = exp_address log
            ∧ bufferToHex (log_data rlog) = exp_data log
            ∧ ∀ j topic, exp_topics log !! j = Some topic →
                ∃ t, log_topics rlog !! j = Some t ∧ toHex t = topic.
Proof.
  intros Hrun Hpass i log Hi. unfold verifyLogs in Hrun.
  pose proof (Forall_imap_pair _ _ (forEachT_Forall _ _ _ Hrun Hpass) i log Hi)
    as (m & Hm & Hpm).
  unfold verifyLog in Hm.
  destruct (logs !! i) as [rlog|]; [|done]. exists rlog. split; [done|].
  destruct (forEachT (imap pair (exp_topics log)) (verifyTopic rlog)) as [mt rt] eqn:Ht.
  injection Hm as <- ->.
  apply Forall_cons in Hpm as [Haddr Hpm]. apply Forall_cons in Hpm as [Hdata Hpm].
  split; [exact Haddr|]. split; [exact Hdata|].
  intros j topic Hj.
  pose proof (Forall_imap_pair _ _ (forEachT_Forall _ _ _ Ht Hpm) j topic Hj)
    as (m' & Hm' & Hpm').
  unfold verifyTopic in Hm'. destruct (log_topics rlog !! j) as [t|]; [|done].
  exists t. split; [done|]. injection Hm' as <-.
  by apply Forall_cons in Hpm' as [Hp _].
Qed.

(** X29: [verifyLogs] never looks at a log of the run beyond those the
    test data list: logs in excess change neither the assertions made nor
    the outcome, and when the test data list no log, or have no list, no
    assertion is made at all. *)
Theorem verifyLogs_surplus_unseen (logs more : list Log) (expected : list ExpectedLog) :
  (length expected ≤ length logs)%nat →
  verifyLogs (logs ++ more) (Some expected) = verifyLogs logs (Some expected)
  ∧ verifyLogs (logs ++ more) None = ([], Ok tt)
  ∧ verifyLogs (logs ++ more) (Some []) = ([], Ok tt).
Proof.
  intros Hlen. split; [|done]. unfold verifyLogs. apply forEachT_ext.
  intros [i log] Hin. apply elem_of_lookup_imap in Hin as (i' & log' & [= -> ->] & Hi).
  unfold verifyLog. apply lookup_lt_Some in Hi.
  by rewrite lookup_app_l by lia.
Qed.

Lemma verifyLogs_passed_witness :
  ∃ rlog, [log9; log0] !! 0%nat = Some rlog
          ∧ toHex (log_address rlog) = exp_address expected9
          ∧ bufferToHex (log_data rlog) = exp_data expected9.
Proof.
  destruct (verifyLogs_passed [log9; log0] [expected9]
              (verifyLogs [log9; log0] (Some [expected9])).1) with (i := 0%nat) (log := expected9)
    as (rlog & Hr & Ha & Hd & _).
  - vm_compute. reflexivity.
  - vm_compute. repeat constructor.
  - reflexivity.
  - exists rlog. auto.
Defined.

Lemma verifyLogs_surplus_unseen_witness :
  verifyLogs ([log9] ++ [log0; log1]) (Some [expected9]) = verifyLogs [log9] (Some [expected9]).
Proof.
  apply (verifyLogs_surplus_unseen [log9] [log0; log1] [expected9]). simpl. lia.
Defined.
